(** * trasher: the concurrent generation-and-write pipeline

  A shallow embedding of the Go sources of [maxkimambo/trasher]
  (pattern generators, worker pool and dispatcher, file writer, shutdown
  handler, the result loop of the command) together with the properties
  the design document states about them.

  Conventions.
  - Go's [int] and [int64] are 64-bit two's complement integers.  They are
    modelled as [Z] and every addition and subtraction of the source goes
    through [add64] / [sub64], which wrap.
  - A byte is a [Z] in [0, 256); [uint8 z] is Go's conversion [uint8(z)].
  - A Go [error] is a message; [None] is [nil].
  - The part of a slice that the callee can see is a [list Z]; a callee
    that writes into the slice returns the new contents. *)

From Stdlib Require Import ZArith List Lia Bool String.
From stdpp Require Import base tactics option list gmap pretty.

Local Open Scope Z_scope.

(* ===================================================================== *)
(** ** Go integers *)
(* ===================================================================== *)

Module GoInt.

Definition min_int64 : Z := - 2 ^ 63.
Definition max_int64 : Z := 2 ^ 63 - 1.

(** Reduction of a mathematical integer to its 64-bit two's complement
    representative. *)
Definition wrap64 (z : Z) : Z := (z + 2 ^ 63) mod 2 ^ 64 - 2 ^ 63.

Definition add64 (a b : Z) : Z := wrap64 (a + b).
Definition sub64 (a b : Z) : Z := wrap64 (a - b).
Definition mul64 (a b : Z) : Z := wrap64 (a * b).

(** Go's [%] truncates towards zero. *)
Definition rem64 (a b : Z) : Z := Z.rem a b.

(** [uint8(z)]: the low eight bits. *)
Definition uint8 (z : Z) : Z := z mod 256.

Definition in_int64 (z : Z) : Prop := min_int64 <= z <= max_int64.

End GoInt.

Import GoInt.

(** [len(s)] of a slice, as a Go [int]. *)
Definition len {A} (s : list A) : Z := Z.of_nat (length s).

Definition error : Type := string.

(** The line feed that ends a printed line. *)
Definition nl : string := String (Ascii.ascii_of_nat 10) EmptyString.

(* ===================================================================== *)
(** ** pkg/generator *)
(* ===================================================================== *)

Module Generator.

(** *** RandomGenerator

    [crypto/rand.Read] is the only source of non-determinism of the
    package.  It is modelled as an explicit supply of bytes: the bytes the
    operating system will deliver, in order.  A read that the supply
    cannot serve is a failure of the entropy source. *)

Definition entropy : Type := list Z.

Definition errEntropy : error := "entropy source failure"%string.

Definition Random_Generate (ent : entropy) (buffer : list Z)
  : entropy * list Z * option error :=
  if (length buffer <=? length ent)%nat
  then (drop (length buffer) ent, take (length buffer) ent, None)
  else (ent, buffer, Some errEntropy).

(** *** ZeroGenerator *)

Fixpoint Zero_fill (buffer : list Z) : list Z :=
  match buffer with
  | [] => []
  | _ :: rest => 0 :: Zero_fill rest
  end.

Definition Zero_Generate (buffer : list Z) : list Z * option error :=
  (Zero_fill buffer, None).

(** *** SequentialGenerator *)

Record SequentialGenerator := { counter : Z }.

(** The body of [for i := range buffer], from index [i] on. *)
Fixpoint Sequential_fill (startValue i : Z) (buffer : list Z) : list Z :=
  match buffer with
  | [] => []
  | _ :: rest =>
      uint8 (rem64 (add64 startValue i) 256)
        :: Sequential_fill startValue (i + 1) rest
  end.

Definition Sequential_Generate (g : SequentialGenerator) (buffer : list Z)
  : SequentialGenerator * list Z * option error :=
  let startValue := counter g in
  let g' := {| counter := uint8 (rem64 (add64 (counter g) (len buffer)) 256) |} in
  (g', Sequential_fill startValue 0 buffer, None).

(** *** MixedGenerator *)

Record MixedGenerator := {
  chunkSize : Z;
  isRandom : bool;
  currentPos : Z
}.

Definition NewMixedGenerator (chunkSize : Z) : MixedGenerator :=
  let chunkSize := if chunkSize <=? 0 then 1024 else chunkSize in
  {| chunkSize := chunkSize; isRandom := true; currentPos := 0 |}.

Definition min (a b : Z) : Z := if a <? b then a else b.

(** What a call of [Generate] can come to. *)
Inductive outcome :=
| Returned (g : MixedGenerator) (ent : entropy) (buffer : list Z)
           (err : option error)
| Panicked  (* slice bounds out of range *)
| Running.  (* the loop has not finished within the allotted steps *)

(** [buffer[lo:hi]] seen as a window that can be written back. *)
Definition window (buffer : list Z) (lo hi : Z) : list Z :=
  take (Z.to_nat (hi - lo)) (drop (Z.to_nat lo) buffer).

Definition store (buffer : list Z) (lo hi : Z) (chunk : list Z) : list Z :=
  take (Z.to_nat lo) buffer ++ chunk ++ drop (Z.to_nat hi) buffer.

Fixpoint Mixed_loop (steps : nat) (g : MixedGenerator) (ent : entropy)
    (buffer : list Z) (offset : Z) : outcome :=
  match steps with
  | O => Running
  | S steps' =>
      if offset <? len buffer then
        let remainingInChunk := sub64 (chunkSize g) (currentPos g) in
        let remainingInBuffer := sub64 (len buffer) offset in
        let copySize := min remainingInChunk remainingInBuffer in
        let hi := add64 offset copySize in
        if (hi <? offset) || (len buffer <? hi) then Panicked else
        let chunk := window buffer offset hi in
        let '(ent', chunk', err) :=
          if isRandom g then Random_Generate ent chunk
          else let '(c, e) := Zero_Generate chunk in (ent, c, e) in
        let buffer' := store buffer offset hi chunk' in
        match err with
        | Some e => Returned g ent' buffer' (Some e)
        | None =>
            let pos := add64 (currentPos g) copySize in
            let offset' := add64 offset copySize in
            let g' :=
              if chunkSize g <=? pos
              then {| chunkSize := chunkSize g;
                      isRandom := negb (isRandom g);
                      currentPos := 0 |}
              else {| chunkSize := chunkSize g;
                      isRandom := isRandom g;
                      currentPos := pos |} in
            Mixed_loop steps' g' ent' buffer' offset'
        end
      else Returned g ent buffer None
  end.

(** Every iteration but possibly the first moves [offset] forward, so
    [length buffer + 2] iterations are enough for a generator built by
    [NewMixedGenerator]. *)
Definition Mixed_Generate (g : MixedGenerator) (ent : entropy)
    (buffer : list Z) : outcome :=
  Mixed_loop (2 + length buffer) g ent buffer 0.

(** A generator as [NewMixedGenerator] builds it and [Generate] keeps it. *)
Definition well_formed (g : MixedGenerator) : Prop :=
  0 < chunkSize g <= max_int64 /\ 0 <= currentPos g < chunkSize g.

(** A buffer in which every byte is zero. *)
Definition all_zero (l : list Z) : bool := forallb (Z.eqb 0) l.

(** *** The [Generator] interface

    An implementation owns a state of type [G]; [Generate] threads it. *)

Class GeneratorI (G : Type) : Type :=
  Generate : G -> list Z -> G * list Z * option error.

#[export] Instance ZeroGenerator_I : GeneratorI unit :=
  fun g buffer => let '(out, err) := Zero_Generate buffer in (g, out, err).

#[export] Instance SequentialGenerator_I : GeneratorI SequentialGenerator :=
  Sequential_Generate.

#[export] Instance RandomGenerator_I : GeneratorI entropy :=
  Random_Generate.

(** The generator of [TestWorkerPoolErrorHandling]: it always fails and
    leaves the buffer alone. *)
Inductive FailingGenerator := failingGen.

#[export] Instance FailingGenerator_I : GeneratorI FailingGenerator :=
  fun g buffer => (g, buffer, Some "test error"%string).

(** *** The cycle of the Mixed generator

    The stream of a Mixed generator is periodic: [chunkSize] bytes of the
    random source, then [chunkSize] zero bytes.  [phase] is the place of
    the next byte in that cycle. *)
Definition phase (g : MixedGenerator) : Z :=
  (if isRandom g then 0 else chunkSize g) + currentPos g.

(** Position [p] of the stream falls in the zero half of a cycle of
    chunk length [C]. *)
Definition zero_phase (C p : Z) : bool := C <=? p mod (2 * C).

(** The cells of [out] that fall in the random half, when the first cell
    of [out] stands at position [p]. *)
Fixpoint random_cells (C p : Z) (out : list Z) : list Z :=
  match out with
  | [] => []
  | x :: rest =>
      if zero_phase C p then random_cells C (p + 1) rest
      else x :: random_cells C (p + 1) rest
  end.

(** *** The factory

    A value of the [Generator] interface is one of the four
    implementations. *)
Inductive AnyGenerator :=
| GenRandom
| GenSequential (g : SequentialGenerator)
| GenZero
| GenMixed (g : MixedGenerator).

Definition Name (g : AnyGenerator) : string :=
  match g with
  | GenRandom => "random"
  | GenSequential _ => "sequential"
  | GenZero => "zero"
  | GenMixed _ => "mixed"
  end.

Definition NewGenerator (pattern : string)
  : option AnyGenerator * option error :=
  if String.eqb pattern "random" then (Some GenRandom, None)
  else if String.eqb pattern "sequential"
  then (Some (GenSequential {| counter := 0 |}), None)
  else if String.eqb pattern "zero" then (Some GenZero, None)
  else if String.eqb pattern "mixed"
  then (Some (GenMixed (NewMixedGenerator 1024)), None)
  else (None, Some ("unknown pattern: " +:+ pattern)).

Definition AvailablePatterns : list string :=
  ["random"; "sequential"; "zero"; "mixed"]%string.

End Generator.

(* ===================================================================== *)
(** ** internal/worker *)
(* ===================================================================== *)

Module Worker.
Import Generator.

Record workItem := { offset : Z; size : Z }.

(** A slice header: the backing array from the slice's first cell on (its
    length is the capacity) and the length of the slice.  Two headers over
    the same array differ in [slen] only. *)
Record slice := { backing : list Z; slen : Z }.

Definition cap (s : slice) : Z := len (backing s).

(** The cells the holder of the slice can read and write. *)
Definition contents (s : slice) : list Z :=
  take (Z.to_nat (slen s)) (backing s).

(** [make([]byte, n)] *)
Definition make (n : Z) : slice :=
  {| backing := replicate (Z.to_nat n) 0; slen := n |}.

(** [s[:n]]; [None] is the run-time panic. *)
Definition slice_to (s : slice) (n : Z) : option slice :=
  if (n <? 0) || (cap s <? n) then None
  else Some {| backing := backing s; slen := n |}.

(** The array after the holder of [s] has overwritten its cells. *)
Definition written_through (s : slice) (bytes : list Z) : list Z :=
  bytes ++ drop (Z.to_nat (slen s)) (backing s).

(** The source names this field [offset], as in [workItem]. *)
Record resultItem := { buffer : slice; result_offset : Z }.

(** The pool and what its goroutines share.  A channel is the list of the
    values in flight, oldest first ([workClosed]: [workChan] has been
    closed); [cancelled] says that [ctx.Done()] is closed; [bufferPool]
    holds, for every idle [*[]byte], the header it points to. *)
Record WorkerPool := {
  numWorkers : Z;
  chunkSize : Z;
  workChan : list workItem;
  workClosed : bool;
  resultChan : list resultItem;
  errorChan : list error;
  cancelled : bool;
  bufferPool : list slice
}.

Definition NewWorkerPool (numCPU numWorkers chunkSize : Z) : WorkerPool :=
  let numWorkers := if numWorkers <=? 0 then numCPU else numWorkers in
  let chunkSize :=
    if chunkSize <=? 0 then mul64 (mul64 64 1024) 1024 else chunkSize in
  {| numWorkers := numWorkers;
     chunkSize := chunkSize;
     workChan := [];
     workClosed := false;
     resultChan := [];
     errorChan := [];
     cancelled := false;
     bufferPool := [] |}.

Definition set_bufferPool (p : WorkerPool) (b : list slice) : WorkerPool :=
  {| numWorkers := numWorkers p; chunkSize := chunkSize p;
     workChan := workChan p; workClosed := workClosed p;
     resultChan := resultChan p;
     errorChan := errorChan p; cancelled := cancelled p; bufferPool := b |}.

Definition set_resultChan (p : WorkerPool) (c : list resultItem) : WorkerPool :=
  {| numWorkers := numWorkers p; chunkSize := chunkSize p;
     workChan := workChan p; workClosed := workClosed p;
     resultChan := c;
     errorChan := errorChan p; cancelled := cancelled p;
     bufferPool := bufferPool p |}.

Definition set_errorChan (p : WorkerPool) (c : list error) : WorkerPool :=
  {| numWorkers := numWorkers p; chunkSize := chunkSize p;
     workChan := workChan p; workClosed := workClosed p;
     resultChan := resultChan p;
     errorChan := c; cancelled := cancelled p;
     bufferPool := bufferPool p |}.

Definition set_workChan (p : WorkerPool) (c : list workItem) : WorkerPool :=
  {| numWorkers := numWorkers p; chunkSize := chunkSize p;
     workChan := c; workClosed := workClosed p;
     resultChan := resultChan p;
     errorChan := errorChan p; cancelled := cancelled p;
     bufferPool := bufferPool p |}.

(** [p.cancel()] *)
Definition cancel (p : WorkerPool) : WorkerPool :=
  {| numWorkers := numWorkers p; chunkSize := chunkSize p;
     workChan := workChan p; workClosed := workClosed p;
     resultChan := resultChan p;
     errorChan := errorChan p; cancelled := true;
     bufferPool := bufferPool p |}.

(** [p.bufferPool.Get()]: [sync.Pool] hands out any idle item, here the
    [k]-th, and calls [New] when it has none to give. *)
Definition bufferPool_Get (p : WorkerPool) (k : nat) : slice * WorkerPool :=
  match bufferPool p !! k with
  | Some s => (s, set_bufferPool p (delete k (bufferPool p)))
  | None => (make (chunkSize p), p)
  end.

(** [p.bufferPool.Put(ptr)], [s] being the header [ptr] points to. *)
Definition bufferPool_Put (p : WorkerPool) (s : slice) : WorkerPool :=
  set_bufferPool p (s :: bufferPool p).

(** [ReturnBuffer] takes the slice by value and stores a pointer to its own
    copy of the header. *)
Definition ReturnBuffer (p : WorkerPool) (buffer : slice) : WorkerPool :=
  bufferPool_Put p buffer.

(** Every idle buffer has the configured chunk length. *)
Definition pool_full (p : WorkerPool) : Prop :=
  Forall (fun s => slen s = chunkSize p) (bufferPool p).

(** A header as the run time builds them: the length lies within the
    capacity. *)
Definition slice_ok (s : slice) : Prop := 0 <= slen s <= cap s.

Definition pool_valid (p : WorkerPool) : Prop :=
  Forall slice_ok (bufferPool p).

(** [Generate] writes into the slice it is given: what comes back is as
    long as what went in. *)
Definition fills_in_place (G : Type) `{GeneratorI G} : Prop :=
  forall (g : G) (b : list Z), length (Generate g b).1.2 = length b.

(** Which of the ready cases of a [select] the run time takes. *)
Inductive pick := First | Second.

Inductive step_result (G : Type) :=
| Exits (p : WorkerPool) (g : G)   (* [return]: the goroutine is over *)
| Loops (p : WorkerPool) (g : G)   (* back to the head of the [for] *)
| Blocks                           (* no case of the [select] is ready *)
| Panics.

Arguments Exits {G} p g.
Arguments Loops {G} p g.
Arguments Blocks {G}.
Arguments Panics {G}.

(** What the [select] at the head of the worker loop comes to. *)
Inductive received :=
| Work (work : workItem) (p : WorkerPool)   (* an item was received *)
| Leaves                                    (* [return] *)
| Waits.                                    (* no case is ready *)

(** The head of the worker loop: the lifetime is over, or an item (or the
    news that the channel is closed and empty) comes out of [workChan]. *)
Definition worker_receive (p : WorkerPool) (c : pick) : received :=
  let doneReady := cancelled p in
  let recvReady := negb (len (workChan p) =? 0) || workClosed p in
  match doneReady, recvReady, c with
  | true, false, _ | true, true, First => Leaves
  | false, true, _ | true, true, Second =>
      match workChan p with
      | work :: rest => Work work (set_workChan p rest)
      | [] => Leaves
      end
  | false, false, _ => Waits
  end.

(** The first lines of the worker's loop body: take a buffer from the pool
    and cut it down when the item is shorter.  The result is the header
    [bufferPtr] points to, the worker's own [buffer], and the pool. *)
Definition worker_acquire (p : WorkerPool) (work : workItem) (k : nat)
  : option (slice * slice * WorkerPool) :=
  let '(original, p) := bufferPool_Get p k in
  if size work <? slen original then
    match slice_to original (size work) with
    | Some buffer => Some (original, buffer, p)
    | None => None
    end
  else Some (original, original, p).

(** The body of the worker loop once [work] has been received: [k] is the
    pool's choice of buffer, [c] the choice of the [select] that follows
    [Generate]. *)
Definition worker_process {G} `{GeneratorI G} (p : WorkerPool) (g : G)
    (work : workItem) (k : nat) (c : pick) : step_result G :=
  match worker_acquire p work k with
  | None => Panics
  | Some (original, buffer, p) =>
      let '(g', bytes, err) := Generate g (contents buffer) in
      let array := written_through buffer bytes in
      let buffer := {| backing := array; slen := slen buffer |} in
      let bufferPtr := {| backing := array; slen := slen original |} in
      match err with
      | Some e =>
          let sendReady := len (errorChan p) <? numWorkers p in
          let doneReady := cancelled p in
          match sendReady, doneReady, c with
          | true, false, _ | true, true, First =>
              let p := set_errorChan p (errorChan p ++ [e]) in
              Exits (bufferPool_Put (cancel p) bufferPtr) g'
          | false, true, _ | true, true, Second =>
              Exits (bufferPool_Put (cancel p) bufferPtr) g'
          | false, false, _ => Blocks
          end
      | None =>
          let doneReady := cancelled p in
          let sendReady := len (resultChan p) <? mul64 (numWorkers p) 2 in
          match doneReady, sendReady, c with
          | true, false, _ | true, true, First =>
              Exits (bufferPool_Put p bufferPtr) g'
          | false, true, _ | true, true, Second =>
              let r := {| buffer := buffer; result_offset := offset work |} in
              Loops (set_resultChan p (resultChan p ++ [r])) g'
          | false, false, _ => Blocks
          end
      end
  end.

(** [distributeWork]: the items sent on [workChan], in order.  [stop i]
    says that the [i]-th [select] of the loop takes the [ctx.Done()] case;
    otherwise the send goes through.  [None]: the loop is still running
    after [steps] iterations. *)
Fixpoint distributeWork_loop (steps : nat) (stop : nat -> bool) (i : nat)
    (chunkSize totalSize offset : Z) : option (list workItem) :=
  match steps with
  | O => None
  | S steps' =>
      if offset <? totalSize then
        let size := chunkSize in
        let remaining := sub64 totalSize offset in
        let size := if remaining <? size then remaining else size in
        if stop i then Some []
        else
          match distributeWork_loop steps' stop (S i) chunkSize totalSize
                  (add64 offset size) with
          | Some rest => Some ({| offset := offset; size := size |} :: rest)
          | None => None
          end
      else Some []
  end.

Definition distributeWork (p : WorkerPool) (stop : nat -> bool)
    (totalSize : Z) : option (list workItem) :=
  distributeWork_loop (S (Z.to_nat totalSize)) stop 0 (chunkSize p) totalSize 0.

(** The lifetime is never cancelled. *)
Definition never : nat -> bool := fun _ => false.

(** The pool once [distributeWork] has run to its end, when all its items
    fit in [workChan] (its sends then go through without a receiver); the
    deferred [close] has closed the channel. *)
Definition distributed (p : WorkerPool) (totalSize : Z) : option WorkerPool :=
  match distributeWork p never totalSize with
  | Some items =>
      if len (workChan p ++ items) <=? mul64 (numWorkers p) 2 then
        Some {| numWorkers := numWorkers p; chunkSize := chunkSize p;
                workChan := workChan p ++ items; workClosed := true;
                resultChan := resultChan p; errorChan := errorChan p;
                cancelled := cancelled p; bufferPool := bufferPool p |}
      else None
  | None => None
  end.

(** The bytes of the file an item stands for: [[offset, offset + size)]. *)
Definition covers (w : workItem) (x : Z) : Prop :=
  offset w <= x < offset w + size w.

(** [items] tile [[o, totalSize)]: each item starts where the previous one
    stopped and is as long as the chunk size and the end of the file
    allow. *)
Fixpoint tiles (chunkSize totalSize o : Z) (items : list workItem) : Prop :=
  match items with
  | [] => o = totalSize
  | w :: rest =>
      offset w = o /\ o < totalSize
      /\ size w = Z.min chunkSize (totalSize - o)
      /\ tiles chunkSize totalSize (o + size w) rest
  end.

End Worker.

(* ===================================================================== *)
(** ** internal/writer *)
(* ===================================================================== *)

Module Writer.

(** An open [*os.File]: the bytes on disk and the file position. *)
Record File := { bytes : list Z; position : Z }.

(** What the operating system answers to the [Seek] and to the [Write] of
    one [WriteAt]: an error or not, and the number of bytes taken. *)
Record os_reply := {
  seek_err : option error;
  write_n : Z;
  write_err : option error
}.

(** The system takes the [n] bytes it is given. *)
Definition os_ok (n : Z) : os_reply :=
  {| seek_err := None; write_n := n; write_err := None |}.

Record FileWriter := {
  file : option File;
  written : Z;
  totalSize : Z;
  path : string
}.

Definition set_file (w : FileWriter) (f : option File) : FileWriter :=
  {| file := f; written := written w; totalSize := totalSize w;
     path := path w |}.

(** [file.Seek(offset, io.SeekStart)] *)
Definition File_Seek (f : File) (offset : Z) : File :=
  {| bytes := bytes f; position := offset |}.

(** [file.Write(data)] when the system takes [n] bytes: they replace the
    bytes at the file position; a hole before them reads as zeros. *)
Definition File_Write (f : File) (data : list Z) (n : Z) : File :=
  let k := Z.to_nat n in
  let at_ := Z.to_nat (position f) in
  let old := bytes f ++ replicate (at_ + k - length (bytes f)) 0 in
  {| bytes := take at_ old ++ take k data ++ drop (at_ + k) old;
     position := position f + n |}.

(** [NewFileWriter], [os] being the first failure among the checks and
    system calls it makes (existing file without [force], missing or
    read-only directory, disk space, open, pre-allocation), if any.  A
    pre-allocated file is [size] zero bytes long. *)
Definition NewFileWriter (path : string) (size : Z) (os : option error)
  : option FileWriter * option error :=
  if size <=? 0 then
    (None, Some ("file size must be positive, got " +:+ pretty size))
  else
    match os with
    | Some e => (None, Some e)
    | None =>
        (Some {| file := Some {| bytes := replicate (Z.to_nat size) 0;
                                 position := 0 |};
                 written := 0; totalSize := size; path := path |}, None)
    end.

Definition WriteAt (w : FileWriter) (os : os_reply) (data : list Z)
    (offset : Z) : FileWriter * option error :=
  if len data =? 0 then (w, None) else
  match file w with
  | None => (w, Some "file writer is closed"%string)
  | Some f =>
      if offset <? 0 then
        (w, Some ("offset cannot be negative: " +:+ pretty offset))
      else if totalSize w <? add64 offset (len data) then
        (w, Some ("write would exceed file size: offset=" +:+ pretty offset
                  +:+ ", len=" +:+ pretty (len data)
                  +:+ ", total=" +:+ pretty (totalSize w)))
      else
        match seek_err os with
        | Some e =>
            (w, Some ("failed to seek to position " +:+ pretty offset
                      +:+ ": " +:+ e))
        | None =>
            let f := File_Seek f offset in
            let n := write_n os in
            let w := set_file w (Some (File_Write f data n)) in
            match write_err os with
            | Some e =>
                (w, Some ("failed to write data at offset " +:+ pretty offset
                          +:+ ": " +:+ e))
            | None =>
                if negb (n =? len data) then
                  (w, Some ("short write: wrote " +:+ pretty n
                            +:+ " bytes out of " +:+ pretty (len data)))
                else
                  ({| file := file w; written := add64 (written w) n;
                      totalSize := totalSize w; path := path w |}, None)
            end
        end
  end.

(** [Close], with what [Sync] and the file's own [Close] answer. *)
Definition Close (w : FileWriter) (sync_err close_err : option error)
  : FileWriter * option error :=
  match file w with
  | None => (w, None)
  | Some _ =>
      match sync_err with
      | Some e => (set_file w None, Some ("failed to sync file: " +:+ e))
      | None => (set_file w None, close_err)
      end
  end.

Definition Written (w : FileWriter) : Z := written w.
Definition TotalSize (w : FileWriter) : Z := totalSize w.
Definition Path (w : FileWriter) : string := path w.

(** One call of [WriteAt] together with the system's answer to it. *)
Record call := { reply : os_reply; data : list Z; at_offset : Z }.

Definition do_call (w : FileWriter) (c : call) : FileWriter * option error :=
  WriteAt w (reply c) (data c) (at_offset c).

(** The writer after a sequence of calls, whatever they returned. *)
Definition run (w : FileWriter) (calls : list call) : FileWriter :=
  fold_left (fun w c => (do_call w c).1) calls w.

(** The byte range [[offset, offset + len)] of a call. *)
Definition in_range (c : call) (x : Z) : Prop :=
  at_offset c <= x < at_offset c + len (data c).

Definition disjoint (c1 c2 : call) : Prop :=
  forall x, ~ (in_range c1 x /\ in_range c2 x).

Fixpoint pairwise_disjoint (calls : list call) : Prop :=
  match calls with
  | [] => True
  | c :: rest => Forall (disjoint c) rest /\ pairwise_disjoint rest
  end.

Definition inside (total : Z) (c : call) : Prop :=
  0 <= at_offset c /\ at_offset c + len (data c) <= total.

(** The sum of the data lengths of a sequence of calls. *)
Fixpoint total_len (calls : list call) : Z :=
  match calls with
  | [] => 0
  | c :: rest => len (data c) + total_len rest
  end.

(** The bytes on disk as long as the writer is open. *)
Definition disk (w : FileWriter) : list Z :=
  match file w with
  | Some f => bytes f
  | None => []
  end.

(** A call to which the system answers by taking every byte. *)
Definition served (c : call) : Prop := reply c = os_ok (len (data c)).

(** [tryFallocate]: no platform-specific allocation is attempted. *)
Definition tryFallocate (f : File) (size : Z) : option error :=
  Some "using portable allocation method"%string.

(** [preAllocateFile], with what the system answers to the [Seek] to the
    last byte, to the [Write] of one zero byte and to the [Seek] back to
    the start. *)
Definition preAllocateFile (f : File) (size : Z)
    (seek_end write_last seek_start : option error) : File * option error :=
  match tryFallocate f size with
  | None => (f, None)
  | Some _ =>
      match seek_end with
      | Some e => (f, Some ("failed to seek to end of file: " +:+ e))
      | None =>
          let f := File_Seek f (sub64 size 1) in
          match write_last with
          | Some e => (f, Some ("failed to write last byte: " +:+ e))
          | None =>
              let f := File_Write f [0] 1 in
              match seek_start with
              | Some e =>
                  (f, Some ("failed to seek back to start: " +:+ e))
              | None => (File_Seek f 0, None)
              end
          end
      end
  end.

End Writer.

(* ===================================================================== *)
(** ** internal/signal *)
(* ===================================================================== *)

Module Signal.

(** The two places where the handler prints a floating-point number with
    [%.2f]: a percentage of completion and a byte count in a unit. *)
Class FloatFormat : Type := {
  percent2 : Z -> Z -> string;   (* written, total *)
  fixed2 : Z -> Z -> string      (* bytes, bytes per unit *)
}.

(** A cleanup function acts on the rest of the program, of type [E]. *)
Definition CleanupFunc (E : Type) : Type := E -> E * option error.

(** [sync.Once]: the [done] flag and whether its mutex is held. *)
Record Once := { done : bool; locked : bool }.

(** The handler, the world [E] its cleanup functions and pointers reach
    ([writer] and [progress] are pointers: the way to their target in the
    world), and two ghost fields: the cleanup functions called so far, by
    registration index, and the number of times the function given to
    [shutdownOnce.Do] has run. *)
Record ShutdownHandler (E : Type) := {
  cancelled : bool;
  cleanupFns : list (CleanupFunc E);
  writer : option (E -> Writer.FileWriter);
  progress : option (E -> E);
  output : list string;
  shutdownOnce : Once;
  isShutdown : bool;
  world : E;
  invoked : list nat;
  fired : nat
}.

Arguments cancelled {E} _.
Arguments cleanupFns {E} _.
Arguments writer {E} _.
Arguments progress {E} _.
Arguments output {E} _.
Arguments shutdownOnce {E} _.
Arguments isShutdown {E} _.
Arguments world {E} _.
Arguments invoked {E} _.
Arguments fired {E} _.

Section Handler.

Context {E : Type} `{FloatFormat}.

Definition NewShutdownHandler (e : E) : ShutdownHandler E :=
  {| cancelled := false; cleanupFns := []; writer := None; progress := None;
     output := []; shutdownOnce := {| done := false; locked := false |};
     isShutdown := false; world := e; invoked := []; fired := 0 |}.

Definition RegisterCleanupFunc (h : ShutdownHandler E) (fn : CleanupFunc E)
  : ShutdownHandler E :=
  {| cancelled := cancelled h; cleanupFns := cleanupFns h ++ [fn];
     writer := writer h; progress := progress h; output := output h;
     shutdownOnce := shutdownOnce h; isShutdown := isShutdown h;
     world := world h; invoked := invoked h;
     fired := fired h |}.

Definition SetWriter (h : ShutdownHandler E) (w : E -> Writer.FileWriter)
  : ShutdownHandler E :=
  {| cancelled := cancelled h; cleanupFns := cleanupFns h;
     writer := Some w; progress := progress h; output := output h;
     shutdownOnce := shutdownOnce h; isShutdown := isShutdown h;
     world := world h; invoked := invoked h;
     fired := fired h |}.

Definition SetProgressReporter (h : ShutdownHandler E) (stop : E -> E)
  : ShutdownHandler E :=
  {| cancelled := cancelled h; cleanupFns := cleanupFns h;
     writer := writer h; progress := Some stop; output := output h;
     shutdownOnce := shutdownOnce h; isShutdown := isShutdown h;
     world := world h; invoked := invoked h;
     fired := fired h |}.

Definition print (h : ShutdownHandler E) (lines : list string)
  : ShutdownHandler E :=
  {| cancelled := cancelled h; cleanupFns := cleanupFns h;
     writer := writer h; progress := progress h;
     output := output h ++ lines;
     shutdownOnce := shutdownOnce h; isShutdown := isShutdown h;
     world := world h; invoked := invoked h;
     fired := fired h |}.

Definition set_world (h : ShutdownHandler E) (e : E) : ShutdownHandler E :=
  {| cancelled := cancelled h; cleanupFns := cleanupFns h;
     writer := writer h; progress := progress h; output := output h;
     shutdownOnce := shutdownOnce h; isShutdown := isShutdown h;
     world := e; invoked := invoked h;
     fired := fired h |}.

Definition set_once (h : ShutdownHandler E) (o : Once) : ShutdownHandler E :=
  {| cancelled := cancelled h; cleanupFns := cleanupFns h;
     writer := writer h; progress := progress h; output := output h;
     shutdownOnce := o; isShutdown := isShutdown h;
     world := world h; invoked := invoked h;
     fired := fired h |}.

Definition formatBytes (bytes : Z) : string :=
  if bytes =? 0 then "0 B"
  else if Z.shiftl 1 40 <=? bytes then fixed2 bytes (Z.shiftl 1 40) +:+ " TB"
  else if Z.shiftl 1 30 <=? bytes then fixed2 bytes (Z.shiftl 1 30) +:+ " GB"
  else if Z.shiftl 1 20 <=? bytes then fixed2 bytes (Z.shiftl 1 20) +:+ " MB"
  else if Z.shiftl 1 10 <=? bytes then fixed2 bytes (Z.shiftl 1 10) +:+ " KB"
  else pretty bytes +:+ " B".

Definition reportPartialProgress (h : ShutdownHandler E)
    (w : Writer.FileWriter) : ShutdownHandler E :=
  let written := Writer.Written w in
  let total := Writer.TotalSize w in
  if 0 <? total then
    let h := print h
      [ "Operation interrupted at " +:+ percent2 written total
          +:+ "% completion" +:+ nl;
        "Written: " +:+ formatBytes written +:+ " / " +:+ formatBytes total
          +:+ nl ] in
    if 0 <? written
    then print h ["Partial file saved to: " +:+ Writer.Path w +:+ nl]
    else h
  else print h ["Operation interrupted before any data was written" +:+ nl].

(** [h.cleanupFns[i]()] and the warning that follows a failure. *)
Definition call_cleanup (h : ShutdownHandler E) (i : nat)
  : ShutdownHandler E :=
  match cleanupFns h !! i with
  | None => h
  | Some fn =>
      let '(e, err) := fn (world h) in
      let h :=
        {| cancelled := cancelled h; cleanupFns := cleanupFns h;
           writer := writer h; progress := progress h; output := output h;
           shutdownOnce := shutdownOnce h; isShutdown := isShutdown h;
           world := e; invoked := invoked h ++ [i];
           fired := fired h |} in
      match err with
      | Some msg => print h ["Warning: cleanup error: " +:+ msg +:+ nl]
      | None => h
      end
  end.

(** [for i := len(h.cleanupFns) - 1; i >= 0; i--], with [n = i + 1]. *)
Fixpoint cleanup_loop (n : nat) (h : ShutdownHandler E) : ShutdownHandler E :=
  match n with
  | O => h
  | S i => cleanup_loop i (call_cleanup h i)
  end.

(** The first half of [performCleanup]: stop the progress reporter, then
    report the partial progress when a writer is registered. *)
Definition stop_and_report (h : ShutdownHandler E) : ShutdownHandler E :=
  let h :=
    match progress h with
    | Some stop => set_world h (stop (world h))
    | None => h
    end in
  match writer h with
  | Some w => reportPartialProgress h (w (world h))
  | None => h
  end.

Definition performCleanup (h : ShutdownHandler E) : ShutdownHandler E :=
  let h := stop_and_report h in
  if 0 <? len (cleanupFns h) then
    let h := print h ["Cleaning up resources..." +:+ nl] in
    let h := cleanup_loop (length (cleanupFns h)) h in
    print h ["Cleanup completed." +:+ nl]
  else h.

(** The function handed to [shutdownOnce.Do]. *)
Definition shutdown (h : ShutdownHandler E) : ShutdownHandler E :=
  let h :=
    {| cancelled := true; cleanupFns := cleanupFns h;
       writer := writer h; progress := progress h; output := output h;
       shutdownOnce := shutdownOnce h; isShutdown := true;
       world := world h; invoked := invoked h;
       fired := S (fired h) |} in
  performCleanup h.

(** [initiateShutdown] when no other goroutine is inside [Do]. *)
Definition initiateShutdown (h : ShutdownHandler E) : ShutdownHandler E :=
  if done (shutdownOnce h) then h
  else
    let h := shutdown h in
    set_once h {| done := true; locked := locked (shutdownOnce h) |}.

Definition Stop (h : ShutdownHandler E) : ShutdownHandler E :=
  initiateShutdown h.

(** *** Concurrent callers of [Stop]

    [sync.Once.Do] reads [done]; when it is unset it takes the mutex, reads
    [done] again, runs the function, sets [done] and releases the mutex.
    Each goroutine is at one of these points. *)
Inductive pc :=
| Calling     (* about to read [done] *)
| Locking     (* about to take the mutex *)
| Checking    (* holds the mutex, about to read [done] again *)
| Storing     (* has run the function, about to set [done] *)
| Unlocking   (* about to release the mutex *)
| Returned.   (* [Stop] has returned *)

Record system := { handler : ShutdownHandler E; callers : list pc }.

Definition move (s : system) (t : nat) (h : ShutdownHandler E) (next : pc)
  : option system :=
  Some {| handler := h; callers := <[t := next]> (callers s) |}.

(** One step of goroutine [t]; [None] when it cannot move (it waits for the
    mutex, or it has returned, or there is no such goroutine). *)
Definition step (s : system) (t : nat) : option system :=
  let h := handler s in
  let o := shutdownOnce h in
  match callers s !! t with
  | Some Calling =>
      if done o then move s t h Returned else move s t h Locking
  | Some Locking =>
      if locked o then None
      else move s t (set_once h {| done := done o; locked := true |}) Checking
  | Some Checking =>
      if done o then move s t h Unlocking
      else move s t (shutdown h) Storing
  | Some Storing =>
      move s t (set_once h {| done := true; locked := locked o |}) Unlocking
  | Some Unlocking =>
      move s t (set_once h {| done := done o; locked := false |}) Returned
  | Some Returned | None => None
  end.

(** A schedule names the goroutine that moves next; a goroutine that cannot
    move leaves the system as it is. *)
Fixpoint exec (schedule : list nat) (s : system) : system :=
  match schedule with
  | [] => s
  | t :: rest =>
      match step s t with
      | Some s' => exec rest s'
      | None => exec rest s
      end
  end.

(** [n] goroutines about to call [Stop]. *)
Definition start (h : ShutdownHandler E) (n : nat) : system :=
  {| handler := h; callers := replicate n Calling |}.

(** What a shutdown leaves behind, the state of [shutdownOnce] apart. *)
Definition effects (h : ShutdownHandler E)
  : bool * bool * E * list string * list nat * nat :=
  (cancelled h, isShutdown h, world h, output h, invoked h, fired h).

(** What the cleanup functions leave alone. *)
Definition frame (h : ShutdownHandler E) : bool * bool * nat * Once :=
  (cancelled h, isShutdown h, fired h, shutdownOnce h).

(** Cleanup functions called one after the other in the order of the
    list: the world they leave and the warnings printed for those that
    failed. *)
Definition warning (err : option error) : list string :=
  match err with
  | Some msg => ["Warning: cleanup error: " +:+ msg +:+ nl]
  | None => []
  end.

Definition cleanup_next (acc : E * list string) (fn : CleanupFunc E)
  : E * list string :=
  let '(e, err) := fn acc.1 in (e, acc.2 ++ warning err).

Definition cleanup_in_order (fns : list (CleanupFunc E)) (e : E)
  : E * list string :=
  fold_left cleanup_next fns (e, []).

(** Where the callers of [Stop] can be, all together, when they started
    from the handler [h0]. *)
Definition waiting (p : pc) : Prop := p = Calling \/ p = Locking.
Definition outside (p : pc) : Prop := waiting p \/ p = Returned.

(** How far a caller has got, and how far they all have. *)
Definition rank (p : pc) : nat :=
  match p with
  | Calling => 0
  | Locking => 1
  | Checking => 2
  | Storing => 3
  | Unlocking => 4
  | Returned => 5
  end.

Fixpoint total_rank (cs : list pc) : nat :=
  match cs with
  | [] => 0
  | p :: rest => rank p + total_rank rest
  end.

Inductive mode (h0 : ShutdownHandler E) : system -> Prop :=
| Idle cs :
    Forall waiting cs ->
    mode h0 {| handler := set_once h0 {| done := false; locked := false |};
               callers := cs |}
| Held (t : nat) cs :
    cs !! t = Some Checking ->
    (forall t' p, t' <> t -> cs !! t' = Some p -> waiting p) ->
    mode h0 {| handler := set_once h0 {| done := false; locked := true |};
               callers := cs |}
| Ran (t : nat) cs :
    cs !! t = Some Storing ->
    (forall t' p, t' <> t -> cs !! t' = Some p -> waiting p) ->
    mode h0 {| handler := set_once (shutdown h0)
                            {| done := false; locked := true |};
               callers := cs |}
| DoneHeld (t : nat) cs p :
    cs !! t = Some p -> p = Checking \/ p = Unlocking ->
    (forall t' p', t' <> t -> cs !! t' = Some p' -> outside p') ->
    mode h0 {| handler := set_once (shutdown h0)
                            {| done := true; locked := true |};
               callers := cs |}
| DoneFree cs :
    Forall outside cs ->
    mode h0 {| handler := set_once (shutdown h0)
                            {| done := true; locked := false |};
               callers := cs |}.

(** *** The signal loop

    What wakes [signalLoop]: a signal (as [%v] prints it) on [sigChan],
    or the end of the handler's context. *)
Inductive wakeup :=
| Signalled (sig : string)
| ContextDone.

Definition signalLoop (h : ShutdownHandler E) (w : wakeup)
  : ShutdownHandler E :=
  match w with
  | Signalled sig =>
      let h := print h [nl +:+ "Received signal " +:+ sig
                          +:+ ", shutting down gracefully..." +:+ nl] in
      initiateShutdown h
  | ContextDone => initiateShutdown h
  end.

Definition IsShutdown (h : ShutdownHandler E) : bool := isShutdown h.

End Handler.

Arguments system : clear implicits.

(** A [FloatFormat] that drops the decimals, to run examples with. *)
Definition WholeNumbers : FloatFormat :=
  {| percent2 := fun written total => pretty (written * 100 / total);
     fixed2 := fun bytes unit => pretty (bytes / unit) |}.

(** The cleanup function of [TestRegisterCleanupFunc]: it appends its
    [id] to [callOrder]; with [err] it also fails. *)
Definition record_call (id : nat) (err : option error)
  : CleanupFunc (list nat) :=
  fun callOrder => (callOrder ++ [id], err).

End Signal.

(* ===================================================================== *)
(** ** internal/checksum *)
(* ===================================================================== *)

Module Checksum.

(** Modelled from the spec: the incremental hash context of the
    ChecksumState ("an incremental hash context seeded at run start"); the
    package [internal/checksum] and the hash it wraps are not in the
    sources at hand.  [hash_write] is [hash.Hash.Write], [hash_sum] the
    digest of what was written. *)
Class StreamingHash (St : Type) : Type := {
  hash_init : St;
  hash_write : St -> list Z -> St;
  hash_sum : St -> list Z
}.

(** Modelled from the spec: the [ChecksumGenerator] of [internal/checksum],
    missing from the sources, after policy (b) of section 4.4: "buffer
    out-of-order arrivals until the next expected offset is available
    before folding into a single running hash".  [nextOffset] is the next
    expected offset, [pending] the chunks that arrived ahead of it. *)
Record ChecksumGenerator (St : Type) := {
  hasher : St;
  nextOffset : Z;
  pending : gmap Z (list Z)
}.

Arguments hasher {St} _.
Arguments nextOffset {St} _.
Arguments pending {St} _.

(** The generated chunks of a run, in offset order: each starts where the
    previous one stopped and none is empty. *)
Fixpoint consecutive (o : Z) (chunks : list (Z * list Z)) : Prop :=
  match chunks with
  | [] => True
  | c :: rest => c.1 = o /\ 0 < len c.2 /\ consecutive (o + len c.2) rest
  end.

(** The bytes of the file, in offset order. *)
Definition file_bytes (chunks : list (Z * list Z)) : list Z :=
  concat (snd <$> chunks).

Section Generator.

Context {St : Type} `{StreamingHash St}.

(** Modelled from the spec: [NewChecksumGenerator], missing from the
    sources; the context is "seeded at run start" and the first expected
    offset is 0. *)
Definition NewChecksumGenerator : ChecksumGenerator St :=
  {| hasher := hash_init; nextOffset := 0; pending := ∅ |}.

(** Modelled from the spec: the folding loop of policy (b), missing from
    the sources: as long as the chunk at the next expected offset has
    arrived, fold it into the running hash and move on. *)
Fixpoint fold_ready (steps : nat) (g : ChecksumGenerator St)
  : ChecksumGenerator St :=
  match steps with
  | O => g
  | S steps' =>
      match pending g !! nextOffset g with
      | None => g
      | Some chunk =>
          fold_ready steps'
            {| hasher := hash_write (hasher g) chunk;
               nextOffset := add64 (nextOffset g) (len chunk);
               pending := delete (nextOffset g) (pending g) |}
      end
  end.

(** Modelled from the spec: [UpdateWithChunk(buffer, offset)], missing from
    the sources ("fold the buffer's bytes into the running checksum keyed
    by offset").  Every turn of the loop removes a pending chunk, so
    [size pending] turns are enough. *)
Definition UpdateWithChunk (g : ChecksumGenerator St) (chunk : list Z)
    (offset : Z) : ChecksumGenerator St * option error :=
  let g := {| hasher := hasher g; nextOffset := nextOffset g;
              pending := <[offset := chunk]> (pending g) |} in
  (fold_ready (size (pending g)) g, None).

(** Modelled from the spec: the finalized checksum, "a finalized checksum
    value once the run completes successfully". *)
Definition Finalize (g : ChecksumGenerator St) : list Z :=
  hash_sum (hasher g).

(** The generator after the chunks [(offset, bytes)] have been handed to
    it one by one. *)
Definition feed (g : ChecksumGenerator St) (arrivals : list (Z * list Z))
  : ChecksumGenerator St :=
  fold_left (fun g a => (UpdateWithChunk g a.2 a.1).1) arrivals g.

(** The hash context after the chunks have been written to it in the order
    of the list, and its digest.  On the chunks in offset order this is the
    digest of the file; on the chunks in arrival order it is the policy the
    specification rules out. *)
Definition written_in_order (order : list (Z * list Z)) : St :=
  fold_left (fun s c => hash_write s c.2) order hash_init.

Definition running_hash (order : list (Z * list Z)) : list Z :=
  hash_sum (written_in_order order).

(** Where the generator stands in a run over [chunks]: it has folded the
    chunks [pre] and keeps some of the chunks [suf] that follow; [rest] are
    the chunks of [suf] still to arrive. *)
Definition folded (chunks : list (Z * list Z)) (g : ChecksumGenerator St)
    (rest pre suf : list (Z * list Z)) : Prop :=
  chunks = pre ++ suf
  /\ nextOffset g = len (file_bytes pre)
  /\ hasher g = written_in_order pre
  /\ rest ++ map_to_list (pending g) ≡ₚ suf.

End Generator.

(** A small hash that tells orders apart, to run examples with. *)
Definition poly_write (s : Z) (chunk : list Z) : Z :=
  fold_left (fun h b => (h * 31 + b) mod 2 ^ 32) chunk s.

Definition PolyHash : StreamingHash Z :=
  {| hash_init := 7; hash_write := poly_write; hash_sum := fun s => [s] |}.

End Checksum.

(* ===================================================================== *)
(** ** cmd: the result sink of [runTrasher] *)
(* ===================================================================== *)

Module Cmd.

(** What the result loop works on: the file writer, the checksum, the
    [writtenBytes] counter, the worker pool, and whether it has called
    [shutdownHandler.Stop]. *)
Record sink (St : Type) := {
  fileWriter : Writer.FileWriter;
  checksumGen : Checksum.ChecksumGenerator St;
  writtenBytes : Z;
  workerPool : Worker.WorkerPool;
  stopped : bool
}.

Arguments fileWriter {St} _.
Arguments checksumGen {St} _.
Arguments writtenBytes {St} _.
Arguments workerPool {St} _.
Arguments stopped {St} _.

Section Sink.

Context {St : Type} `{Checksum.StreamingHash St}.

(** The body of the loop for one received result; an error is what makes
    the loop return. *)
Definition sink_step (s : sink St) (os : Writer.os_reply)
    (result : Worker.resultItem) : sink St * option error :=
  let data := Worker.contents (Worker.buffer result) in
  let offset := Worker.result_offset result in
  match Checksum.UpdateWithChunk (checksumGen s) data offset with
  | (c, Some e) =>
      ({| fileWriter := fileWriter s; checksumGen := c;
          writtenBytes := writtenBytes s;
          workerPool :=
            Worker.ReturnBuffer (workerPool s) (Worker.buffer result);
          stopped := true |}, Some e)
  | (c, None) =>
      match Writer.WriteAt (fileWriter s) os data offset with
      | (w, Some e) =>
          ({| fileWriter := w; checksumGen := c;
              writtenBytes := writtenBytes s;
              workerPool :=
                Worker.ReturnBuffer (workerPool s) (Worker.buffer result);
              stopped := true |}, Some e)
      | (w, None) =>
          ({| fileWriter := w; checksumGen := c;
              writtenBytes := add64 (writtenBytes s) (len data);
              workerPool :=
                Worker.ReturnBuffer (workerPool s) (Worker.buffer result);
              stopped := stopped s |}, None)
      end
  end.

(** The loop over the results in the order they arrive, each with the
    system's answer to its write, up to the first error. *)
Fixpoint sink_run (s : sink St)
    (arrivals : list (Writer.os_reply * Worker.resultItem))
  : sink St * option error :=
  match arrivals with
  | [] => (s, None)
  | (os, result) :: rest =>
      match sink_step s os result with
      | (s', Some e) => (s', Some e)
      | (s', None) => sink_run s' rest
      end
  end.

(** The chunk a result carries: its offset and its bytes. *)
Definition chunk_of (a : Writer.os_reply * Worker.resultItem)
  : Z * list Z :=
  (Worker.result_offset a.2, Worker.contents (Worker.buffer a.2)).

Definition set_workerPool (s : sink St) (p : Worker.WorkerPool) : sink St :=
  {| fileWriter := fileWriter s; checksumGen := checksumGen s;
     writtenBytes := writtenBytes s; workerPool := p;
     stopped := stopped s |}.

End Sink.

(** *** The goroutines together

    The workers started by [Start] and the result loop of [runTrasher],
    moved one at a time by a schedule. *)

(** Where a worker is: at the head of its loop, in the loop body with the
    item it received, or gone. *)
Inductive worker_at :=
| AtHead
| Holding (work : Worker.workItem)
| Gone.

Inductive event :=
| Receive (worker : nat) (c : Worker.pick)
    (* the worker's [select] at the head of the loop *)
| Process (worker : nat) (k : nat) (c : Worker.pick)
    (* the worker's loop body, from [Get] to the second [select] *)
| Consume (os : Writer.os_reply).
    (* the result loop receives a result and handles it *)

Record pipeline (G St : Type) := {
  sinkState : sink St;
  generator : G;
  workers : list worker_at
}.

Arguments sinkState {G St} _.
Arguments generator {G St} _.
Arguments workers {G St} _.

Section Pipeline.

Context {G St : Type} `{Generator.GeneratorI G} `{Checksum.StreamingHash St}.

(** One event; [None] when the goroutine cannot make that move. *)
Definition pipeline_step (pl : pipeline G St) (ev : event)
  : option (pipeline G St) :=
  let s := sinkState pl in
  let p := workerPool s in
  match ev with
  | Receive t c =>
      match workers pl !! t with
      | Some AtHead =>
          match Worker.worker_receive p c with
          | Worker.Work work p' =>
              Some {| sinkState := set_workerPool s p';
                      generator := generator pl;
                      workers := <[t := Holding work]> (workers pl) |}
          | Worker.Leaves =>
              Some {| sinkState := s; generator := generator pl;
                      workers := <[t := Gone]> (workers pl) |}
          | Worker.Waits => None
          end
      | _ => None
      end
  | Process t k c =>
      match workers pl !! t with
      | Some (Holding work) =>
          match Worker.worker_process p (generator pl) work k c with
          | Worker.Loops p' g' =>
              Some {| sinkState := set_workerPool s p'; generator := g';
                      workers := <[t := AtHead]> (workers pl) |}
          | Worker.Exits p' g' =>
              Some {| sinkState := set_workerPool s p'; generator := g';
                      workers := <[t := Gone]> (workers pl) |}
          | Worker.Blocks | Worker.Panics => None
          end
      | _ => None
      end
  | Consume os =>
      match Worker.resultChan p with
      | result :: rest =>
          let s := set_workerPool s (Worker.set_resultChan p rest) in
          Some {| sinkState := (sink_step s os result).1;
                  generator := generator pl; workers := workers pl |}
      | [] => None
      end
  end.

Fixpoint pipeline_run (events : list event) (pl : pipeline G St)
  : option (pipeline G St) :=
  match events with
  | [] => Some pl
  | ev :: rest =>
      match pipeline_step pl ev with
      | Some pl' => pipeline_run rest pl'
      | None => None
      end
  end.

End Pipeline.

(** A run of 21 bytes in chunks of 8 with two workers and the Sequential
    generator: the dispatcher has queued its three items. *)
Definition short_chunk_start
  : option (pipeline Generator.SequentialGenerator Z) :=
  match Worker.distributed (Worker.NewWorkerPool 8 2 8) 21 with
  | Some p =>
      Some {| sinkState :=
                {| fileWriter :=
                     {| Writer.file :=
                          Some {| Writer.bytes := replicate 21 0;
                                  Writer.position := 0 |};
                        Writer.written := 0; Writer.totalSize := 21;
                        Writer.path := "out.dat" |};
                   checksumGen :=
                     Checksum.NewChecksumGenerator (H := Checksum.PolyHash);
                   writtenBytes := 0; workerPool := p; stopped := false |};
              generator := {| Generator.counter := 1 |};
              workers := [AtHead; AtHead] |}
  | None => None
  end.

(** Worker 0 handles the first item and the sink releases its buffer.
    Worker 0 then receives the second item and is descheduled before
    [Get]; worker 1 receives the short last item, takes the buffer out of
    the pool, cuts it to 5 bytes and publishes; the sink writes it and
    releases it; worker 0 resumes and takes that buffer out of the pool. *)
Definition short_chunk_schedule : list event :=
  [ Receive 0 Worker.First; Process 0 0 Worker.First;
    Consume (Writer.os_ok 8);
    Receive 0 Worker.First;
    Receive 1 Worker.First; Process 1 0 Worker.First;
    Consume (Writer.os_ok 5);
    Process 0 0 Worker.First;
    Consume (Writer.os_ok 5);
    Receive 0 Worker.First; Receive 1 Worker.First ].

(** The same run with every item handled in dispatch order. *)
Definition in_order_schedule : list event :=
  [ Receive 0 Worker.First; Process 0 0 Worker.First;
    Consume (Writer.os_ok 8);
    Receive 0 Worker.First; Process 0 0 Worker.First;
    Consume (Writer.os_ok 8);
    Receive 1 Worker.First; Process 1 0 Worker.First;
    Consume (Writer.os_ok 5);
    Receive 0 Worker.First; Receive 1 Worker.First ].

(** [TestWorkerPoolErrorHandling]: two workers, a generator that always
    fails, two items of 4 bytes. *)
Definition failing_start
  : option (pipeline Generator.FailingGenerator Z) :=
  match Worker.distributed (Worker.NewWorkerPool 8 2 4) 8 with
  | Some p =>
      Some {| sinkState :=
                {| fileWriter :=
                     {| Writer.file :=
                          Some {| Writer.bytes := replicate 8 0;
                                  Writer.position := 0 |};
                        Writer.written := 0; Writer.totalSize := 8;
                        Writer.path := "out.dat" |};
                   checksumGen :=
                     Checksum.NewChecksumGenerator (H := Checksum.PolyHash);
                   writtenBytes := 0; workerPool := p; stopped := false |};
              generator := Generator.failingGen;
              workers := [AtHead; AtHead] |}
  | None => None
  end.

(** Both workers receive an item; the first to fail publishes its error
    and cancels; the [select] of the second takes [ctx.Done()]. *)
Definition failing_schedule : list event :=
  [ Receive 0 Worker.First; Receive 1 Worker.First;
    Process 0 0 Worker.First; Process 1 0 Worker.Second ].

(** *** Runs without a short chunk

    Every item, every buffer and every result of the pipeline is [C] bytes
    long, [C] being the chunk size of the pool. *)
Definition full_item (C : Z) (w : Worker.workItem) : Prop :=
  Worker.size w = C.

Definition full_result (C : Z) (r : Worker.resultItem) : Prop :=
  Worker.slen (Worker.buffer r) = C /\ Worker.slice_ok (Worker.buffer r).

Definition holds_full (C : Z) (w : worker_at) : Prop :=
  match w with
  | Holding work => full_item C work
  | AtHead | Gone => True
  end.

Definition pipeline_full {G St : Type} (C : Z) (pl : pipeline G St) : Prop :=
  let p := workerPool (sinkState pl) in
  Worker.chunkSize p = C /\ 0 < C
  /\ Worker.pool_full p /\ Worker.pool_valid p
  /\ Forall (full_item C) (Worker.workChan p)
  /\ Forall (full_result C) (Worker.resultChan p)
  /\ Forall (holds_full C) (workers pl).

(** A run of 16 bytes in chunks of 8 with two workers and the Sequential
    generator: the dispatcher has queued its two items and closed the
    channel. *)
Definition even_pool : Worker.WorkerPool :=
  {| Worker.numWorkers := 2; Worker.chunkSize := 8;
     Worker.workChan := [ {| Worker.offset := 0; Worker.size := 8 |};
                          {| Worker.offset := 8; Worker.size := 8 |} ];
     Worker.workClosed := true;
     Worker.resultChan := []; Worker.errorChan := [];
     Worker.cancelled := false; Worker.bufferPool := [] |}.

Definition even_start : pipeline Generator.SequentialGenerator Z :=
  {| sinkState :=
       {| fileWriter :=
            {| Writer.file :=
                 Some {| Writer.bytes := replicate 16 0;
                         Writer.position := 0 |};
               Writer.written := 0; Writer.totalSize := 16;
               Writer.path := "out.dat" |};
          checksumGen :=
            Checksum.NewChecksumGenerator (H := Checksum.PolyHash);
          writtenBytes := 0; workerPool := even_pool; stopped := false |};
     generator := {| Generator.counter := 1 |};
     workers := [AtHead; AtHead] |}.

(** Both workers take an item; the second one publishes first and its
    buffer is reused by the first. *)
Definition even_schedule : list event :=
  [ Receive 0 Worker.First; Receive 1 Worker.First;
    Process 1 0 Worker.First; Consume (Writer.os_ok 8);
    Process 0 0 Worker.First; Consume (Writer.os_ok 8);
    Receive 0 Worker.First; Receive 1 Worker.First ].

(** *** The writes of the result loop

    The [WriteAt] call the loop makes for a received result, and the call
    that writes a chunk when the system takes every byte of it. *)
Definition call_of (a : Writer.os_reply * Worker.resultItem) : Writer.call :=
  {| Writer.reply := a.1;
     Writer.data := Worker.contents (Worker.buffer a.2);
     Writer.at_offset := Worker.result_offset a.2 |}.

Definition call_at (c : Z * list Z) : Writer.call :=
  {| Writer.reply := Writer.os_ok (len c.2);
     Writer.data := c.2;
     Writer.at_offset := c.1 |}.

(** *** A run with a short last chunk

    10 KB in chunks of 4 KB with the Zero pattern and two workers (sizes
    that [ValidateAll] lets through): the file writer has pre-sized the
    file, the dispatcher has queued its three items of 4096, 4096 and 2048
    bytes and closed the channel. *)
Definition ten_kib_start : option (pipeline unit Z) :=
  match Worker.distributed (Worker.NewWorkerPool 8 2 4096) 10240 with
  | Some p =>
      Some {| sinkState :=
                {| fileWriter :=
                     {| Writer.file :=
                          Some {| Writer.bytes := replicate (Z.to_nat 10240) 0;
                                  Writer.position := 0 |};
                        Writer.written := 0; Writer.totalSize := 10240;
                        Writer.path := "out.dat" |};
                   checksumGen :=
                     Checksum.NewChecksumGenerator (H := Checksum.PolyHash);
                   writtenBytes := 0; workerPool := p; stopped := false |};
              generator := tt;
              workers := [AtHead; AtHead] |}
  | None => None
  end.

(** Worker 0 handles the first item and the result loop releases its
    buffer.  Worker 0 then receives the second item and is descheduled
    before [Get]; worker 1 receives the short last item, takes the buffer
    out of the pool, cuts it to 2048 bytes and publishes; the result loop
    writes it and releases it; worker 0 resumes, [Get] hands it that
    buffer, and the second item is published with 2048 bytes.  Both
    workers then find the work channel closed and empty. *)
Definition ten_kib_schedule : list event :=
  [ Receive 0 Worker.First; Process 0 0 Worker.First;
    Consume (Writer.os_ok 4096);
    Receive 0 Worker.First;
    Receive 1 Worker.First; Process 1 0 Worker.First;
    Consume (Writer.os_ok 2048);
    Process 0 0 Worker.First;
    Consume (Writer.os_ok 2048);
    Receive 0 Worker.First; Receive 1 Worker.First ].

End Cmd.

(* ===================================================================== *)
(** ** internal/progress *)
(* ===================================================================== *)

Module Progress.

(** The floating-point arithmetic of the package is not modelled:
    [bar_cells width percent] stands for the Go expression
    [int(float64(width) * percent / 100.0)], whatever the [float64]
    [percent] is (a NaN or an infinity included), and [seconds0 d] for
    [d.Seconds()] printed with [%.0f]. *)
Class Float64 (F : Type) : Type := {
  bar_cells : Z -> F -> Z;
  seconds0 : Z -> string
}.

(** [strings.Repeat(s, count)]; a negative [count] panics.  The other
    panic of [Repeat], a result longer than an [int], cannot occur with
    the one-byte strings it is called on here; memory is taken to be
    there. *)
Definition Repeat (s : string) (count : Z) : option string :=
  if count <? 0 then None
  else Some (Nat.iter (Z.to_nat count) (String.append s) EmptyString).

Section Reporter.

Context {F : Type} `{Float64 F}.

(** [formatProgressBar]; [None] is a panic. *)
Definition formatProgressBar (percent : F) (width : Z) : option string :=
  let completed := bar_cells width percent in
  let completed := if width <? completed then width else completed in
  let completed := if completed <? 0 then 0 else completed in
  match Repeat "=" completed with
  | None => None
  | Some bar =>
      if completed <? width then
        let bar := bar +:+ ">" in
        match Repeat " " (sub64 (sub64 width completed) 1) with
        | None => None
        | Some pad => Some ("[" +:+ (bar +:+ pad) +:+ "]")
        end
      else Some ("[" +:+ bar +:+ "]")
  end.

(** [time.Duration] counts nanoseconds. *)
Definition Second : Z := 1000000000.
Definition Minute : Z := 60 * Second.
Definition Hour : Z := 60 * Minute.

(** The six bytes of the string literal the source returns for a
    negative duration (c3 a2 cb 86 c5 be in the file). *)
Definition infinity : string :=
  String (Ascii.ascii_of_nat 195)
    (String (Ascii.ascii_of_nat 162)
       (String (Ascii.ascii_of_nat 203)
          (String (Ascii.ascii_of_nat 134)
             (String (Ascii.ascii_of_nat 197)
                (String (Ascii.ascii_of_nat 190) EmptyString))))).

Definition formatDuration (d : Z) : string :=
  if d =? 0 then "0s"
  else if d <? 0 then infinity
  else if d <? Minute then seconds0 d +:+ "s"
  else if d <? Hour then
    let m := Z.quot d Minute in
    let s := Z.quot (Z.rem d Minute) Second in
    if s =? 0 then pretty m +:+ "m"
    else pretty m +:+ "m" +:+ pretty s +:+ "s"
  else if d <? 24 * Hour then
    let h := Z.quot d Hour in
    let m := Z.quot (Z.rem d Hour) Minute in
    if m =? 0 then pretty h +:+ "h"
    else pretty h +:+ "h" +:+ pretty m +:+ "m"
  else
    let days := Z.quot d (24 * Hour) in
    let h := Z.quot (Z.rem d (24 * Hour)) Hour in
    if h =? 0 then pretty days +:+ "d"
    else pretty days +:+ "d" +:+ pretty h +:+ "h".

End Reporter.

(** The unit below which [formatDuration] shows nothing, for a duration
    of a minute or more. *)
Definition grain (d : Z) : Z :=
  if d <? Hour then Second else if d <? 24 * Hour then Minute else Hour.

(** An arithmetic to run examples with: the percentage is a whole number
    and seconds are cut to whole seconds. *)
Definition WholePercent : Float64 Z :=
  {| bar_cells := fun width percent => Z.quot (width * percent) 100;
     seconds0 := fun d => pretty (Z.quot d Second) |}.

End Progress.

(* ===================================================================== *)
(** ** pkg/sizeparser *)
(* ===================================================================== *)

Module Sizeparser.

(** *** Strings

    A Go string is a sequence of bytes.  [strings.TrimSpace] and
    [strings.ToUpper] are embedded as they work on ASCII text, on which
    they act byte by byte; a byte of 0x80 or more sends both to their
    Unicode tables, which are not part of this development.  Statements
    that depend on them are restricted to [ascii_only] inputs. *)

Definition code (c : Ascii.ascii) : Z := Z.of_nat (Ascii.nat_of_ascii c).

Fixpoint ascii_only (s : string) : bool :=
  match s with
  | EmptyString => true
  | String c rest => (code c <? 128) && ascii_only rest
  end.

(** Tab, line feed, vertical tab, form feed, carriage return, space. *)
Definition asciiSpace (c : Ascii.ascii) : bool :=
  ((9 <=? code c) && (code c <=? 13)) || (code c =? 32).

Fixpoint trim_left (s : string) : string :=
  match s with
  | EmptyString => EmptyString
  | String c rest => if asciiSpace c then trim_left rest else s
  end.

Fixpoint trim_right (s : string) : string :=
  match s with
  | EmptyString => EmptyString
  | String c rest =>
      match trim_right rest with
      | EmptyString => if asciiSpace c then EmptyString
                       else String c EmptyString
      | kept => String c kept
      end
  end.

Definition TrimSpace (s : string) : string := trim_right (trim_left s).

(** A text that does not begin with white space. *)
Definition no_lead (s : string) : Prop :=
  match s with
  | EmptyString => True
  | String c _ => asciiSpace c = false
  end.

Definition upper (c : Ascii.ascii) : Ascii.ascii :=
  if (97 <=? code c) && (code c <=? 122)
  then Ascii.ascii_of_nat (Ascii.nat_of_ascii c - 32)
  else c.

Fixpoint ToUpper (s : string) : string :=
  match s with
  | EmptyString => EmptyString
  | String c rest => String (upper c) (ToUpper rest)
  end.

(** *** The regular expression [^(\d+(?:\.\d+)?)([KMGTP]?B)$] *)

Definition is_digit (c : Ascii.ascii) : bool :=
  (48 <=? code c) && (code c <=? 57).

Fixpoint all_digits (s : string) : bool :=
  match s with
  | EmptyString => true
  | String c rest => is_digit c && all_digits rest
  end.

(** The longest run of digits at the head of [s], and what follows. *)
Fixpoint span_digits (s : string) : string * string :=
  match s with
  | EmptyString => (EmptyString, EmptyString)
  | String c rest =>
      if is_digit c then
        let '(ds, tl) := span_digits rest in (String c ds, tl)
      else (EmptyString, s)
  end.

Definition is_unit (s : string) : bool :=
  String.eqb s "B" || String.eqb s "KB" || String.eqb s "MB"
  || String.eqb s "GB" || String.eqb s "TB" || String.eqb s "PB".

(** [re.FindStringSubmatch]: the two groups of the match, if any; the
    second one of the result is the digits after the point. *)
Definition FindStringSubmatch (s : string)
  : option (string * string * string) :=
  let '(whole, rest) := span_digits s in
  let plain :=
    if is_unit rest then Some (whole, EmptyString, rest) else None in
  match whole with
  | EmptyString => None
  | _ =>
      match rest with
      | String c rest' =>
          if code c =? 46 then   (* the decimal point *)
            let '(frac, unit) := span_digits rest' in
            match frac with
            | EmptyString => None
            | _ => if is_unit unit then Some (whole, frac, unit) else None
            end
          else plain
      | EmptyString => plain
      end
  end.

(** The text of the first group. *)
Definition number_text (whole frac : string) : string :=
  match frac with
  | EmptyString => whole
  | _ => whole +:+ "." +:+ frac
  end.

(** *** [float64]

    The values that occur are not negative: a finite one is [m * 2^e]
    with [m < 2^53] and [e >= -1074], the other one is [+Inf]. *)
Inductive float64 :=
| Finite (m e : Z)
| Inf.

(** [floor (num / (den * 2^e))] *)
Definition shifted (num den e : Z) : Z * Z :=
  if 0 <=? e then (num, den * 2 ^ e) else (num * 2 ^ (- e), den).

(** The [float64] nearest to [num / den], ties to even, for [0 <= num]
    and [0 < den]. *)
Definition round64 (num den : Z) : float64 :=
  if num =? 0 then Finite 0 0 else
  let e := Z.log2 num - Z.log2 den - 52 in
  let '(n, d) := shifted num den e in
  let e := if n / d <? 2 ^ 52 then e - 1 else e in
  let e := Z.max e (- 1074) in
  let '(n, d) := shifted num den e in
  let q := n / d in
  let r := n mod d in
  let m := if (d <? 2 * r) || ((2 * r =? d) && Z.odd q) then q + 1 else q in
  if (971 <? e) || ((e =? 971) && (m =? 2 ^ 53)) then Inf else Finite m e.

(** The value of a run of decimal digits. *)
Fixpoint digits_value (acc : Z) (s : string) : Z :=
  match s with
  | EmptyString => acc
  | String c rest => digits_value (acc * 10 + (code c - 48)) rest
  end.

(** [strconv.ParseFloat(text, 64)] on the text of the first group: the
    nearest [float64]; [None] is the range error of a value that rounds
    to infinity. *)
Definition ParseFloat (whole frac : string) : option float64 :=
  let num := digits_value (digits_value 0 whole) frac in
  let den := 10 ^ Z.of_nat (String.length frac) in
  match round64 num den with
  | Inf => None
  | value => Some value
  end.

(** [float64(n)] for an [n] that a [float64] holds exactly. *)
Definition float64_of (n : Z) : float64 := Finite n 0.

(** [a * b]: the exact product, rounded. *)
Definition fmul (a b : float64) : float64 :=
  match a, b with
  | Finite m1 e1, Finite m2 e2 =>
      let e := e1 + e2 in
      if 0 <=? e then round64 (m1 * m2 * 2 ^ e) 1
      else round64 (m1 * m2) (2 ^ (- e))
  | _, _ => Inf
  end.

(** What [int64(x)] gives when [x] is out of range depends on the
    processor: the smallest [int64] on amd64, the largest one where the
    conversion saturates (arm64). *)
Inductive processor := Amd64 | Arm64.

Definition out_of_range (cpu : processor) : Z :=
  match cpu with
  | Amd64 => min_int64
  | Arm64 => max_int64
  end.

Definition int64_of (cpu : processor) (x : float64) : Z :=
  match x with
  | Finite m e =>
      let t := if 0 <=? e then m * 2 ^ e else m / 2 ^ (- e) in
      if t <=? max_int64 then t else out_of_range cpu
  | Inf => out_of_range cpu
  end.

(** *** [Parse] *)

Definition multiplier (unit : string) : option Z :=
  if String.eqb unit "B" then Some 1
  else if String.eqb unit "KB" then Some 1024
  else if String.eqb unit "MB" then Some (1024 * 1024)
  else if String.eqb unit "GB" then Some (1024 * 1024 * 1024)
  else if String.eqb unit "TB" then Some (1024 * 1024 * 1024 * 1024)
  else if String.eqb unit "PB"
  then Some (1024 * 1024 * 1024 * 1024 * 1024)
  else None.

Definition maxSize : Z := mul64 10 (1024 * 1024 * 1024 * 1024 * 1024).

Definition Parse (cpu : processor) (sizeStr : string) : Z * option error :=
  if String.eqb sizeStr "" then (0, Some "size string cannot be empty"%string)
  else
    let sizeStr := ToUpper (TrimSpace sizeStr) in
    match FindStringSubmatch sizeStr with
    | None => (0, Some ("invalid size format: " +:+ sizeStr))
    | Some (whole, frac, unit) =>
        match ParseFloat whole frac with
        | None =>
            (0, Some ("invalid numeric value: " +:+ number_text whole frac))
        | Some value =>
            match multiplier unit with
            | None => (0, Some ("unsupported unit: " +:+ unit))
            | Some mult =>
                let bytes := int64_of cpu (fmul value (float64_of mult)) in
                if bytes <? 1
                then (0, Some "size must be at least 1 byte"%string)
                else if maxSize <? bytes
                then (0, Some "size must be at most 10PB"%string)
                else (bytes, None)
            end
        end
    end.

End Sizeparser.

(* ===================================================================== *)
(** ** internal/validation *)
(* ===================================================================== *)

Module Validation.
Import Sizeparser.

Record ValidationConfig := {
  Size : string;
  Pattern : string;
  OutputPath : string;
  Workers : Z;
  ChunkSize : string;
  Force : bool
}.

Record ValidationError := { Field : string; Message : string }.

Definition Error (e : ValidationError) : string :=
  if negb (String.eqb (Field e) "") then Field e +:+ ": " +:+ Message e
  else Message e.

(** [%.1f] of [float64(bytes) / float64(div)] is left to the printer. *)
Class FloatFormat1 : Type := fixed1 : Z -> Z -> string.

(** *** The operating system

    What the system answers to the calls one validation makes. *)
Inductive stat_reply :=
| NotExist
| StatFails (e : error)
| Found (isDir : bool).

(** [syscall.Statfs_t], its fields already converted to [int64]. *)
Record Statfs_t := { Bavail : Z; Bsize : Z; Blocks : Z }.

Record machine := {
  NumCPU : Z;                      (* runtime.NumCPU() *)
  path_exists : bool;              (* os.Stat(path) returns no error *)
  Dir : string;                    (* filepath.Dir(path) *)
  stat_dir : stat_reply;           (* os.Stat(dir) *)
  create_temp : option error;      (* os.CreateTemp(dir, ...) *)
  statfs_space : error + Statfs_t; (* Statfs in ValidateDiskSpace *)
  statfs_caps : error + Statfs_t   (* Statfs in ValidateFileSystemCapabilities *)
}.

Section Validator.

Context `{FloatFormat1} (cpu : processor) (os : machine).

(** *** formatSize

    The loop [for n := bytes / unit; n >= unit; n /= unit]; [None] when it
    is still running after [steps] iterations. *)
Fixpoint formatSize_loop (steps : nat) (n div exp : Z) : option (Z * Z) :=
  match steps with
  | O => None
  | S steps' =>
      if 1024 <=? n
      then formatSize_loop steps' (Z.quot n 1024) (mul64 div 1024)
             (add64 exp 1)
      else Some (div, exp)
  end.

(** ["KMGTPE"[exp]]; [None] is the index out of range. *)
Definition unit_letter (exp : Z) : option string :=
  if exp <? 0 then None
  else (["K"; "M"; "G"; "T"; "P"; "E"]%string : list string) !! Z.to_nat exp.

(** [None]: the call does not return a string (the index is out of range,
    or the loop has not ended after 64 iterations). *)
Definition formatSize (bytes : Z) : option string :=
  if bytes =? 0 then Some "0 B"%string
  else if bytes <? 1024 then Some (pretty bytes +:+ " B")
  else
    match formatSize_loop 64 (Z.quot bytes 1024) 1024 0 with
    | None => None
    | Some (div, exp) =>
        match unit_letter exp with
        | None => None
        | Some letter => Some (fixed1 bytes div +:+ " " +:+ letter +:+ "B")
        end
    end.

(** *** The validations

    The outer [None] of a result is a call that does not return. *)

Definition ValidateSize (size : string) : Z * option ValidationError :=
  if String.eqb size "" then
    (0, Some {| Field := "size"; Message := "size cannot be empty" |})
  else
    match Parse cpu size with
    | (_, Some err) =>
        (0, Some {| Field := "size";
                    Message := "invalid size format: " +:+ err |})
    | (sizeBytes, None) =>
        if sizeBytes <? 1 then
          (0, Some {| Field := "size";
                      Message := "size must be at least 1 byte" |})
        else if mul64 10 (1024 * 1024 * 1024 * 1024 * 1024) <? sizeBytes then
          (0, Some {| Field := "size";
                      Message := "size must be at most 10PB" |})
        else (sizeBytes, None)
    end.

(** A slice of strings as [%v] prints it. *)
Definition show_strings (l : list string) : string :=
  "[" +:+ String.concat " " l +:+ "]".

Definition ValidatePattern (pattern : string) : option ValidationError :=
  if String.eqb pattern "" then
    Some {| Field := "pattern"; Message := "pattern cannot be empty" |}
  else if existsb (String.eqb pattern) Generator.AvailablePatterns then None
  else
    Some {| Field := "pattern";
            Message := "invalid pattern '" +:+ pattern +:+ "' (available: "
                       +:+ show_strings Generator.AvailablePatterns
                       +:+ ")" |}.

Definition validateDirectory (dir : string) : option error :=
  match stat_dir os with
  | NotExist => Some ("directory '" +:+ dir +:+ "' does not exist")
  | StatFails e =>
      Some ("cannot access directory '" +:+ dir +:+ "': " +:+ e)
  | Found isDir =>
      if negb isDir then Some ("'" +:+ dir +:+ "' is not a directory")
      else
        match create_temp os with
        | Some e =>
            Some ("directory '" +:+ dir +:+ "' is not writable: " +:+ e)
        | None => None
        end
  end.

Definition ValidateOutputPath (path : string) (force : bool)
  : option ValidationError :=
  if String.eqb path "" then
    Some {| Field := "output"; Message := "output path cannot be empty" |}
  else if path_exists os && negb force then
    Some {| Field := "output";
            Message := "file '" +:+ path
                       +:+ "' already exists (use --force to overwrite)" |}
  else
    match validateDirectory (Dir os) with
    | Some err => Some {| Field := "output"; Message := err |}
    | None => None
    end.

Definition ValidateDiskSpace (path : string) (size : Z)
  : option (option ValidationError) :=
  match statfs_space os with
  | inl e =>
      Some (Some {| Field := "disk_space";
                    Message := "failed to check disk space: " +:+ e |})
  | inr stat =>
      let available := mul64 (Bavail stat) (Bsize stat) in
      if available <? size then
        match formatSize size, formatSize available with
        | Some need, Some have =>
            Some (Some {| Field := "disk_space";
                          Message := "insufficient disk space: need "
                                     +:+ need +:+ ", have " +:+ have |})
        | _, _ => None
        end
      else Some None
  end.

Definition maxSingleFileSize : Z :=
  mul64 (mul64 (mul64 (mul64 (mul64 8 1024) 1024) 1024) 1024) 1024.

Definition ValidateFileSystemCapabilities (path : string) (size : Z)
  : option (option ValidationError) :=
  match statfs_caps os with
  | inl e =>
      Some (Some {| Field := "filesystem";
                    Message := "failed to check file system: " +:+ e |})
  | inr _ =>
      if maxSingleFileSize <? size then
        match formatSize size with
        | Some shown =>
            Some (Some {| Field := "filesystem";
                          Message := "file size " +:+ shown
                                     +:+ " exceeds maximum file size limit" |})
        | None => None
        end
      else Some None
  end.

Definition ValidateWorkers (workers : Z) : option ValidationError :=
  if workers <? 1 then
    Some {| Field := "workers";
            Message := "worker count must be at least 1" |}
  else
    let maxWorkers := mul64 (NumCPU os) 4 in
    if maxWorkers <? workers then
      Some {| Field := "workers";
              Message := "worker count " +:+ pretty workers
                         +:+ " exceeds recommended maximum of "
                         +:+ pretty maxWorkers +:+ " (4x CPU count)" |}
    else None.

Definition minChunkSize : Z := 1024.
Definition maxChunkSize : Z := 1024 * 1024 * 1024.

Definition ValidateChunkSize (chunkSize : string)
  : option (option ValidationError) :=
  if String.eqb chunkSize "" then
    Some (Some {| Field := "chunk_size";
                  Message := "chunk size cannot be empty" |})
  else
    match Parse cpu chunkSize with
    | (_, Some err) =>
        Some (Some {| Field := "chunk_size";
                      Message := "invalid chunk size format: " +:+ err |})
    | (size, None) =>
        if size <? minChunkSize then
          match formatSize minChunkSize with
          | Some shown =>
              Some (Some {| Field := "chunk_size";
                            Message := "chunk size must be at least "
                                       +:+ shown |})
          | None => None
          end
        else if maxChunkSize <? size then
          match formatSize maxChunkSize with
          | Some shown =>
              Some (Some {| Field := "chunk_size";
                            Message := "chunk size must be at most "
                                       +:+ shown |})
          | None => None
          end
        else Some None
    end.

Definition ValidateAll (config : ValidationConfig)
  : option (option ValidationError) :=
  match ValidateSize (Size config) with
  | (_, Some err) => Some (Some err)
  | (sizeBytes, None) =>
  match ValidatePattern (Pattern config) with
  | Some err => Some (Some err)
  | None =>
  match ValidateOutputPath (OutputPath config) (Force config) with
  | Some err => Some (Some err)
  | None =>
  match ValidateDiskSpace (OutputPath config) sizeBytes with
  | None => None
  | Some (Some err) => Some (Some err)
  | Some None =>
  match ValidateFileSystemCapabilities (OutputPath config) sizeBytes with
  | None => None
  | Some (Some err) => Some (Some err)
  | Some None =>
  match ValidateWorkers (Workers config) with
  | Some err => Some (Some err)
  | None => ValidateChunkSize (ChunkSize config)
  end end end end end end.

Definition ValidateConfiguration (size pattern outputPath : string)
    (workers : Z) (chunkSize : string) (force : bool)
  : option (option ValidationError) :=
  ValidateAll {| Size := size; Pattern := pattern; OutputPath := outputPath;
                 Workers := workers; ChunkSize := chunkSize;
                 Force := force |}.

End Validator.

(** A printer that keeps one decimal, cut off, to run examples with. *)
Definition OneDecimal : FloatFormat1 :=
  fun bytes div =>
    pretty (Z.quot bytes div) +:+ "."
    +:+ pretty (Z.quot (Z.rem bytes div * 10) div).

End Validation.

(* ===================================================================== *)
(** * Properties *)
(* ===================================================================== *)

(** ** Arithmetic of Go integers *)

Lemma wrap64_id z : in_int64 z -> wrap64 z = z.
Proof.
  unfold in_int64, min_int64, max_int64, wrap64. intros Hz.
  rewrite Z.mod_small by lia. lia.
Qed.

Lemma wrap64_range z : in_int64 (wrap64 z).
Proof.
  unfold in_int64, min_int64, max_int64, wrap64.
  pose proof (Z.mod_pos_bound (z + 2 ^ 63) (2 ^ 64) ltac:(lia)). lia.
Qed.

Lemma add64_id a b : in_int64 (a + b) -> add64 a b = a + b.
Proof. apply wrap64_id. Qed.

Lemma sub64_id a b : in_int64 (a - b) -> sub64 a b = a - b.
Proof. apply wrap64_id. Qed.

Lemma rem64_nonneg a b : 0 <= a -> 0 < b -> rem64 a b = a mod b.
Proof. intros. unfold rem64. apply Z.rem_mod_nonneg; lia. Qed.

Lemma uint8_id z : 0 <= z < 256 -> uint8 z = z.
Proof. intros. unfold uint8. apply Z.mod_small. lia. Qed.

Lemma len_nonneg {A} (s : list A) : 0 <= len s.
Proof. unfold len. lia. Qed.

Lemma len_app {A} (s t : list A) : len (s ++ t) = len s + len t.
Proof. unfold len. rewrite length_app. lia. Qed.

Lemma len_cons {A} (x : A) (s : list A) : len (x :: s) = 1 + len s.
Proof. unfold len. cbn [length]. lia. Qed.


(* ===================================================================== *)
(** ** Pattern generators *)
(* ===================================================================== *)

Module GeneratorSpec.
Import Generator.

Lemma Zero_fill_length buffer : length (Zero_fill buffer) = length buffer.
Proof. induction buffer; cbn; congruence. Qed.

Lemma Zero_fill_replicate buffer : Zero_fill buffer = replicate (length buffer) 0.
Proof. induction buffer; cbn; congruence. Qed.

Lemma Sequential_fill_length startValue i buffer :
  length (Sequential_fill startValue i buffer) = length buffer.
Proof. revert i. induction buffer; intros; cbn; auto. Qed.

(** One cell of the loop: no wrap-around, no truncation. *)
Lemma Sequential_cell c k :
  0 <= c < 256 -> 0 <= k -> k + 255 <= max_int64 ->
  uint8 (rem64 (add64 c k) 256) = (c + k) mod 256.
Proof.
  intros Hc Hk Hmax.
  rewrite add64_id by (unfold in_int64, min_int64, max_int64 in *; lia).
  rewrite rem64_nonneg by lia.
  apply uint8_id, Z.mod_pos_bound. lia.
Qed.

Lemma Sequential_fill_lookup c buffer : forall i (k : nat),
  0 <= c < 256 -> 0 <= i -> i + len buffer + 255 <= max_int64 ->
  (k < length buffer)%nat ->
  Sequential_fill c i buffer !! k = Some ((c + i + Z.of_nat k) mod 256).
Proof.
  induction buffer as [|b rest IH]; intros i k Hc Hi Hmax Hk; cbn in Hk.
  - lia.
  - rewrite len_cons in Hmax. pose proof (len_nonneg rest).
    destruct k as [|k]; cbn [Sequential_fill lookup list_lookup].
    + rewrite Sequential_cell by lia. f_equal. f_equal. lia.
    + cbn. rewrite IH by lia. f_equal. f_equal. lia.
Qed.

(** C8.  A [Generate] call of the Sequential generator that starts at
    cursor [c] writes [(c + i) mod 256] at every index [i] of the buffer,
    returns no error, and leaves the cursor at [(c + len buffer) mod 256];
    the next call therefore continues the same byte stream where this one
    stopped. *)
Theorem Sequential_Generate_stream (c : Z) (buffer : list Z) :
  0 <= c < 256 ->
  len buffer + 255 <= max_int64 ->
  exists out,
    Sequential_Generate {| counter := c |} buffer
      = ({| counter := (c + len buffer) mod 256 |}, out, None)
    /\ length out = length buffer
    /\ (forall i : nat, (i < length buffer)%nat ->
          out !! i = Some ((c + Z.of_nat i) mod 256))
    /\ (forall next : list Z, len next + 255 <= max_int64 ->
          forall j : nat, (j < length next)%nat ->
          (Sequential_Generate {| counter := (c + len buffer) mod 256 |} next).1.2 !! j
            = Some ((c + len buffer + Z.of_nat j) mod 256)).
Proof.
  intros Hc Hmax. pose proof (len_nonneg buffer) as Hlen.
  exists (Sequential_fill c 0 buffer). repeat split.
  - unfold Sequential_Generate. cbn [counter].
    rewrite Sequential_cell by lia. reflexivity.
  - apply Sequential_fill_length.
  - intros i Hi. rewrite Sequential_fill_lookup by lia.
    f_equal. f_equal. lia.
  - intros next Hnext j Hj. cbn.
    pose proof (Z.mod_pos_bound (c + len buffer) 256 ltac:(lia)).
    rewrite Sequential_fill_lookup by lia. f_equal.
    rewrite Z.add_0_r, Zplus_mod_idemp_l. reflexivity.
Qed.

Lemma Sequential_Generate_stream_witness :
  exists out,
    Sequential_Generate {| counter := 254 |} [0; 0; 0; 0; 0]
      = ({| counter := (254 + len [0; 0; 0; 0; 0]) mod 256 |}, out, None)
    /\ length out = length [0; 0; 0; 0; 0]
    /\ (forall i : nat, (i < length [0; 0; 0; 0; 0])%nat ->
          out !! i = Some ((254 + Z.of_nat i) mod 256))
    /\ (forall next : list Z, len next + 255 <= max_int64 ->
          forall j : nat, (j < length next)%nat ->
          (Sequential_Generate
             {| counter := (254 + len [0; 0; 0; 0; 0]) mod 256 |} next).1.2 !! j
            = Some ((254 + len [0; 0; 0; 0; 0] + Z.of_nat j) mod 256)).
Proof.
  apply (Sequential_Generate_stream 254 [0; 0; 0; 0; 0]).
  - lia.
  - vm_compute. discriminate.
Defined.

(** The example of the design document: cursor 254, five bytes. *)
Example Sequential_Generate_254 :
  Sequential_Generate {| counter := 254 |} [7; 7; 7; 7; 7]
    = ({| counter := 3 |}, [254; 255; 0; 1; 2], None).
Proof. reflexivity. Qed.

(** *** The Mixed generator always returns *)

Lemma Random_Generate_length ent buffer ent' out :
  Random_Generate ent buffer = (ent', out, None) ->
  length out = length buffer.
Proof.
  unfold Random_Generate.
  destruct (Nat.leb_spec (length buffer) (length ent)); intros Heq;
    inversion Heq; subst.
  rewrite length_take. lia.
Qed.

Lemma window_length buffer lo hi :
  0 <= lo <= hi -> hi <= len buffer ->
  length (window buffer lo hi) = Z.to_nat (hi - lo).
Proof.
  intros Hlo Hhi. unfold window, len in *.
  rewrite length_take, length_drop. lia.
Qed.

Lemma store_length buffer lo hi chunk :
  0 <= lo <= hi -> hi <= len buffer ->
  length chunk = Z.to_nat (hi - lo) ->
  len (store buffer lo hi chunk) = len buffer.
Proof.
  intros Hlo Hhi Hchunk. unfold store, len in *.
  rewrite !length_app, length_take, length_drop. lia.
Qed.

(** From a well-formed generator, the loop ends within one iteration per
    byte left: it never runs out of steps and never panics. *)
Lemma Mixed_loop_returns : forall (steps : nat) g ent buffer offset,
  well_formed g ->
  0 <= offset <= len buffer ->
  len buffer <= max_int64 ->
  (Z.to_nat (len buffer - offset) < steps)%nat ->
  exists g' ent' out err,
    Mixed_loop steps g ent buffer offset = Returned g' ent' out err
    /\ (err = None -> well_formed g' /\ len out = len buffer).
Proof.
  induction steps as [|steps IH];
    intros g ent buffer offset [Hchunk Hpos] Hoff Hmax Hsteps; [lia|].
  cbn [Mixed_loop].
  destruct (Z.ltb_spec offset (len buffer)) as [Hlt|Hge].
  2: { do 4 eexists. split; [reflexivity|]. intros _.
       split; [split; assumption|reflexivity]. }
  assert (Hrc : sub64 (chunkSize g) (currentPos g)
                = chunkSize g - currentPos g)
    by (apply sub64_id; unfold in_int64, min_int64, max_int64 in *; lia).
  assert (Hrb : sub64 (len buffer) offset = len buffer - offset)
    by (apply sub64_id; unfold in_int64, min_int64, max_int64 in *; lia).
  rewrite Hrc, Hrb.
  set (copySize := min (chunkSize g - currentPos g) (len buffer - offset)).
  assert (Hcopy : 0 < copySize /\ copySize <= chunkSize g - currentPos g
                  /\ copySize <= len buffer - offset).
  { unfold copySize, min.
    destruct (Z.ltb_spec (chunkSize g - currentPos g) (len buffer - offset));
      lia. }
  assert (Hhi : add64 offset copySize = offset + copySize)
    by (apply add64_id; unfold in_int64, min_int64, max_int64 in *; lia).
  assert (Hnp : add64 (currentPos g) copySize = currentPos g + copySize)
    by (apply add64_id; unfold in_int64, min_int64, max_int64 in *; lia).
  rewrite Hhi, Hnp.
  destruct (Z.ltb_spec (offset + copySize) offset); [lia|].
  destruct (Z.ltb_spec (len buffer) (offset + copySize)); [lia|].
  cbn [orb].
  set (chunk := window buffer offset (offset + copySize)).
  assert (Hwin : length chunk = Z.to_nat (offset + copySize - offset))
    by (apply window_length; lia).
  assert (Hnext : forall chunk' ent' random,
    length chunk' = length chunk ->
    exists g' ent'' out err,
      Mixed_loop steps
        (if chunkSize g <=? currentPos g + copySize
         then {| chunkSize := chunkSize g; isRandom := negb random;
                 currentPos := 0 |}
         else {| chunkSize := chunkSize g; isRandom := random;
                 currentPos := currentPos g + copySize |})
        ent' (store buffer offset (offset + copySize) chunk')
        (offset + copySize)
      = Returned g' ent'' out err
      /\ (err = None -> well_formed g' /\ len out = len buffer)).
  { intros chunk' ent' random Hlen.
    assert (Hstore : len (store buffer offset (offset + copySize) chunk')
                     = len buffer)
      by (apply store_length; lia).
    destruct (IH (if chunkSize g <=? currentPos g + copySize
                  then {| chunkSize := chunkSize g; isRandom := negb random;
                          currentPos := 0 |}
                  else {| chunkSize := chunkSize g; isRandom := random;
                          currentPos := currentPos g + copySize |})
                ent' (store buffer offset (offset + copySize) chunk')
                (offset + copySize))
      as (g' & ent'' & out & err & Hrun & Hok).
    - destruct (Z.leb_spec (chunkSize g) (currentPos g + copySize));
        split; cbn; lia.
    - rewrite Hstore. lia.
    - rewrite Hstore. lia.
    - rewrite Hstore. lia.
    - exists g', ent'', out, err. split; [exact Hrun|].
      intros Herr. destruct (Hok Herr) as [Hwf Hout].
      split; [exact Hwf|]. rewrite Hout. exact Hstore. }
  destruct (isRandom g) eqn:Hrandom.
  - destruct (Random_Generate ent chunk) as [[ent' chunk'] [e|]] eqn:Hgen.
    + do 4 eexists. split; [reflexivity|]. discriminate.
    + apply Random_Generate_length in Hgen.
      destruct (Hnext chunk' ent' true Hgen) as (g' & ent'' & out & err & Hr).
      exists g', ent'', out, err. exact Hr.
  - cbn [Zero_Generate].
    destruct (Hnext (Zero_fill chunk) ent false (Zero_fill_length chunk))
      as (g' & ent'' & out & err & Hr).
    exists g', ent'', out, err. exact Hr.
Qed.

(** [Generate] on a generator made by [NewMixedGenerator] returns, with
    or without an error. *)
Lemma Mixed_Generate_returns (n : Z) ent buffer :
  n <= max_int64 -> len buffer <= max_int64 ->
  exists g' ent' out err,
    Mixed_Generate (NewMixedGenerator n) ent buffer
    = Returned g' ent' out err.
Proof.
  intros Hn Hmax. pose proof (len_nonneg buffer).
  destruct (Mixed_loop_returns (2 + length buffer) (NewMixedGenerator n) ent
              buffer 0) as (g' & ent' & out & err & Hrun & _).
  - unfold well_formed, NewMixedGenerator. cbn.
    destruct (Z.leb_spec n 0); unfold max_int64 in *; lia.
  - lia.
  - assumption.
  - unfold len. lia.
  - exists g', ent', out, err. exact Hrun.
Qed.

Ltac destruct_cell l H :=
  destruct l as [|? l]; [cbn [length] in H; first [discriminate H | lia]|].

(** C9.  A Mixed generator built with chunk length 10 fills a 30-byte
    buffer, in one call, with ten bytes of the random source, ten zero
    bytes and the next ten bytes of the random source; the random runs are
    not all zero as soon as the bytes the source delivered are not.  The
    phase and the position within it survive the call: splitting the same
    request in two calls (15 + 15 bytes) gives the same bytes and the same
    final state. *)
Theorem Mixed_Generate_alternates (ent : entropy) (buffer : list Z) :
  length buffer = 30%nat ->
  (20 <= length ent)%nat ->
  all_zero (take 10 ent) = false ->
  all_zero (take 10 (drop 10 ent)) = false ->
  exists out,
    Mixed_Generate (NewMixedGenerator 10) ent buffer
      = Returned {| chunkSize := 10; isRandom := false; currentPos := 0 |}
                 (drop 20 ent) out None
    /\ length out = 30%nat
    /\ take 10 out = take 10 ent
    /\ all_zero (take 10 out) = false
    /\ take 10 (drop 10 out) = replicate 10 0
    /\ drop 20 out = take 10 (drop 10 ent)
    /\ all_zero (drop 20 out) = false
    /\ exists out1 out2,
         Mixed_Generate (NewMixedGenerator 10) ent (take 15 buffer)
           = Returned {| chunkSize := 10; isRandom := false; currentPos := 5 |}
                      (drop 10 ent) out1 None
         /\ Mixed_Generate
              {| chunkSize := 10; isRandom := false; currentPos := 5 |}
              (drop 10 ent) (drop 15 buffer)
           = Returned {| chunkSize := 10; isRandom := false; currentPos := 0 |}
                      (drop 20 ent) out2 None
         /\ out1 ++ out2 = out.
Proof.
  intros Hlen Hent Hz1 Hz3.
  do 30 destruct_cell buffer Hlen. destruct buffer; [|discriminate]. clear Hlen.
  do 20 destruct_cell ent Hent. clear Hent.
  cbn [take drop] in Hz1, Hz3.
  eexists. split; [vm_compute; reflexivity|].
  split; [reflexivity|]. split; [reflexivity|].
  split; [exact Hz1|]. split; [reflexivity|]. split; [reflexivity|].
  split; [exact Hz3|].
  eexists. eexists. split; [vm_compute; reflexivity|].
  split; [vm_compute; reflexivity|]. reflexivity.
Qed.

Lemma Mixed_Generate_alternates_witness :
  let ent := seqZ 1 20 in
  let buffer := replicate 30 9 in
  exists out,
    Mixed_Generate (NewMixedGenerator 10) ent buffer
      = Returned {| chunkSize := 10; isRandom := false; currentPos := 0 |}
                 (drop 20 ent) out None
    /\ length out = 30%nat
    /\ take 10 out = take 10 ent
    /\ all_zero (take 10 out) = false
    /\ take 10 (drop 10 out) = replicate 10 0
    /\ drop 20 out = take 10 (drop 10 ent)
    /\ all_zero (drop 20 out) = false
    /\ exists out1 out2,
         Mixed_Generate (NewMixedGenerator 10) ent (take 15 buffer)
           = Returned {| chunkSize := 10; isRandom := false; currentPos := 5 |}
                      (drop 10 ent) out1 None
         /\ Mixed_Generate
              {| chunkSize := 10; isRandom := false; currentPos := 5 |}
              (drop 10 ent) (drop 15 buffer)
           = Returned {| chunkSize := 10; isRandom := false; currentPos := 0 |}
                      (drop 20 ent) out2 None
         /\ out1 ++ out2 = out.
Proof.
  apply (Mixed_Generate_alternates (seqZ 1 20) (replicate 30 9)).
  - reflexivity.
  - vm_compute. lia.
  - reflexivity.
  - reflexivity.
Defined.

(** The same call on a concrete supply of random bytes. *)
Example Mixed_Generate_30 :
  Mixed_Generate (NewMixedGenerator 10) (seqZ 1 20) (replicate 30 9)
    = Returned {| chunkSize := 10; isRandom := false; currentPos := 0 |} []
               (seqZ 1 10 ++ replicate 10 0 ++ seqZ 11 10) None.
Proof. vm_compute. reflexivity. Qed.

Lemma zero_phase_mod C p q :
  p mod (2 * C) = q mod (2 * C) -> zero_phase C p = zero_phase C q.
Proof. unfold zero_phase. intros ->. reflexivity. Qed.

Lemma random_cells_mod C : forall out p q,
  0 < C -> p mod (2 * C) = q mod (2 * C) ->
  random_cells C p out = random_cells C q out.
Proof.
  induction out as [|x out IH]; intros p q HC Hpq; [reflexivity|].
  cbn [random_cells]. rewrite (zero_phase_mod C p q Hpq).
  rewrite (IH (p + 1) (q + 1)); [reflexivity|exact HC|].
  rewrite <- (Zplus_mod_idemp_l p), <- (Zplus_mod_idemp_l q), Hpq.
  reflexivity.
Qed.

Lemma random_cells_app C : forall xs ys p,
  random_cells C p (xs ++ ys)
  = random_cells C p xs ++ random_cells C (p + len xs) ys.
Proof.
  induction xs as [|x xs IH]; intros ys p.
  - cbn. rewrite Z.add_0_r. reflexivity.
  - cbn [app random_cells]. rewrite IH, len_cons.
    replace (p + (1 + len xs)) with (p + 1 + len xs) by lia.
    destruct (zero_phase C p); reflexivity.
Qed.

(** A run that stays in the random half is kept whole. *)
Lemma random_cells_random C : forall xs p,
  0 <= p -> p + len xs <= C ->
  random_cells C p xs = xs.
Proof.
  induction xs as [|x xs IH]; intros p Hp Hle; [reflexivity|].
  rewrite len_cons in Hle. pose proof (len_nonneg xs).
  cbn [random_cells]. unfold zero_phase at 1.
  rewrite Z.mod_small by lia.
  destruct (Z.leb_spec C p); [lia|].
  rewrite IH by lia. reflexivity.
Qed.

(** A run that stays in the zero half is dropped. *)
Lemma random_cells_zero C : forall xs p,
  C <= p -> p + len xs <= 2 * C ->
  random_cells C p xs = [].
Proof.
  induction xs as [|x xs IH]; intros p Hp Hle; [reflexivity|].
  rewrite len_cons in Hle. pose proof (len_nonneg xs).
  cbn [random_cells]. unfold zero_phase at 1.
  rewrite Z.mod_small by lia.
  destruct (Z.leb_spec C p); [|lia].
  apply IH; lia.
Qed.

Lemma phase_range g : well_formed g -> 0 <= phase g < 2 * chunkSize g.
Proof. intros [? ?]. unfold phase. destruct (isRandom g); lia. Qed.

Lemma Mixed_loop_cycle : forall (steps : nat) g ent buffer offset,
  well_formed g ->
  0 <= offset <= len buffer ->
  len buffer <= max_int64 ->
  (Z.to_nat (len buffer - offset) < steps)%nat ->
  (Z.to_nat (len buffer - offset) <= length ent)%nat ->
  exists g' ent' out,
    Mixed_loop steps g ent buffer offset = Returned g' ent' out None
    /\ length out = length buffer
    /\ take (Z.to_nat offset) out = take (Z.to_nat offset) buffer
    /\ well_formed g' /\ chunkSize g' = chunkSize g
    /\ phase g' = (phase g + (len buffer - offset)) mod (2 * chunkSize g)
    /\ (forall (j : nat) x,
          drop (Z.to_nat offset) out !! j = Some x ->
          zero_phase (chunkSize g) (phase g + Z.of_nat j) = true -> x = 0)
    /\ ent = random_cells (chunkSize g) (phase g)
               (drop (Z.to_nat offset) out) ++ ent'.
Proof.
  induction steps as [|steps IH];
    intros g ent buffer offset Hwf Hoff Hmax Hsteps Hent; [lia|].
  pose proof (phase_range g Hwf) as Hph.
  destruct Hwf as [Hchunk Hpos].
  cbn [Mixed_loop].
  destruct (Z.ltb_spec offset (len buffer)) as [Hlt|Hge].
  2: { assert (offset = len buffer) as -> by lia.
       exists g, ent, buffer. split; [reflexivity|].
       split; [reflexivity|]. split; [reflexivity|].
       split; [split; assumption|]. split; [reflexivity|].
       split; [rewrite Z.sub_diag, Z.add_0_r, Z.mod_small by lia; reflexivity|].
       unfold len. rewrite Nat2Z.id, drop_all. split.
       - intros j x Hj. rewrite lookup_nil in Hj. discriminate.
       - reflexivity. }
  assert (Hrc : sub64 (chunkSize g) (currentPos g)
                = chunkSize g - currentPos g)
    by (apply sub64_id; unfold in_int64, min_int64, max_int64 in *; lia).
  assert (Hrb : sub64 (len buffer) offset = len buffer - offset)
    by (apply sub64_id; unfold in_int64, min_int64, max_int64 in *; lia).
  rewrite Hrc, Hrb.
  set (copySize := min (chunkSize g - currentPos g) (len buffer - offset)).
  assert (Hcopy : 0 < copySize /\ copySize <= chunkSize g - currentPos g
                  /\ copySize <= len buffer - offset).
  { unfold copySize, min.
    destruct (Z.ltb_spec (chunkSize g - currentPos g) (len buffer - offset));
      lia. }
  clearbody copySize.
  assert (Hhi : add64 offset copySize = offset + copySize)
    by (apply add64_id; unfold in_int64, min_int64, max_int64 in *; lia).
  assert (Hnp : add64 (currentPos g) copySize = currentPos g + copySize)
    by (apply add64_id; unfold in_int64, min_int64, max_int64 in *; lia).
  rewrite Hhi, Hnp.
  destruct (Z.ltb_spec (offset + copySize) offset); [lia|].
  destruct (Z.ltb_spec (len buffer) (offset + copySize)); [lia|].
  cbn [orb].
  set (chunk := window buffer offset (offset + copySize)).
  assert (Hwin : length chunk = Z.to_nat copySize).
  { unfold chunk. rewrite window_length by lia. f_equal. lia. }
  clearbody chunk.
  set (C := chunkSize g) in *.
  (* what the rest of the loop does, whatever the chunk just written *)
  assert (Hnext : forall chunk' ent1 random,
    length chunk' = Z.to_nat copySize ->
    (Z.to_nat (len buffer - (offset + copySize)) <= length ent1)%nat ->
    let g1 := if C <=? currentPos g + copySize
              then {| chunkSize := C; isRandom := negb random;
                      currentPos := 0 |}
              else {| chunkSize := C; isRandom := random;
                      currentPos := currentPos g + copySize |} in
    exists g' ent' out,
      Mixed_loop steps g1 ent1
        (store buffer offset (offset + copySize) chunk') (offset + copySize)
      = Returned g' ent' out None
      /\ length out = length buffer
      /\ take (Z.to_nat offset) out = take (Z.to_nat offset) buffer
      /\ drop (Z.to_nat offset) out
         = chunk' ++ drop (Z.to_nat (offset + copySize)) out
      /\ well_formed g' /\ chunkSize g' = C
      /\ phase g' = (phase g1 + (len buffer - (offset + copySize)))
                    mod (2 * C)
      /\ (forall (j : nat) x,
            drop (Z.to_nat (offset + copySize)) out !! j = Some x ->
            zero_phase C (phase g1 + Z.of_nat j) = true -> x = 0)
      /\ ent1 = random_cells C (phase g1)
                  (drop (Z.to_nat (offset + copySize)) out) ++ ent').
  { intros chunk' ent1 random Hlen Hent1 g1.
    set (buffer1 := store buffer offset (offset + copySize) chunk').
    assert (Hstore : len buffer1 = len buffer).
    { apply store_length; [lia|lia|]. rewrite Hlen. f_equal. lia. }
    assert (Hg1 : well_formed g1 /\ chunkSize g1 = C).
    { unfold g1. destruct (Z.leb_spec C (currentPos g + copySize));
        (split; [split; cbn; lia|reflexivity]). }
    destruct Hg1 as [Hwf1 HC1].
    destruct (IH g1 ent1 buffer1 (offset + copySize))
      as (g' & ent' & out & Hrun & Hout & Htake & Hwf' & HC' & Hph' & Hz & Hr).
    - exact Hwf1.
    - rewrite Hstore. lia.
    - rewrite Hstore. lia.
    - rewrite Hstore. lia.
    - rewrite Hstore. exact Hent1.
    - rewrite HC1 in *. rewrite Hstore in Hph'.
      assert (Hlenb : length buffer1 = length buffer)
        by (unfold len in Hstore; lia).
      assert (Hpre : take (Z.to_nat (offset + copySize)) buffer1
                     = take (Z.to_nat offset) buffer ++ chunk').
      { unfold buffer1, store. rewrite app_assoc.
        rewrite take_app_length'; [reflexivity|].
        rewrite length_app, length_take, Hlen. unfold len in *. lia. }
      assert (Hsplit : out = (take (Z.to_nat offset) buffer ++ chunk')
                             ++ drop (Z.to_nat (offset + copySize)) out).
      { rewrite <- Hpre, <- Htake. symmetry. apply take_drop. }
      assert (Hlt0 : length (take (Z.to_nat offset) buffer)
                     = Z.to_nat offset)
        by (rewrite length_take; unfold len in *; lia).
      exists g', ent', out. split; [exact Hrun|].
      split; [lia|]. split.
      { rewrite Hsplit at 1. rewrite <- app_assoc.
        rewrite take_app_length'; [reflexivity|lia]. }
      split.
      { rewrite Hsplit at 1. rewrite <- app_assoc.
        rewrite drop_app_length'; [reflexivity|lia]. }
      split; [exact Hwf'|]. split; [exact HC'|].
      split; [exact Hph'|]. split; [exact Hz|exact Hr]. }
  assert (Hmodk : forall random (d : Z),
    let g1 := if C <=? currentPos g + copySize
              then {| chunkSize := C; isRandom := negb random;
                      currentPos := 0 |}
              else {| chunkSize := C; isRandom := random;
                      currentPos := currentPos g + copySize |} in
    isRandom g = random ->
    (phase g1 + d) mod (2 * C) = (phase g + copySize + d) mod (2 * C)).
  { intros random d g1 Hrandom. unfold g1, phase. rewrite Hrandom. fold C.
    destruct (Z.leb_spec C (currentPos g + copySize)); destruct random;
      cbn [isRandom chunkSize currentPos negb].
    - f_equal; lia.
    - replace (C + currentPos g + copySize + d) with (d + 1 * (2 * C)) by lia.
      rewrite Z_mod_plus_full. f_equal; lia.
    - f_equal; lia.
    - f_equal; lia. }
  assert (Hfinish : forall chunk' ent1 random,
    isRandom g = random ->
    length chunk' = Z.to_nat copySize ->
    (Z.to_nat (len buffer - (offset + copySize)) <= length ent1)%nat ->
    (forall (j : nat) x, chunk' !! j = Some x ->
       zero_phase C (phase g + Z.of_nat j) = true -> x = 0) ->
    ent = random_cells C (phase g) chunk' ++ ent1 ->
    let g1 := if C <=? currentPos g + copySize
              then {| chunkSize := C; isRandom := negb random;
                      currentPos := 0 |}
              else {| chunkSize := C; isRandom := random;
                      currentPos := currentPos g + copySize |} in
    exists g' ent' out,
      Mixed_loop steps g1 ent1
        (store buffer offset (offset + copySize) chunk') (offset + copySize)
      = Returned g' ent' out None
      /\ length out = length buffer
      /\ take (Z.to_nat offset) out = take (Z.to_nat offset) buffer
      /\ well_formed g' /\ chunkSize g' = C
      /\ phase g' = (phase g + (len buffer - offset)) mod (2 * C)
      /\ (forall (j : nat) x,
            drop (Z.to_nat offset) out !! j = Some x ->
            zero_phase C (phase g + Z.of_nat j) = true -> x = 0)
      /\ ent = random_cells C (phase g) (drop (Z.to_nat offset) out) ++ ent').
  { intros chunk' ent1 random Hrandom Hlen Hent1 Hzc Hrc' g1.
    destruct (Hnext chunk' ent1 random Hlen Hent1)
      as (g' & ent' & out & Hrun & Hout & Htake & Hdrop & Hwf' & HC' & Hph'
          & Hz & Hr).
    fold g1 in Hrun, Hph', Hz, Hr.
    exists g', ent', out. split; [exact Hrun|]. split; [exact Hout|].
    split; [exact Htake|]. split; [exact Hwf'|]. split; [exact HC'|].
    split.
    { rewrite Hph'. rewrite (Hmodk random _ Hrandom). f_equal. lia. }
    split.
    { intros j x Hj Hzp. rewrite Hdrop in Hj.
      destruct (decide (j < length chunk')%nat) as [Hjl|Hjl].
      - rewrite lookup_app_l in Hj by exact Hjl. eapply Hzc; eassumption.
      - rewrite lookup_app_r in Hj by lia.
        eapply Hz; [exact Hj|]. rewrite <- Hzp. apply zero_phase_mod.
        rewrite (Hmodk random _ Hrandom). f_equal. rewrite Hlen. lia. }
    rewrite Hdrop, random_cells_app, <- app_assoc, Hrc'. f_equal.
    rewrite Hr. f_equal. apply random_cells_mod; [lia|].
    rewrite <- (Z.add_0_r (phase g1)), (Hmodk random _ Hrandom).
    f_equal. unfold len. rewrite Hlen. lia. }
  destruct (isRandom g) eqn:Hrandom.
  - unfold Random_Generate.
    destruct (Nat.leb_spec (length chunk) (length ent)) as [Hle|Hgt].
    2: { exfalso. lia. }
    apply (Hfinish (take (length chunk) ent) (drop (length chunk) ent) true).
    + reflexivity.
    + rewrite length_take. lia.
    + rewrite length_drop. lia.
    + intros j x Hj Hzp. exfalso.
      apply lookup_lt_Some in Hj. rewrite length_take in Hj.
      unfold zero_phase, phase in Hzp. rewrite Hrandom in Hzp.
      rewrite Z.mod_small in Hzp by lia.
      apply Z.leb_le in Hzp. lia.
    + rewrite random_cells_random.
      * symmetry. apply take_drop.
      * unfold phase. rewrite Hrandom. lia.
      * unfold phase, len. rewrite Hrandom, length_take. lia.
  - cbn [Zero_Generate].
    apply (Hfinish (Zero_fill chunk) ent false).
    + reflexivity.
    + rewrite Zero_fill_length. exact Hwin.
    + lia.
    + intros j x Hj _. rewrite Zero_fill_replicate in Hj.
      apply lookup_replicate in Hj as [-> _]. reflexivity.
    + rewrite random_cells_zero; [reflexivity| |].
      * unfold phase. rewrite Hrandom. lia.
      * unfold phase, len. rewrite Hrandom, Zero_fill_length. lia.
Qed.

(** X1.  Whatever the chunk length, the state and the buffer, a Mixed
    generator whose random source can serve the request returns without
    error a buffer of the same length, stays well formed and advances its
    place in the cycle by the length of the buffer.  Every output byte that
    falls in the zero half of the cycle is 0, and the bytes that fall in
    the random half are, in order, exactly the bytes taken from the random
    source. *)
Theorem Mixed_Generate_cycle (g : MixedGenerator) (ent : entropy)
    (buffer : list Z) :
  well_formed g ->
  len buffer <= max_int64 ->
  (length buffer <= length ent)%nat ->
  exists g' ent' out,
    Mixed_Generate g ent buffer = Returned g' ent' out None
    /\ length out = length buffer
    /\ well_formed g' /\ chunkSize g' = chunkSize g
    /\ phase g' = (phase g + len buffer) mod (2 * chunkSize g)
    /\ (forall (i : nat) x,
          out !! i = Some x ->
          zero_phase (chunkSize g) (phase g + Z.of_nat i) = true -> x = 0)
    /\ ent = random_cells (chunkSize g) (phase g) out ++ ent'.
Proof.
  intros Hwf Hmax Hent. pose proof (len_nonneg buffer) as Hlen.
  destruct (Mixed_loop_cycle (2 + length buffer) g ent buffer 0)
    as (g' & ent' & out & Hrun & Hout & _ & Hwf' & HC & Hph & Hz & Hr);
    try assumption; try (unfold len in *; lia).
  exists g', ent', out. rewrite Z.sub_0_r in Hph.
  change (Z.to_nat 0) with 0%nat in Hz, Hr. rewrite drop_0 in Hr.
  split; [exact Hrun|]. split; [exact Hout|]. split; [exact Hwf'|].
  split; [exact HC|]. split; [exact Hph|]. split; [|exact Hr].
  intros i x Hi. apply Hz. rewrite drop_0. exact Hi.
Qed.

Lemma Mixed_Generate_cycle_witness :
  let g := {| chunkSize := 4; isRandom := false; currentPos := 1 |} in
  let ent := seqZ 1 20 in
  let buffer := replicate 11 9 in
  exists g' ent' out,
    Mixed_Generate g ent buffer = Returned g' ent' out None
    /\ length out = length buffer
    /\ well_formed g' /\ chunkSize g' = chunkSize g
    /\ phase g' = (phase g + len buffer) mod (2 * chunkSize g)
    /\ (forall (i : nat) x,
          out !! i = Some x ->
          zero_phase (chunkSize g) (phase g + Z.of_nat i) = true -> x = 0)
    /\ ent = random_cells (chunkSize g) (phase g) out ++ ent'.
Proof.
  apply (Mixed_Generate_cycle
           {| chunkSize := 4; isRandom := false; currentPos := 1 |}
           (seqZ 1 20) (replicate 11 9)).
  - unfold well_formed, max_int64. simpl. lia.
  - vm_compute. discriminate.
  - vm_compute. lia.
Defined.

(** The same call, computed: three zero bytes end the zero chunk, four
    random bytes follow, then four zero bytes. *)
Example Mixed_Generate_midway :
  Mixed_Generate {| chunkSize := 4; isRandom := false; currentPos := 1 |}
    (seqZ 1 20) (replicate 11 9)
  = Returned {| chunkSize := 4; isRandom := true; currentPos := 0 |}
             (seqZ 5 16) [0; 0; 0; 1; 2; 3; 4; 0; 0; 0; 0] None.
Proof. vm_compute. reflexivity. Qed.

(** X2.  [NewGenerator] succeeds exactly on the names that
    [AvailablePatterns] lists, and the generator it returns answers that
    name to [Name]; on any other string it returns no generator and the
    error [unknown pattern]. *)
Theorem NewGenerator_available (pattern : string) :
  match NewGenerator pattern with
  | (Some g, None) => pattern ∈ AvailablePatterns /\ Name g = pattern
  | (None, Some e) =>
      (pattern ∉ AvailablePatterns)
      /\ e = ("unknown pattern: " +:+ pattern)%string
  | _ => False
  end.
Proof.
  unfold NewGenerator, AvailablePatterns.
  destruct (String.eqb_spec pattern "random") as [->|H1];
    [split; [set_solver|reflexivity]|].
  destruct (String.eqb_spec pattern "sequential") as [->|H2];
    [split; [set_solver|reflexivity]|].
  destruct (String.eqb_spec pattern "zero") as [->|H3];
    [split; [set_solver|reflexivity]|].
  destruct (String.eqb_spec pattern "mixed") as [->|H4];
    [split; [set_solver|reflexivity]|].
  split; [|reflexivity].
  rewrite !elem_of_cons, elem_of_nil. tauto.
Qed.

End GeneratorSpec.

(* ===================================================================== *)
(** ** Work dispatcher *)
(* ===================================================================== *)

Module DispatcherSpec.
Import Generator Worker.

Section Tiling.

Variables chunk total : Z.
Hypothesis chunk_pos : 0 < chunk <= max_int64.
Hypothesis total_pos : 0 < total <= max_int64.

(** The loop, given enough iterations, ends and its items tile the rest of
    the file. *)
Lemma distributeWork_loop_tiles : forall steps i o,
  0 <= o <= total ->
  (Z.to_nat (total - o) < steps)%nat ->
  exists items,
    distributeWork_loop steps never i chunk total o = Some items
    /\ tiles chunk total o items.
Proof using chunk_pos total_pos.
  induction steps as [|steps IH]; intros i o Ho Hsteps; [lia|].
  cbn [distributeWork_loop never].
  destruct (Z.ltb_spec o total) as [Hlt|Hge].
  - assert (Hsub : sub64 total o = total - o).
    { apply sub64_id. unfold in_int64, min_int64, max_int64 in *. lia. }
    rewrite Hsub.
    set (sz := if total - o <? chunk then total - o else chunk).
    assert (Hsz : sz = Z.min chunk (total - o)).
    { unfold sz. destruct (Z.ltb_spec (total - o) chunk); lia. }
    assert (Hadd : add64 o sz = o + sz).
    { apply add64_id. unfold in_int64, min_int64, max_int64 in *. lia. }
    rewrite Hadd.
    destruct (IH (S i) (o + sz)) as (rest & Hrest & Htiles); [lia|lia|].
    rewrite Hrest. eexists. split; [reflexivity|].
    cbn [tiles offset size]. rewrite <- Hsz. auto.
  - exists []. split; [reflexivity|]. cbn. lia.
Qed.

Lemma tiles_lookup : forall items o (i : nat) w,
  tiles chunk total o items ->
  items !! i = Some w ->
  offset w = o + Z.of_nat i * chunk
  /\ offset w < total
  /\ size w = Z.min chunk (total - offset w).
Proof using chunk_pos.
  induction items as [|w0 rest IH]; intros o i w Ht Hi; [discriminate|].
  cbn [tiles] in Ht. destruct Ht as (Hoff & Hlt & Hsize & Hrest).
  destruct i as [|i]; cbn in Hi.
  - inversion Hi; subst w0. rewrite Hoff. repeat split; lia.
  - destruct (IH _ _ _ Hrest Hi) as (Ho' & Hlt' & Hsz').
    repeat split; try assumption. lia.
Qed.

Lemma tiles_last : forall items o w,
  tiles chunk total o items ->
  last items = Some w ->
  offset w + size w = total.
Proof using chunk_pos.
  induction items as [|w0 rest IH]; intros o w Ht Hl; [discriminate|].
  cbn [tiles] in Ht. destruct Ht as (Hoff & Hlt & Hsize & Hrest).
  destruct rest as [|w1 rest].
  - cbn in Hl, Hrest. inversion Hl; subst w0. lia.
  - change (last (w0 :: w1 :: rest)) with (last (w1 :: rest)) in Hl.
    eapply IH; eassumption.
Qed.

Lemma tiles_covers : forall items o,
  tiles chunk total o items ->
  o <= total ->
  forall x, o <= x < total <-> exists w, w ∈ items /\ covers w x.
Proof using chunk_pos.
  induction items as [|w0 rest IH]; intros o Ht Ho x.
  - cbn in Ht. split; [lia|]. intros (w & Hin & _). inversion Hin.
  - cbn [tiles] in Ht. destruct Ht as (Hoff & Hlt & Hsize & Hrest).
    specialize (IH _ Hrest ltac:(lia) x). split.
    + intros Hx. destruct (Z_lt_ge_dec x (o + size w0)) as [Hin|Hout].
      * exists w0. split; [left|]. unfold covers. lia.
      * destruct IH as [IH _]. destruct IH as (w & Hw & Hc); [lia|].
        exists w. split; [right; exact Hw|exact Hc].
    + intros (w & Hin & Hc). apply elem_of_cons in Hin as [->|Hin].
      * unfold covers in Hc. lia.
      * destruct IH as [_ IH]. specialize (IH (ex_intro _ w (conj Hin Hc))). lia.
Qed.

End Tiling.

(** C2.  Run to completion without cancellation, the dispatcher sends
    work items whose offsets strictly increase, whose ranges are pairwise
    disjoint and cover exactly [[0, totalSize)]; every item but the last is
    [chunkSize] long and the last one is [totalSize mod chunkSize] long when
    that is not zero, [chunkSize] long otherwise. *)
Theorem distributeWork_partitions (numCPU numWorkers chunkSize totalSize : Z) :
  0 < totalSize <= max_int64 ->
  0 < chunkSize <= max_int64 ->
  exists items,
    distributeWork (NewWorkerPool numCPU numWorkers chunkSize) never totalSize
      = Some items
    /\ (forall (i j : nat) wi wj,
          (i < j)%nat -> items !! i = Some wi -> items !! j = Some wj ->
          offset wi < offset wj
          /\ forall x, ~ (covers wi x /\ covers wj x))
    /\ (forall x, 0 <= x < totalSize <-> exists w, w ∈ items /\ covers w x)
    /\ (forall (i : nat) w,
          items !! i = Some w -> (S i < length items)%nat ->
          size w = chunkSize)
    /\ (exists w,
          last items = Some w
          /\ size w = if totalSize mod chunkSize =? 0 then chunkSize
                      else totalSize mod chunkSize).
Proof.
  intros Htotal Hchunk.
  assert (Hp : Worker.chunkSize (NewWorkerPool numCPU numWorkers chunkSize)
               = chunkSize).
  { cbn. destruct (Z.leb_spec chunkSize 0); [lia|reflexivity]. }
  unfold distributeWork. rewrite Hp.
  destruct (distributeWork_loop_tiles chunkSize totalSize Hchunk Htotal
              (S (Z.to_nat totalSize)) 0%nat 0) as (items & Hrun & Ht);
    [lia|lia|].
  exists items. split; [exact Hrun|].
  pose proof (tiles_lookup chunkSize totalSize Hchunk items 0) as Hlk.
  split; [|split; [|split]].
  - intros i j wi wj Hij Hi Hj.
    destruct (Hlk _ _ Ht Hi) as (Hoi & _ & Hsi).
    destruct (Hlk _ _ Ht Hj) as (Hoj & _ & _).
    assert (offset wi + chunkSize <= offset wj) by nia.
    split; [lia|]. unfold covers. intros x. lia.
  - apply (tiles_covers chunkSize totalSize Hchunk items 0 Ht). lia.
  - intros i w Hi Hnext.
    destruct (lookup_lt_is_Some_2 items (S i) Hnext) as [w' Hw'].
    destruct (Hlk _ _ Ht Hi) as (Hoi & _ & Hsi).
    destruct (Hlk _ _ Ht Hw') as (Hoj & Hlt & _). nia.
  - destruct items as [|w0 rest] eqn:Hitems.
    { cbn in Ht. lia. }
    rewrite <- Hitems in *.
    assert (Hlast : is_Some (last items)).
    { rewrite last_is_Some. rewrite Hitems. discriminate. }
    destruct Hlast as [w Hw]. exists w. split; [exact Hw|].
    pose proof (tiles_last chunkSize totalSize Hchunk items 0 w Ht Hw) as Hend.
    rewrite last_lookup in Hw.
    destruct (Hlk _ _ Ht Hw) as (Ho & Hlt & Hsz).
    set (n := Z.of_nat (Nat.pred (length items))) in *.
    assert (Htot : totalSize = size w + n * chunkSize) by lia.
    assert (Hrange : 0 < size w <= chunkSize) by lia.
    destruct (Z.eq_dec (size w) chunkSize) as [Heq|Hne].
    + assert (Hmod : totalSize mod chunkSize = 0).
      { rewrite Htot, Heq, Z_mod_plus_full. apply Z_mod_same_full. }
      rewrite Hmod. cbn. exact Heq.
    + assert (Hmod : totalSize mod chunkSize = size w).
      { rewrite Htot, Z_mod_plus_full. apply Z.mod_small. lia. }
      rewrite Hmod. destruct (Z.eqb_spec (size w) 0); [lia|reflexivity].
Qed.

Lemma distributeWork_partitions_witness :
  exists items,
    distributeWork (NewWorkerPool 8 1 1000) never 2500 = Some items
    /\ (forall (i j : nat) wi wj,
          (i < j)%nat -> items !! i = Some wi -> items !! j = Some wj ->
          offset wi < offset wj
          /\ forall x, ~ (covers wi x /\ covers wj x))
    /\ (forall x, 0 <= x < 2500 <-> exists w, w ∈ items /\ covers w x)
    /\ (forall (i : nat) w,
          items !! i = Some w -> (S i < length items)%nat ->
          size w = 1000)
    /\ (exists w,
          last items = Some w
          /\ size w = if 2500 mod 1000 =? 0 then 1000 else 2500 mod 1000).
Proof.
  apply (distributeWork_partitions 8 1 1000 2500).
  - vm_compute. split; [reflexivity|discriminate].
  - vm_compute. split; [reflexivity|discriminate].
Defined.

(** [TestWorkerPoolLastChunkSize]: 2500 bytes in chunks of 1000. *)
Example distributeWork_2500 :
  distributeWork (NewWorkerPool 8 1 1000) never 2500
    = Some [ {| offset := 0; size := 1000 |};
             {| offset := 1000; size := 1000 |};
             {| offset := 2000; size := 500 |} ].
Proof. vm_compute. reflexivity. Qed.

(** Under any pattern of cancellation the loop ends, and what it has sent
    is the beginning of what it sends when it is left alone: it stops at
    the first [select] that takes [ctx.Done()]. *)
Lemma distributeWork_loop_prefix (stop : nat -> bool) (chunk total : Z) :
  0 < chunk <= max_int64 -> total <= max_int64 ->
  forall steps i o,
    0 <= o -> (Z.to_nat (total - o) < steps)%nat ->
    exists full items,
      distributeWork_loop steps never i chunk total o = Some full
      /\ distributeWork_loop steps stop i chunk total o = Some items
      /\ items `prefix_of` full
      /\ (forall j : nat, (j < length items)%nat -> stop (i + j)%nat = false)
      /\ ((length items < length full)%nat ->
          stop (i + length items)%nat = true).
Proof.
  intros Hchunk Htotal.
  induction steps as [|steps IH]; intros i o Ho Hsteps; [lia|].
  cbn [distributeWork_loop never].
  destruct (Z.ltb_spec o total) as [Hlt|Hge].
  2: { exists [], []. repeat split; try reflexivity; cbn; intros; lia. }
  assert (Hsub : sub64 total o = total - o).
  { apply sub64_id. unfold in_int64, min_int64, max_int64 in *. lia. }
  rewrite Hsub.
  set (sz := if total - o <? chunk then total - o else chunk).
  assert (Hsz : 0 < sz <= total - o).
  { unfold sz. destruct (Z.ltb_spec (total - o) chunk); lia. }
  assert (Hadd : add64 o sz = o + sz).
  { apply add64_id. unfold in_int64, min_int64, max_int64 in *. lia. }
  rewrite Hadd.
  destruct (IH (S i) (o + sz)) as (full & items & Hfull & Hitems & Hpre & Hno & Hyes);
    [lia|lia|].
  rewrite Hfull.
  destruct (stop i) eqn:Hstop.
  - exists ({| offset := o; size := sz |} :: full), [].
    split; [reflexivity|]. split; [reflexivity|].
    split; [apply prefix_nil|]. split; [cbn; intros; lia|].
    intros _. cbn. rewrite Nat.add_0_r. exact Hstop.
  - rewrite Hitems.
    exists ({| offset := o; size := sz |} :: full),
           ({| offset := o; size := sz |} :: items).
    split; [reflexivity|]. split; [reflexivity|].
    split; [apply prefix_cons; exact Hpre|]. split.
    + intros [|j] Hj; [rewrite Nat.add_0_r; exact Hstop|].
      cbn in Hj. replace (i + S j)%nat with (S i + j)%nat by lia.
      apply Hno. lia.
    + cbn [length]. intros Hlen.
      replace (i + S (length items))%nat with (S i + length items)%nat by lia.
      apply Hyes. lia.
Qed.

Lemma tiles_length (chunk total : Z) : 0 < chunk ->
  forall items o,
    tiles chunk total o items -> o <= total ->
    Z.of_nat (length items) = (total - o + chunk - 1) / chunk.
Proof.
  intros Hchunk. induction items as [|w rest IH]; intros o Ht Ho.
  - cbn in Ht. subst o. cbn [length].
    rewrite Z.sub_diag. symmetry. apply Z.div_small. lia.
  - cbn [tiles] in Ht. destruct Ht as (Hoff & Hlt & Hsize & Hrest).
    cbn [length]. rewrite Nat2Z.inj_succ, (IH _ Hrest) by lia.
    destruct (Z.min_spec chunk (total - o)) as [[Hc Hm]|[Hc Hm]];
      rewrite Hm in Hsize; rewrite Hsize.
    + replace (total - o + chunk - 1)
        with ((total - (o + chunk) + chunk - 1) + 1 * chunk) by lia.
      rewrite Z.div_add by lia. lia.
    + replace (total - (o + (total - o)) + chunk - 1) with (chunk - 1) by lia.
      rewrite Z.div_small by lia.
      change (Z.succ 0) with 1.
      apply (Z.div_unique_pos _ _ 1 (total - o - 1)); lia.
Qed.

Lemma tiles_sizes (chunk total : Z) : forall items o,
  tiles chunk total o items ->
  foldr (fun w n => size w + n) 0 items = total - o.
Proof.
  induction items as [|w rest IH]; intros o Ht.
  - cbn in *. lia.
  - cbn [tiles] in Ht. destruct Ht as (Hoff & Hlt & Hsize & Hrest).
    cbn [foldr]. rewrite (IH _ Hrest). lia.
Qed.

Lemma NewWorkerPool_chunkSize numCPU numWorkers chunkSize :
  chunkSize <= max_int64 ->
  0 < Worker.chunkSize (NewWorkerPool numCPU numWorkers chunkSize)
    <= max_int64.
Proof.
  intros Hmax. unfold NewWorkerPool. cbn [Worker.chunkSize].
  destruct (Z.leb_spec chunkSize 0); [vm_compute; split; [reflexivity|discriminate]|lia].
Qed.

(** X3.  Whenever the lifetime is cancelled, the dispatcher ends, and the
    items it has sent by then are the first items of the uncancelled
    sequence, without a gap: it stops at the first [select] that takes
    [ctx.Done()] and sends nothing after it.  With a total size of zero or
    less it sends nothing at all. *)
Theorem distributeWork_cancelled (numCPU numWorkers chunkSize totalSize : Z)
    (stop : nat -> bool) :
  chunkSize <= max_int64 -> totalSize <= max_int64 ->
  let p := NewWorkerPool numCPU numWorkers chunkSize in
  exists full items,
    distributeWork p never totalSize = Some full
    /\ distributeWork p stop totalSize = Some items
    /\ items `prefix_of` full
    /\ (forall j : nat, (j < length items)%nat -> stop j = false)
    /\ ((length items < length full)%nat -> stop (length items) = true)
    /\ (totalSize <= 0 -> full = []).
Proof.
  intros Hchunk Htotal p.
  pose proof (NewWorkerPool_chunkSize numCPU numWorkers chunkSize Hchunk)
    as Hpos. fold p in Hpos.
  destruct (distributeWork_loop_prefix stop (Worker.chunkSize p) totalSize
              Hpos Htotal (S (Z.to_nat totalSize)) 0 0)
    as (full & items & Hfull & Hitems & Hpre & Hno & Hyes); [lia|lia|].
  exists full, items. unfold distributeWork.
  split; [exact Hfull|]. split; [exact Hitems|]. split; [exact Hpre|].
  split; [exact Hno|]. split; [exact Hyes|].
  intros Hle. cbn [distributeWork_loop] in Hfull.
  destruct (Z.ltb_spec 0 totalSize); [lia|]. congruence.
Qed.

Lemma distributeWork_cancelled_witness :
  let p := NewWorkerPool 8 2 1000 in
  let stop := fun i : nat => Nat.eqb i 2 in
  exists full items,
    distributeWork p never 3500 = Some full
    /\ distributeWork p stop 3500 = Some items
    /\ items `prefix_of` full
    /\ (forall j : nat, (j < length items)%nat -> stop j = false)
    /\ ((length items < length full)%nat -> stop (length items) = true)
    /\ (3500 <= 0 -> full = []).
Proof.
  apply (distributeWork_cancelled 8 2 1000 3500 (fun i : nat => Nat.eqb i 2)).
  - vm_compute. discriminate.
  - vm_compute. discriminate.
Defined.

(** 3500 bytes in chunks of 1000, cancelled at the third send. *)
Example distributeWork_cancelled_at_2 :
  distributeWork (NewWorkerPool 8 2 1000) (fun i : nat => Nat.eqb i 2) 3500
  = Some [ {| offset := 0; size := 1000 |};
           {| offset := 1000; size := 1000 |} ].
Proof. vm_compute. reflexivity. Qed.

(** X4.  Left alone, the dispatcher sends [ceil (totalSize / chunkSize)]
    items, and their sizes add up to [totalSize]. *)
Theorem distributeWork_count (numCPU numWorkers chunkSize totalSize : Z) :
  0 < totalSize <= max_int64 ->
  0 < chunkSize <= max_int64 ->
  exists items,
    distributeWork (NewWorkerPool numCPU numWorkers chunkSize) never totalSize
      = Some items
    /\ Z.of_nat (length items) = (totalSize + chunkSize - 1) / chunkSize
    /\ foldr (fun w n => size w + n) 0 items = totalSize.
Proof.
  intros Htotal Hchunk.
  assert (Hcs : Worker.chunkSize (NewWorkerPool numCPU numWorkers chunkSize)
                = chunkSize).
  { unfold NewWorkerPool. cbn. destruct (Z.leb_spec chunkSize 0); [lia|reflexivity]. }
  unfold distributeWork. rewrite Hcs.
  destruct (distributeWork_loop_tiles chunkSize totalSize Hchunk Htotal
              (S (Z.to_nat totalSize)) 0 0) as (items & Hrun & Ht); [lia|lia|].
  exists items. split; [exact Hrun|]. split.
  - rewrite (tiles_length chunkSize totalSize ltac:(lia) items 0 Ht) by lia.
    f_equal. lia.
  - rewrite (tiles_sizes chunkSize totalSize items 0 Ht). lia.
Qed.

Lemma distributeWork_count_witness :
  exists items,
    distributeWork (NewWorkerPool 8 2 1000) never 3500 = Some items
    /\ Z.of_nat (length items) = (3500 + 1000 - 1) / 1000
    /\ foldr (fun w n => size w + n) 0 items = 3500.
Proof.
  apply (distributeWork_count 8 2 1000 3500).
  - vm_compute. split; [reflexivity|discriminate].
  - vm_compute. split; [reflexivity|discriminate].
Defined.

End DispatcherSpec.

(* ===================================================================== *)
(** ** Worker loop and buffer pool *)
(* ===================================================================== *)

Module WorkerSpec.
Import Generator Worker.

(** The pool is untouched by the channel and lifetime updates. *)
Lemma worker_acquire_shared p work k original buffer p1 :
  worker_acquire p work k = Some (original, buffer, p1) ->
  errorChan p1 = errorChan p /\ resultChan p1 = resultChan p
  /\ workChan p1 = workChan p /\ cancelled p1 = cancelled p
  /\ numWorkers p1 = numWorkers p /\ chunkSize p1 = chunkSize p.
Proof.
  unfold worker_acquire, bufferPool_Get. intros Hacq.
  destruct (bufferPool p !! k) as [s|];
    destruct (size work <? slen _);
    try destruct (slice_to _ _);
    inversion Hacq; subst; cbn; auto 10.
Qed.

(** What the pooled header is after either failure path of the worker: the
    header the worker took out, over the same array. *)
Lemma ReturnBuffer_head p buffer :
  bufferPool (ReturnBuffer p buffer) = buffer :: bufferPool p.
Proof. reflexivity. Qed.

(** C5, as the code has it.  When [Generate] fails and one case of the
    [select] is ready, the worker cancels the lifetime, puts back the
    header it took from the pool, and returns: nothing is sent on the
    result channel and the item is not queued again.  The error is sent on
    the error channel whenever the lifetime was not cancelled before; when
    it was, the [select] may take the [ctx.Done()] case and drop it. *)
Theorem worker_generator_failure {G} `{GeneratorI G}
    (p : WorkerPool) (g g' : G) (work : workItem) (k : nat) (c : pick)
    (original buffer : slice) (p1 : WorkerPool) (bytes : list Z) (e : error) :
  worker_acquire p work k = Some (original, buffer, p1) ->
  Generate g (contents buffer) = (g', bytes, Some e) ->
  len (errorChan p) < numWorkers p \/ cancelled p = true ->
  exists p',
    worker_process p g work k c = Exits p' g'
    /\ cancelled p' = true
    /\ bufferPool p'
       = {| backing := written_through buffer bytes; slen := slen original |}
           :: bufferPool p1
    /\ resultChan p' = resultChan p
    /\ workChan p' = workChan p
    /\ (cancelled p = false -> errorChan p' = errorChan p ++ [e])
    /\ (errorChan p' = errorChan p ++ [e]
        \/ cancelled p = true /\ errorChan p' = errorChan p).
Proof.
  intros Hacq Hgen Hready.
  destruct (worker_acquire_shared _ _ _ _ _ _ Hacq)
    as (He & Hr & Hw & Hc & Hn & _).
  unfold worker_process. rewrite Hacq, Hgen. rewrite He, Hc, Hn.
  destruct (Z.ltb_spec (len (errorChan p)) (numWorkers p)) as [Hroom|Hfull];
    destruct (cancelled p) eqn:Hdone; destruct c;
    try (exfalso; destruct Hready; [lia|discriminate]);
    eexists; (split; [reflexivity|]); cbn; rewrite ?He, ?Hr, ?Hw;
    repeat split; auto; try discriminate.
Qed.

Lemma worker_generator_failure_witness :
  let p := NewWorkerPool 8 2 4 in
  let work := {| offset := 0; size := 4 |} in
  exists p',
    worker_process p failingGen work 0 First = Exits p' failingGen
    /\ cancelled p' = true
    /\ bufferPool p'
       = {| backing := written_through (make 4) [0; 0; 0; 0];
            slen := slen (make 4) |} :: bufferPool p
    /\ resultChan p' = resultChan p
    /\ workChan p' = workChan p
    /\ (cancelled p = false ->
        errorChan p' = errorChan p ++ ["test error"%string])
    /\ (errorChan p' = errorChan p ++ ["test error"%string]
        \/ cancelled p = true /\ errorChan p' = errorChan p).
Proof.
  apply (worker_generator_failure (NewWorkerPool 8 2 4) failingGen failingGen
           {| offset := 0; size := 4 |} 0 First (make 4) (make 4)
           (NewWorkerPool 8 2 4) [0; 0; 0; 0] "test error"%string).
  - reflexivity.
  - reflexivity.
  - left. vm_compute. reflexivity.
Defined.

(** C5, as stated, fails: with two workers whose generator fails, the
    second one finds the lifetime cancelled by the first, its [select] has
    both cases ready, and when the run time takes [ctx.Done()] the error is
    not published. *)
Lemma worker_generator_failure_unpublished :
  let p := cancel (NewWorkerPool 8 2 4) in
  let work := {| offset := 4; size := 4 |} in
  (Generate failingGen (contents (make 4))).2 = Some "test error"%string
  /\ exists p',
       worker_process p failingGen work 0 Second = Exits p' failingGen
       /\ errorChan p' = errorChan p
       /\ errorChan p' = [].
Proof.
  split; [reflexivity|]. eexists. split; [reflexivity|]. split; reflexivity.
Qed.

(** The worker's own releases keep every pooled buffer at the chunk
    length: on both paths it puts back the pointer it took out. *)
Lemma worker_process_pool_full {G} `{GeneratorI G}
    (p : WorkerPool) (g : G) (work : workItem) (k : nat) (c : pick) :
  pool_full p ->
  match worker_process p g work k c with
  | Exits p' _ | Loops p' _ => pool_full p'
  | Blocks | Panics => True
  end.
Proof.
  intros Hfull. unfold worker_process.
  destruct (worker_acquire p work k) as [[[original buffer] p1]|] eqn:Hacq;
    [|trivial].
  assert (Hp1 : pool_full p1 /\ slen original = chunkSize p1).
  { unfold worker_acquire, bufferPool_Get in Hacq. unfold pool_full in *.
    destruct (bufferPool p !! k) as [s|] eqn:Hk.
    - assert (Hs : slen s = chunkSize p)
        by exact (Forall_lookup_1 _ _ _ _ Hfull Hk).
      assert (Hrest : Forall (fun s => slen s = chunkSize p)
                        (delete k (bufferPool p))).
      { apply Forall_forall. intros x Hx.
        rewrite Forall_forall in Hfull. apply Hfull.
        eapply elem_of_sublist; [exact Hx|apply sublist_delete]. }
      destruct (size work <? slen s);
        [destruct (slice_to s (size work))|];
        inversion Hacq; subst; cbn; auto.
    - destruct (size work <? slen (make (chunkSize p)));
        [destruct (slice_to (make (chunkSize p)) (size work))|];
        inversion Hacq; subst; cbn; auto. }
  destruct Hp1 as [Hfull1 Horig].
  destruct (Generate g (contents buffer)) as [[g' bytes] [e|]];
    repeat match goal with
           | |- context [if ?b then _ else _] => destruct b
           | |- context [match ?x with First => _ | Second => _ end] =>
               destruct x
           end;
    try exact I;
    unfold pool_full in *; cbn; try constructor; cbn; auto.
Qed.

(** [ReturnBuffer] keeps it so exactly when it is given a slice of the
    chunk length. *)
Lemma ReturnBuffer_pool_full p buffer :
  pool_full p ->
  pool_full (ReturnBuffer p buffer) <-> slen buffer = chunkSize p.
Proof.
  intros Hfull. unfold pool_full, ReturnBuffer, bufferPool_Put. cbn.
  rewrite Forall_cons. tauto.
Qed.

(** The release through [ReturnBuffer], step by step, with chunks of 8
    bytes.  A worker cuts its buffer down to 5 bytes for a short item and
    publishes it; the sink hands that 5-byte slice to [ReturnBuffer]; the
    pool now holds a header of length 5 (capacity 8), the next [Get]
    returns it, and a worker that needs 8 bytes for its item publishes
    5. *)
Lemma ReturnBuffer_pools_truncated_slice :
  let p0 := NewWorkerPool 8 2 8 in
  exists p1 r,
    worker_process p0 () {| offset := 16; size := 5 |} 0 Second = Loops p1 ()
    /\ resultChan p1 = [r]
    /\ slen (buffer r) = 5 /\ cap (buffer r) = 8
    /\ let p2 := ReturnBuffer (set_resultChan p1 []) (buffer r) in
       slen (bufferPool_Get p2 0).1 = 5
       /\ chunkSize p2 = 8
       /\ exists p3 r',
            worker_process p2 () {| offset := 8; size := 8 |} 0 Second
              = Loops p3 ()
            /\ resultChan p3 = [r']
            /\ result_offset r' = 8
            /\ len (contents (buffer r')) = 5.
Proof.
  eexists. eexists. split; [vm_compute; reflexivity|].
  split; [reflexivity|]. split; [reflexivity|]. split; [reflexivity|].
  cbv zeta. split; [reflexivity|]. split; [reflexivity|].
  eexists. eexists. split; [vm_compute; reflexivity|].
  split; [reflexivity|]. split; reflexivity.
Qed.

(** The worker's own release, on the cancellation path, keeps the full
    length: it stores the pointer it took out of the pool. *)
Example worker_cancelled_pools_full_slice :
  let p0 := cancel (NewWorkerPool 8 2 8) in
  exists p1,
    worker_process p0 () {| offset := 16; size := 5 |} 0 First = Exits p1 ()
    /\ slen <$> bufferPool p1 = [8].
Proof. eexists. split; [vm_compute; reflexivity|]. reflexivity. Qed.

Lemma make_ok n : 0 <= n -> slice_ok (make n) /\ slen (make n) = n.
Proof.
  intros Hn. unfold slice_ok, make, cap, len. cbn.
  rewrite length_replicate. lia.
Qed.

(** What the worker holds once it has taken its buffer: the pooled
    header at full length, and its own slice cut down to the item. *)
Lemma worker_acquire_full p work k :
  pool_full p -> pool_valid p -> 0 < chunkSize p ->
  0 <= size work ->
  exists original buffer p1,
    worker_acquire p work k = Some (original, buffer, p1)
    /\ slen original = chunkSize p /\ slice_ok original
    /\ backing buffer = backing original
    /\ slen buffer = Z.min (size work) (chunkSize p)
    /\ pool_full p1 /\ pool_valid p1
    /\ bufferPool p1 = match bufferPool p !! k with
                       | Some _ => delete k (bufferPool p)
                       | None => bufferPool p
                       end.
Proof.
  intros Hfull Hvalid Hchunk Hsize.
  unfold worker_acquire, bufferPool_Get, pool_full, pool_valid in *.
  assert (Hcut : forall (s : slice) (p1 : WorkerPool),
    slen s = chunkSize p -> slice_ok s ->
    exists buffer,
      (if size work <? slen s
       then match slice_to s (size work) with
            | Some buffer => Some (s, buffer, p1)
            | None => None
            end
       else Some (s, s, p1)) = Some (s, buffer, p1)
      /\ backing buffer = backing s
      /\ slen buffer = Z.min (size work) (chunkSize p)).
  { intros s p1 Hs [Hs0 Hs1]. rewrite Hs.
    destruct (Z.ltb_spec (size work) (chunkSize p)) as [Hlt|Hge].
    - unfold slice_to.
      destruct (Z.ltb_spec (size work) 0); [lia|].
      destruct (Z.ltb_spec (cap s) (size work)); [lia|]. cbn [orb].
      eexists. split; [reflexivity|]. cbn. split; [reflexivity|lia].
    - exists s. split; [reflexivity|]. split; [reflexivity|lia]. }
  destruct (bufferPool p !! k) as [s|] eqn:Hk.
  - pose proof (Forall_lookup_1 _ _ _ _ Hfull Hk) as Hs.
    pose proof (Forall_lookup_1 _ _ _ _ Hvalid Hk) as Hok.
    destruct (Hcut s (set_bufferPool p (delete k (bufferPool p))) Hs Hok)
      as (buffer & Heq & Hb & Hl).
    exists s, buffer, (set_bufferPool p (delete k (bufferPool p))).
    split; [exact Heq|]. cbn [set_bufferPool bufferPool chunkSize].
    split; [exact Hs|]. split; [exact Hok|]. split; [exact Hb|].
    split; [exact Hl|].
    split; [apply Forall_delete; exact Hfull|].
    split; [apply Forall_delete; exact Hvalid|reflexivity].
  - destruct (make_ok (chunkSize p) ltac:(lia)) as [Hok Hs].
    destruct (Hcut (make (chunkSize p)) p Hs Hok) as (buffer & Heq & Hb & Hl).
    exists (make (chunkSize p)), buffer, p.
    split; [exact Heq|]. split; [exact Hs|]. split; [exact Hok|].
    split; [exact Hb|]. split; [exact Hl|]. auto.
Qed.

Lemma contents_length (s : slice) :
  slice_ok s -> len (contents s) = slen s.
Proof.
  unfold slice_ok, contents, cap, len. intros [H0 H1].
  rewrite length_take. lia.
Qed.

Lemma written_through_length (buffer : slice) (bytes : list Z) :
  slice_ok buffer -> len bytes = len (contents buffer) ->
  len (written_through buffer bytes) = cap buffer.
Proof.
  intros Hok Hb. rewrite (contents_length _ Hok) in Hb.
  destruct Hok as [H0 H1].
  unfold written_through, cap, len in *.
  rewrite length_app, length_drop. lia.
Qed.

(** X5.  A worker whose pool holds full-length buffers never panics on an
    item of size between 0 and the chunk length: it cuts its slice down to
    the size of the item, and when the generator fills it without error
    and the result channel has room, it publishes one result that carries
    the offset of the item and exactly the bytes the generator produced,
    and goes back to the head of its loop; the buffer stays out of the
    pool. *)
Theorem worker_publishes_item {G} `{GeneratorI G}
    (p : WorkerPool) (g : G) (work : workItem) (k : nat) (c : pick) :
  pool_full p -> pool_valid p -> 0 < chunkSize p ->
  0 <= size work <= chunkSize p ->
  cancelled p = false ->
  len (resultChan p) < mul64 (numWorkers p) 2 ->
  exists original buffer p1,
    worker_acquire p work k = Some (original, buffer, p1)
    /\ len (contents buffer) = size work
    /\ forall g' bytes,
         Generate g (contents buffer) = (g', bytes, None) ->
         len bytes = size work ->
         exists r p',
           worker_process p g work k c = Loops p' g'
           /\ resultChan p' = resultChan p ++ [r]
           /\ result_offset r = offset work
           /\ contents (Worker.buffer r) = bytes
           /\ bufferPool p' = bufferPool p1
           /\ errorChan p' = errorChan p
           /\ cancelled p' = false.
Proof.
  intros Hfull Hvalid Hchunk Hsize Hlive Hroom.
  destruct (worker_acquire_full p work k Hfull Hvalid Hchunk ltac:(lia))
    as (original & buffer & p1 & Hacq & Hso & Hok & Hb & Hl & _ & _ & _).
  rewrite Z.min_l in Hl by lia.
  assert (Hbok : slice_ok buffer).
  { destruct Hok as [H0 H1]. unfold slice_ok, cap in *. rewrite Hb, Hl. lia. }
  pose proof (contents_length buffer Hbok) as Hclen. rewrite Hl in Hclen.
  exists original, buffer, p1. split; [exact Hacq|]. split; [exact Hclen|].
  intros g' bytes Hgen Hblen.
  destruct (worker_acquire_shared _ _ _ _ _ _ Hacq)
    as (He & Hr & Hw & Hc & Hn & _).
  unfold worker_process. rewrite Hacq, Hgen. rewrite Hc, Hr, Hn, Hlive.
  destruct (Z.ltb_spec (len (resultChan p)) (mul64 (numWorkers p) 2));
    [|lia].
  eexists. eexists. split; [destruct c; reflexivity|].
  cbn. split; [reflexivity|]. cbn. split; [reflexivity|].
  split.
  { unfold contents, written_through. cbn [backing slen].
    rewrite Hl. rewrite take_app_length'; [reflexivity|].
    unfold len in Hblen. lia. }
  split; [reflexivity|].
  split; [exact He|]. rewrite Hc. exact Hlive.
Qed.

Lemma worker_publishes_item_witness :
  let p := NewWorkerPool 8 2 4 in
  let g := {| counter := 7 |} in
  let work := {| offset := 8; size := 3 |} in
  exists original buffer p1,
    worker_acquire p work 0 = Some (original, buffer, p1)
    /\ len (contents buffer) = size work
    /\ forall g' bytes,
         Generate g (contents buffer) = (g', bytes, None) ->
         len bytes = size work ->
         exists r p',
           worker_process p g work 0 First = Loops p' g'
           /\ resultChan p' = resultChan p ++ [r]
           /\ result_offset r = offset work
           /\ contents (Worker.buffer r) = bytes
           /\ bufferPool p' = bufferPool p1
           /\ errorChan p' = errorChan p
           /\ cancelled p' = false.
Proof.
  apply (worker_publishes_item (NewWorkerPool 8 2 4) {| counter := 7 |}
           {| offset := 8; size := 3 |} 0 First).
  - constructor.
  - constructor.
  - reflexivity.
  - simpl. lia.
  - reflexivity.
  - vm_compute. reflexivity.
Defined.

(** The last item of a file, three bytes long, with chunks of four. *)
Example worker_publishes_short_item :
  worker_process (NewWorkerPool 8 2 4) {| counter := 7 |}
    {| offset := 8; size := 3 |} 0 First
  = Loops (set_resultChan (NewWorkerPool 8 2 4)
             [ {| buffer := {| backing := [7; 8; 9; 0]; slen := 3 |};
                  result_offset := 8 |} ])
          {| counter := 10 |}.
Proof. vm_compute. reflexivity. Qed.

(** X6.  Whatever the worker does with an item of non-negative size, it
    does not panic, and it leaves the pool as it should be: every idle
    buffer has the chunk length and lies within its capacity.  Both paths
    on which the worker gives its buffer back put back the header it took
    out, not the slice it cut down. *)
Theorem worker_keeps_pool {G} `{GeneratorI G}
    (p : WorkerPool) (g : G) (work : workItem) (k : nat) (c : pick) :
  fills_in_place G ->
  pool_full p -> pool_valid p -> 0 < chunkSize p ->
  0 <= size work ->
  match worker_process p g work k c with
  | Exits p' _ | Loops p' _ =>
      pool_full p' /\ pool_valid p' /\ chunkSize p' = chunkSize p
  | Blocks => True
  | Panics => False
  end.
Proof.
  intros Hfill Hfull Hvalid Hchunk Hsize.
  destruct (worker_acquire_full p work k Hfull Hvalid Hchunk Hsize)
    as (original & buffer & p1 & Hacq & Hso & Hok & Hb & Hl & Hfull1
        & Hvalid1 & _).
  destruct (worker_acquire_shared _ _ _ _ _ _ Hacq)
    as (He & Hr & Hw & Hc & Hn & Hcs).
  assert (Hbok : slice_ok buffer).
  { destruct Hok as [H0 H1]. unfold slice_ok, cap in *. rewrite Hb, Hl. lia. }
  unfold worker_process. rewrite Hacq.
  pose proof (Hfill g (contents buffer)) as Hlen.
  destruct (Generate g (contents buffer)) as [[g' bytes] err].
  cbn [fst snd] in Hlen.
  assert (Hptr : slen original = chunkSize p1
                 /\ slice_ok {| backing := written_through buffer bytes;
                                slen := slen original |}).
  { split; [congruence|]. destruct Hok as [H0 H1].
    unfold slice_ok, cap. cbn [backing slen].
    pose proof (written_through_length buffer bytes Hbok) as Hwt.
    unfold cap, len in *. rewrite Hwt by lia. rewrite Hb. lia. }
  destruct Hptr as [Hps Hpok].
  unfold pool_full, pool_valid in *.
  destruct err as [e|];
    repeat match goal with
           | |- context [if ?b then _ else _] => destruct b
           | |- context [match ?x with First => _ | Second => _ end] =>
               destruct x
           end;
    try exact I; cbn; repeat split; try constructor; cbn; auto.
Qed.

Lemma worker_keeps_pool_witness :
  match worker_process (NewWorkerPool 8 2 4) failingGen
          {| offset := 0; size := 4 |} 0 First with
  | Exits p' _ | Loops p' _ =>
      pool_full p' /\ pool_valid p'
      /\ chunkSize p' = chunkSize (NewWorkerPool 8 2 4)
  | Blocks => True
  | Panics => False
  end.
Proof.
  apply (worker_keeps_pool (NewWorkerPool 8 2 4) failingGen
           {| offset := 0; size := 4 |} 0 First).
  - intros g b. reflexivity.
  - constructor.
  - constructor.
  - reflexivity.
  - simpl. lia.
Defined.

(** The loop body on an item as long as a chunk: what it publishes is as
    long as a chunk as well, and the pool stays as it should be. *)
Lemma worker_process_full {G} `{GeneratorI G}
    (p : WorkerPool) (g : G) (work : workItem) (k : nat) (c : pick) :
  fills_in_place G ->
  pool_full p -> pool_valid p -> 0 < chunkSize p ->
  size work = chunkSize p ->
  match worker_process p g work k c with
  | Loops p' _ =>
      pool_full p' /\ pool_valid p' /\ chunkSize p' = chunkSize p
      /\ workChan p' = workChan p
      /\ exists r, resultChan p' = resultChan p ++ [r]
                   /\ slen (buffer r) = chunkSize p
                   /\ slice_ok (buffer r)
  | Exits p' _ =>
      pool_full p' /\ pool_valid p' /\ chunkSize p' = chunkSize p
      /\ workChan p' = workChan p /\ resultChan p' = resultChan p
  | Blocks => True
  | Panics => False
  end.
Proof.
  intros Hfill Hfull Hvalid Hchunk Hsize.
  destruct (worker_acquire_full p work k Hfull Hvalid Hchunk ltac:(lia))
    as (original & buf & p1 & Hacq & Hso & Hok & Hb & Hl & Hfull1
        & Hvalid1 & _).
  rewrite Z.min_l in Hl by lia.
  destruct (worker_acquire_shared _ _ _ _ _ _ Hacq)
    as (He & Hr & Hw & Hc & Hn & Hcs).
  assert (Hbok : slice_ok buf).
  { destruct Hok as [H0 H1]. unfold slice_ok, cap in *. rewrite Hb, Hl. lia. }
  unfold worker_process. rewrite Hacq.
  pose proof (Hfill g (contents buf)) as Hlen.
  destruct (Generate g (contents buf)) as [[g' bytes] err].
  cbn [fst snd] in Hlen.
  pose proof (written_through_length buf bytes Hbok) as Hwt.
  assert (Hcap : len (written_through buf bytes) = cap buf)
    by (apply Hwt; unfold len; lia).
  assert (Hptr : slice_ok {| backing := written_through buf bytes;
                             slen := slen original |}).
  { destruct Hok as [H0 H1]. unfold slice_ok, cap in *. cbn [backing slen].
    rewrite Hcap, Hb. lia. }
  assert (Hres : slice_ok {| backing := written_through buf bytes;
                             slen := slen buf |}).
  { destruct Hbok as [H0 H1]. unfold slice_ok, cap in *. cbn [backing slen].
    rewrite Hcap. lia. }
  unfold pool_full, pool_valid in *.
  destruct err as [e|];
    repeat match goal with
           | |- context [if ?b then _ else _] => destruct b
           | |- context [match ?x with First => _ | Second => _ end] =>
               destruct x
           end;
    try exact I; cbn;
    repeat match goal with
           | |- _ /\ _ => split
           | |- Forall _ (_ :: _) => constructor
           | |- exists r, _ ++ [?x] = _ ++ [r] /\ _ => exists x; cbn
           end;
    cbn; try congruence; auto.
Qed.

End WorkerSpec.

(* ===================================================================== *)
(** ** File writer *)
(* ===================================================================== *)

Module WriterSpec.
Import Writer.

Lemma total_len_nonneg calls : 0 <= total_len calls.
Proof.
  induction calls as [|c rest IH]; cbn; [lia|].
  pose proof (len_nonneg (data c)). lia.
Qed.

Lemma total_len_app xs ys : total_len (xs ++ ys) = total_len xs + total_len ys.
Proof. induction xs as [|c rest IH]; cbn; lia. Qed.

Lemma total_len_take k calls : total_len (take k calls) <= total_len calls.
Proof.
  rewrite <- (take_drop k calls) at 2. rewrite total_len_app.
  pose proof (total_len_nonneg (drop k calls)). lia.
Qed.

Section Partition.

Context (P : call -> Prop) `{forall c, Decision (P c)}.

Lemma total_len_filter calls :
  total_len calls
  = total_len (filter P calls) + total_len (filter (fun c => ~ P c) calls).
Proof.
  induction calls as [|c rest IH]; [reflexivity|].
  destruct (decide (P c)) as [Hc|Hc].
  - rewrite (filter_cons_True P) by assumption.
    rewrite (filter_cons_False (fun c => ~ P c)) by tauto. cbn. lia.
  - rewrite (filter_cons_False P) by assumption.
    rewrite (filter_cons_True (fun c => ~ P c)) by assumption. cbn. lia.
Qed.

Lemma pairwise_disjoint_filter calls :
  pairwise_disjoint calls -> pairwise_disjoint (filter P calls).
Proof.
  induction calls as [|c rest IH]; [trivial|]. intros [Hc Hrest].
  destruct (decide (P c)) as [Hp|Hp].
  - rewrite filter_cons_True by assumption. split; [|auto].
    rewrite Forall_forall in *. intros c' Hin.
    apply list_elem_of_filter in Hin as [_ Hin]. auto.
  - rewrite filter_cons_False by assumption. auto.
Qed.

End Partition.

(** Two non-empty disjoint ranges lie one after the other. *)
Lemma disjoint_apart c c' :
  disjoint c c' -> 0 < len (data c) -> 0 < len (data c') ->
  at_offset c' + len (data c') <= at_offset c
  \/ at_offset c + len (data c) <= at_offset c'.
Proof.
  intros Hd Hc Hc'.
  destruct (Z_le_gt_dec (at_offset c' + len (data c')) (at_offset c)) as [|Hl];
    [left; assumption|].
  destruct (Z_le_gt_dec (at_offset c + len (data c)) (at_offset c')) as [|Hr];
    [right; assumption|].
  exfalso. apply (Hd (Z.max (at_offset c) (at_offset c'))).
  unfold in_range. lia.
Qed.

(** Non-empty, pairwise disjoint ranges inside [[a, b)] are no longer than
    [b - a] altogether. *)
Lemma disjoint_ranges_fit : forall (n : nat) calls a b,
  (length calls <= n)%nat ->
  a <= b ->
  Forall (fun c => a <= at_offset c /\ at_offset c + len (data c) <= b) calls ->
  Forall (fun c => 0 < len (data c)) calls ->
  pairwise_disjoint calls ->
  total_len calls <= b - a.
Proof.
  induction n as [|n IH]; intros calls a b Hn Hab Hin Hpos Hdis.
  - destruct calls; [cbn; lia|cbn in Hn; lia].
  - destruct calls as [|c rest]; [cbn; lia|].
    cbn in Hn. destruct Hdis as [Hc Hrest].
    apply Forall_cons in Hin as [Hcin Hin].
    apply Forall_cons in Hpos as [Hcpos Hpos].
    set (before := fun c' : call =>
           at_offset c' + len (data c') <= at_offset c).
    assert (Hl : total_len (filter before rest) <= at_offset c - a).
    { apply IH.
      - pose proof (length_filter before rest). lia.
      - lia.
      - rewrite Forall_forall in *. intros c' Hc'.
        apply list_elem_of_filter in Hc' as [Hb Hc'].
        specialize (Hin _ Hc'). unfold before in Hb. lia.
      - rewrite Forall_forall in *. intros c' Hc'.
        apply list_elem_of_filter in Hc' as [_ Hc']. auto.
      - apply pairwise_disjoint_filter, Hrest. }
    assert (Hr : total_len (filter (fun c' => ~ before c') rest)
                 <= b - (at_offset c + len (data c))).
    { apply IH.
      - pose proof (length_filter (fun c' => ~ before c') rest). lia.
      - lia.
      - rewrite Forall_forall in *. intros c' Hc'.
        apply list_elem_of_filter in Hc' as [Hb Hc'].
        specialize (Hin _ Hc'). specialize (Hpos _ Hc').
        specialize (Hc _ Hc').
        destruct (disjoint_apart _ _ Hc Hcpos Hpos); unfold before in Hb; lia.
      - rewrite Forall_forall in *. intros c' Hc'.
        apply list_elem_of_filter in Hc' as [_ Hc']. auto.
      - apply pairwise_disjoint_filter, Hrest. }
    cbn [total_len].
    rewrite (total_len_filter before rest). lia.
Qed.

(** The same with empty calls among them. *)
Lemma disjoint_calls_fit calls total :
  0 <= total ->
  Forall (inside total) calls ->
  pairwise_disjoint calls ->
  total_len calls <= total.
Proof.
  intros Htotal Hin Hdis.
  set (nonempty := fun c : call => 0 < len (data c)).
  rewrite (total_len_filter nonempty calls).
  assert (Hzero : total_len (filter (fun c => ~ nonempty c) calls) = 0).
  { clear. induction calls as [|c rest IH]; [reflexivity|].
    destruct (decide (nonempty c)) as [Hc|Hc].
    - rewrite filter_cons_False by tauto. exact IH.
    - rewrite filter_cons_True by assumption. cbn [total_len]. rewrite IH.
      unfold nonempty in Hc. pose proof (len_nonneg (data c)). lia. }
  rewrite Hzero, Z.add_0_r.
  replace total with (total - 0) by lia.
  apply (disjoint_ranges_fit (length (filter nonempty calls))); try lia.
  - rewrite Forall_forall in *. intros c Hc.
    apply list_elem_of_filter in Hc as [_ Hc]. apply Hin, Hc.
  - rewrite Forall_forall. intros c Hc.
    apply list_elem_of_filter in Hc as [Hc _]. exact Hc.
  - apply pairwise_disjoint_filter, Hdis.
Qed.

(** Case analysis of one [WriteAt], in the order of its tests. *)
Ltac writeat_cases w os data offset :=
  unfold WriteAt;
  destruct (Z.eqb_spec (len data) 0);
  [|destruct (file w);
    [destruct (Z.ltb_spec offset 0);
     [|destruct (Z.ltb_spec (totalSize w) (add64 offset (len data)));
       [|destruct (seek_err os);
         [|destruct (write_err os);
           [|destruct (Z.eqb_spec (write_n os) (len data))]]]]|]];
  cbn [negb fst snd].

(** A call that fails leaves the counter alone. *)
Lemma WriteAt_error w os data offset w' e :
  WriteAt w os data offset = (w', Some e) ->
  written w' = written w /\ totalSize w' = totalSize w.
Proof.
  writeat_cases w os data offset; intros Heq; inversion Heq; subst; auto.
Qed.

(** A call that succeeds with data went through every test and every
    system call, and adds the data length to the counter. *)
Lemma WriteAt_success w os data offset w' :
  WriteAt w os data offset = (w', None) ->
  totalSize w' = totalSize w
  /\ (len data = 0 /\ w' = w
      \/ 0 < len data
         /\ is_Some (file w) /\ 0 <= offset
         /\ add64 offset (len data) <= totalSize w
         /\ seek_err os = None /\ write_err os = None
         /\ write_n os = len data
         /\ written w' = add64 (written w) (len data)).
Proof.
  pose proof (len_nonneg data).
  writeat_cases w os data offset; intros Heq; inversion Heq; subst;
    cbn; split; auto.
  right. rewrite e. repeat split; auto; try lia.
  all: try (destruct (seek_err os); [discriminate|reflexivity]).
Qed.

(** A call rejected by the bounds tests leaves the writer as it was. *)
Lemma WriteAt_out_of_bounds w os data offset :
  0 < len data ->
  offset < 0 \/ 0 <= offset /\ totalSize w < offset + len data <= max_int64 ->
  exists e, WriteAt w os data offset = (w, Some e).
Proof.
  intros Hdata Hout.
  writeat_cases w os data offset; try (eexists; reflexivity); try lia.
  all: exfalso; destruct Hout as [|[Hoff Hpast]]; [lia|];
    rewrite add64_id in * by (unfold in_int64, min_int64, max_int64 in *; lia);
    lia.
Qed.

Lemma WriteAt_empty w os offset : WriteAt w os [] offset = (w, None).
Proof. reflexivity. Qed.

(** One call moves the counter forward by at most its data length, as long
    as the sum fits in an [int64]. *)
Lemma do_call_written w c :
  0 <= written w ->
  written w + len (data c) <= max_int64 ->
  written w <= written (do_call w c).1 <= written w + len (data c)
  /\ totalSize (do_call w c).1 = totalSize w.
Proof.
  intros Hw Hfit. pose proof (len_nonneg (data c)).
  unfold do_call.
  destruct (WriteAt w (reply c) (data c) (at_offset c)) as [w' [e|]] eqn:Hcall;
    cbn [fst].
  - apply WriteAt_error in Hcall as [-> ->]. lia.
  - apply WriteAt_success in Hcall as [-> [[? ->]|Hok]]; [lia|].
    destruct Hok as (_ & _ & _ & _ & _ & _ & _ & ->).
    rewrite add64_id by (unfold in_int64, min_int64, max_int64 in *; lia).
    lia.
Qed.

Lemma run_app w xs ys : run w (xs ++ ys) = run (run w xs) ys.
Proof. unfold run. apply fold_left_app. Qed.

Lemma run_written : forall calls w,
  0 <= written w ->
  written w + total_len calls <= max_int64 ->
  written w <= written (run w calls) <= written w + total_len calls
  /\ totalSize (run w calls) = totalSize w.
Proof.
  induction calls as [|c rest IH]; intros w Hw Hfit; cbn [total_len] in *.
  - cbn. lia.
  - pose proof (total_len_nonneg rest).
    destruct (do_call_written w c Hw ltac:(lia)) as [Hstep Htot].
    change (run w (c :: rest)) with (run (do_call w c).1 rest).
    destruct (IH (do_call w c).1 ltac:(lia) ltac:(lia)) as [Hrun Htot'].
    rewrite Htot', Htot. lia.
Qed.

(** C4, as the code has it.  Over [WriteAt] calls whose ranges are pairwise
    disjoint and inside [[0, totalSize)], [Written] never decreases and
    never exceeds [TotalSize]; a call adds its data length to [Written]
    when it returns nil (and then, if it had data, the seek and the write
    went through in full) and leaves it alone when it returns an error; a
    call with data whose offset is negative, or whose range ends past
    [totalSize] (the end being representable as an [int64]), returns an
    error and leaves the writer as it was; a call without data returns nil
    whatever its offset. *)
Theorem WriteAt_written_counter (w0 : FileWriter) (calls : list call) :
  written w0 = 0 ->
  0 < totalSize w0 <= max_int64 ->
  Forall (inside (totalSize w0)) calls ->
  pairwise_disjoint calls ->
  (forall k : nat,
     let before := run w0 (take k calls) in
     let after := run w0 (take (S k) calls) in
     0 <= Written before <= Written after
     /\ Written after <= TotalSize after)
  /\ (forall (k : nat) (c : call),
        calls !! k = Some c ->
        let before := run w0 (take k calls) in
        match do_call before c with
        | (after, None) =>
            Written after = Written before + len (data c)
            /\ (0 < len (data c) ->
                seek_err (reply c) = None /\ write_err (reply c) = None
                /\ write_n (reply c) = len (data c))
        | (after, Some _) => Written after = Written before
        end)
  /\ (forall (w : FileWriter) os data offset,
        0 < len data ->
        offset < 0
        \/ 0 <= offset /\ totalSize w < offset + len data <= max_int64 ->
        exists e, WriteAt w os data offset = (w, Some e))
  /\ (forall (w : FileWriter) os offset, WriteAt w os [] offset = (w, None)).
Proof.
  intros Hzero Htotal Hin Hdis. unfold Written, TotalSize.
  assert (Hfit : total_len calls <= totalSize w0)
    by (apply disjoint_calls_fit; [lia|assumption|assumption]).
  assert (Hprefix : forall k,
            0 <= written (run w0 (take k calls)) <= total_len (take k calls)
            /\ total_len (take k calls) <= totalSize w0
            /\ totalSize (run w0 (take k calls)) = totalSize w0).
  { intros k. pose proof (total_len_take k calls).
    destruct (run_written (take k calls) w0) as [Hw Ht]; [lia|lia|].
    rewrite Ht. lia. }
  split; [|split; [|split]].
  - intros k. cbv zeta.
    destruct (Hprefix k) as (Hb & _ & _).
    destruct (Hprefix (S k)) as (Ha & Hle & Ht). rewrite Ht.
    split; [|lia]. split; [lia|].
    destruct (calls !! k) as [c|] eqn:Hk.
    + rewrite (take_S_r _ _ _ Hk) in *. rewrite run_app.
      rewrite total_len_app in Hle. cbn [total_len] in Hle.
      change (run (run w0 (take k calls)) [c])
        with (do_call (run w0 (take k calls)) c).1.
      apply do_call_written; lia.
    + apply lookup_ge_None in Hk.
      rewrite !take_ge by lia. lia.
  - intros k c Hk. cbv zeta.
    destruct (Hprefix k) as (Hb & _ & _).
    destruct (Hprefix (S k)) as (_ & Hle & _).
    rewrite (take_S_r _ _ _ Hk), total_len_app in Hle.
    cbn [total_len] in Hle.
    unfold do_call.
    destruct (WriteAt (run w0 (take k calls)) (reply c) (data c) (at_offset c))
      as [after [e|]] eqn:Hcall.
    + apply WriteAt_error in Hcall as [-> _]. reflexivity.
    + apply WriteAt_success in Hcall as [_ [[Hlen ->]|Hok]].
      * split; lia.
      * destruct Hok as (Hpos & _ & _ & _ & Hs & Hw & Hn & ->).
        rewrite add64_id
          by (unfold in_int64, min_int64, max_int64 in *; lia).
        auto.
  - apply WriteAt_out_of_bounds.
  - apply WriteAt_empty.
Qed.

Lemma WriteAt_written_counter_witness :
  let w0 := {| file := Some {| bytes := replicate 10 0; position := 0 |};
               written := 0; totalSize := 10; path := "out.dat" |} in
  let calls := [ {| reply := os_ok 3; data := [1; 2; 3];
                    at_offset := 4 |};
                 {| reply := os_ok 2; data := [9; 9]; at_offset := 0 |} ] in
  (forall k : nat,
     let before := run w0 (take k calls) in
     let after := run w0 (take (S k) calls) in
     0 <= Written before <= Written after
     /\ Written after <= TotalSize after)
  /\ (forall (k : nat) (c : call),
        calls !! k = Some c ->
        let before := run w0 (take k calls) in
        match do_call before c with
        | (after, None) =>
            Written after = Written before + len (data c)
            /\ (0 < len (data c) ->
                seek_err (reply c) = None /\ write_err (reply c) = None
                /\ write_n (reply c) = len (data c))
        | (after, Some _) => Written after = Written before
        end)
  /\ (forall (w : FileWriter) os data offset,
        0 < len data ->
        offset < 0
        \/ 0 <= offset /\ totalSize w < offset + len data <= max_int64 ->
        exists e, WriteAt w os data offset = (w, Some e))
  /\ (forall (w : FileWriter) os offset, WriteAt w os [] offset = (w, None)).
Proof.
  apply WriteAt_written_counter.
  - reflexivity.
  - vm_compute. split; [reflexivity|discriminate].
  - repeat constructor; vm_compute; discriminate.
  - cbn. repeat split; repeat constructor.
    intros x. unfold in_range, len. cbn. lia.
Defined.

(** C4, as stated, fails: a call with a negative offset and no data
    returns nil, not an error (and so does one past the end of the file,
    the "empty write" of [TestWriteAtValidation]). *)
Lemma WriteAt_negative_offset_accepted :
  let w := {| file := Some {| bytes := replicate 100 0; position := 0 |};
              written := 0; totalSize := 100; path := "out.dat" |} in
  WriteAt w (os_ok 0) [] (-1) = (w, None)
  /\ WriteAt w (os_ok 0) [] 150 = (w, None).
Proof. split; reflexivity. Qed.

(** The run of the witness above, computed. *)
Example WriteAt_run_example :
  let w0 := {| file := Some {| bytes := replicate 10 0; position := 0 |};
               written := 0; totalSize := 10; path := "out.dat" |} in
  run w0 [ {| reply := os_ok 3; data := [1; 2; 3]; at_offset := 4 |};
           {| reply := os_ok 2; data := [9; 9]; at_offset := 0 |} ]
  = {| file := Some {| bytes := [9; 9; 0; 0; 1; 2; 3; 0; 0; 0];
                       position := 2 |};
       written := 5; totalSize := 10; path := "out.dat" |}.
Proof. vm_compute. reflexivity. Qed.

(** With data, the closed-writer test and the bounds tests do fire. *)
Lemma WriteAt_closed w os data offset :
  0 < len data -> file w = None ->
  WriteAt w os data offset = (w, Some "file writer is closed"%string).
Proof.
  intros Hdata Hclosed. unfold WriteAt. rewrite Hclosed.
  destruct (Z.eqb_spec (len data) 0); [lia|reflexivity].
Qed.

(** C10.  Whatever the writer's state (open or closed, also right after
    [Close]) and whatever the offset, [WriteAt] with an empty slice returns
    nil and changes neither the file nor [Written]: the test for empty data
    comes first. *)
Theorem WriteAt_empty_noop (w : FileWriter) (os : os_reply) (offset : Z)
    (sync_err close_err : option error) :
  WriteAt w os [] offset = (w, None)
  /\ file (WriteAt w os [] offset).1 = file w
  /\ Written (WriteAt w os [] offset).1 = Written w
  /\ let closed := (Close w sync_err close_err).1 in
     file closed = None
     /\ WriteAt closed os [] offset = (closed, None).
Proof.
  repeat split; try reflexivity.
  unfold Close. destruct (file w) eqn:Hf; [|exact Hf].
  destruct sync_err; reflexivity.
Qed.

(** A write inside the file replaces the bytes of its range. *)
Lemma File_Write_inside (f : File) (data : list Z) (o : Z) :
  0 <= o -> o + len data <= len (bytes f) ->
  bytes (File_Write (File_Seek f o) data (len data))
  = take (Z.to_nat o) (bytes f) ++ data
      ++ drop (Z.to_nat o + length data) (bytes f).
Proof.
  intros Ho Hin. unfold File_Write, File_Seek, len in *.
  cbn [position bytes]. rewrite Nat2Z.id.
  replace (Z.to_nat o + length data - length (bytes f))%nat with 0%nat by lia.
  cbn [replicate]. rewrite app_nil_r, firstn_all. reflexivity.
Qed.

Lemma splice_length (l d : list Z) (o : nat) :
  (o + length d <= length l)%nat ->
  length (take o l ++ d ++ drop (o + length d) l) = length l.
Proof.
  intros H. rewrite !length_app, length_take, length_drop. lia.
Qed.

Lemma splice_lookup (l d : list Z) (o x : nat) :
  (o + length d <= length l)%nat ->
  (take o l ++ d ++ drop (o + length d) l) !! x
  = if decide (o <= x < o + length d)%nat then d !! (x - o)%nat else l !! x.
Proof.
  intros H.
  assert (Hto : length (take o l) = o) by (rewrite length_take; lia).
  destruct (decide (o <= x < o + length d)%nat) as [Hin|Hout].
  - rewrite lookup_app_r by lia. rewrite Hto.
    rewrite lookup_app_l by lia. reflexivity.
  - destruct (decide (x < o)%nat).
    + rewrite lookup_app_l by lia. apply lookup_take_lt. lia.
    + rewrite lookup_app_r by lia. rewrite Hto.
      rewrite lookup_app_r by lia. rewrite lookup_drop. f_equal. lia.
Qed.

(** One served call on an open, fully allocated file. *)
Lemma do_call_disk (w : FileWriter) (c : call) :
  is_Some (file w) -> len (disk w) = totalSize w ->
  totalSize w <= max_int64 ->
  served c -> inside (totalSize w) c ->
  (do_call w c).2 = None
  /\ is_Some (file (do_call w c).1)
  /\ totalSize (do_call w c).1 = totalSize w
  /\ disk (do_call w c).1
     = take (Z.to_nat (at_offset c)) (disk w) ++ data c
         ++ drop (Z.to_nat (at_offset c) + length (data c)) (disk w).
Proof.
  intros [f Hf] Hlen Hmax Hserved [Ho Hin].
  unfold disk in *. rewrite Hf in *.
  unfold do_call, WriteAt. rewrite Hserved, Hf.
  destruct (Z.eqb_spec (len (data c)) 0) as [Hz|Hnz].
  - cbn [fst snd]. rewrite Hf.
    assert (data c = []) as ->.
    { destruct (data c); [reflexivity|]. unfold len in Hz. cbn in Hz. lia. }
    cbn [app length]. rewrite Nat.add_0_r, take_drop. auto.
  - pose proof (len_nonneg (data c)).
    destruct (Z.ltb_spec (at_offset c) 0); [lia|].
    rewrite add64_id
      by (unfold in_int64, min_int64, max_int64 in *; lia).
    destruct (Z.ltb_spec (totalSize w) (at_offset c + len (data c))); [lia|].
    cbn [os_ok seek_err write_err write_n]. rewrite Z.eqb_refl.
    cbn [negb fst snd file totalSize set_file].
    split; [reflexivity|]. split; [eexists; reflexivity|].
    split; [reflexivity|].
    apply File_Write_inside; lia.
Qed.

Lemma run_cons w c calls : run w (c :: calls) = run (do_call w c).1 calls.
Proof. reflexivity. Qed.

(** Served calls inside the file keep it open and as long as it was, and
    leave alone every byte that none of them covers. *)
Lemma run_disk : forall calls w,
  is_Some (file w) -> len (disk w) = totalSize w ->
  totalSize w <= max_int64 ->
  Forall served calls -> Forall (inside (totalSize w)) calls ->
  is_Some (file (run w calls))
  /\ len (disk (run w calls)) = totalSize w
  /\ totalSize (run w calls) = totalSize w
  /\ (forall x : nat,
        (forall c, c ∈ calls -> ~ in_range c (Z.of_nat x)) ->
        disk (run w calls) !! x = disk w !! x).
Proof.
  induction calls as [|c calls IH]; intros w Hopen Hlen Hmax Hs Hi.
  - cbn. auto.
  - inversion Hs as [|? ? Hsc Hsr]; subst.
    inversion Hi as [|? ? Hic Hir]; subst.
    destruct (do_call_disk w c Hopen Hlen Hmax Hsc Hic)
      as (_ & Hopen1 & Htot1 & Hdisk1).
    pose proof Hic as [Ho Hin]. pose proof (len_nonneg (data c)) as Hd.
    assert (Hfit : (Z.to_nat (at_offset c) + length (data c)
                    <= length (disk w))%nat)
      by (unfold len in *; lia).
    assert (Hlen1 : len (disk (do_call w c).1) = totalSize (do_call w c).1).
    { rewrite Htot1, Hdisk1. unfold len. rewrite splice_length by exact Hfit.
      exact Hlen. }
    rewrite run_cons.
    destruct (IH (do_call w c).1 Hopen1 Hlen1) as (Ho' & Hl' & Ht' & Hu');
      try (rewrite ?Htot1; assumption).
    rewrite Htot1 in *. split; [exact Ho'|]. split; [exact Hl'|].
    split; [exact Ht'|].
    intros x Hx. rewrite Hu'.
    + rewrite Hdisk1, splice_lookup by exact Hfit.
      destruct (decide _) as [Hin'|]; [|reflexivity].
      exfalso. apply (Hx c); [left|]. unfold in_range, len. lia.
    + intros c' Hc'. apply Hx. right. exact Hc'.
Qed.

(** When the calls are pairwise disjoint as well, the data of each of
    them is on disk at its offset once they all have run. *)
Lemma run_disk_lands : forall calls w,
  is_Some (file w) -> len (disk w) = totalSize w ->
  totalSize w <= max_int64 ->
  Forall served calls -> Forall (inside (totalSize w)) calls ->
  pairwise_disjoint calls ->
  forall c (i : nat), c ∈ calls -> (i < length (data c))%nat ->
    disk (run w calls) !! (Z.to_nat (at_offset c) + i)%nat = data c !! i.
Proof.
  induction calls as [|c0 calls IH];
    intros w Hopen Hlen Hmax Hs Hi Hd c i Hc Hlt; [inversion Hc|].
  inversion Hs as [|? ? Hsc Hsr]; subst.
  inversion Hi as [|? ? Hic Hir]; subst.
  destruct Hd as [Hd0 Hdr].
  destruct (do_call_disk w c0 Hopen Hlen Hmax Hsc Hic)
    as (_ & Hopen1 & Htot1 & Hdisk1).
  pose proof Hic as [Ho Hin]. pose proof (len_nonneg (data c0)) as Hdl.
  assert (Hfit : (Z.to_nat (at_offset c0) + length (data c0)
                  <= length (disk w))%nat)
    by (unfold len in *; lia).
  assert (Hlen1 : len (disk (do_call w c0).1) = totalSize (do_call w c0).1).
  { rewrite Htot1, Hdisk1. unfold len. rewrite splice_length by exact Hfit.
    exact Hlen. }
  rewrite run_cons. apply elem_of_cons in Hc as [->|Hc].
  - destruct (run_disk calls (do_call w c0).1 Hopen1 Hlen1)
      as (_ & _ & _ & Hu); try (rewrite ?Htot1; assumption).
    rewrite Hu.
    + rewrite Hdisk1, splice_lookup by exact Hfit.
      destruct (decide _) as [_|Hout]; [f_equal; lia|lia].
    + intros c' Hc' Hr. rewrite Forall_forall in Hd0.
      apply (Hd0 c' Hc' (Z.of_nat (Z.to_nat (at_offset c0) + i))).
      split; [|exact Hr]. unfold in_range, len. lia.
  - apply IH; try assumption; rewrite ?Htot1; assumption.
Qed.

Lemma disjoint_sym c1 c2 : disjoint c1 c2 -> disjoint c2 c1.
Proof. unfold disjoint. intros H x [H2 H1]. apply (H x). auto. Qed.

Lemma pairwise_disjoint_perm calls calls' :
  calls ≡ₚ calls' -> pairwise_disjoint calls -> pairwise_disjoint calls'.
Proof.
  induction 1 as [|c l l' Hp IH|c1 c2 l|l1 l2 l3 _ IH1 _ IH2]; cbn.
  - auto.
  - intros [Hc Hl]. split; [rewrite <- Hp; exact Hc|auto].
  - intros [H1 [H2 Hl]]. inversion H1 as [|? ? H12 H1l]; subst.
    repeat split; try assumption.
    constructor; [apply disjoint_sym; exact H12|exact H2].
  - auto.
Qed.

(** X7.  Chunks that the system takes whole, that lie inside the file and
    do not overlap end up on disk where they belong, whatever the order in
    which [WriteAt] receives them: every call returns nil, afterwards the
    data of each call can be read at its offset, the bytes no call covers
    are as they were and the file is as long as before; and any other
    order of the same calls leaves the same bytes on disk. *)
Theorem WriteAt_order_independent (w0 : FileWriter) (calls calls' : list call) :
  is_Some (file w0) -> len (disk w0) = totalSize w0 ->
  totalSize w0 <= max_int64 ->
  Forall served calls -> Forall (inside (totalSize w0)) calls ->
  pairwise_disjoint calls ->
  calls ≡ₚ calls' ->
  (forall (k : nat) c, calls !! k = Some c ->
     (do_call (run w0 (take k calls)) c).2 = None)
  /\ len (disk (run w0 calls)) = totalSize w0
  /\ (forall c (i : nat), c ∈ calls -> (i < length (data c))%nat ->
        disk (run w0 calls) !! (Z.to_nat (at_offset c) + i)%nat = data c !! i)
  /\ (forall x : nat,
        (forall c, c ∈ calls -> ~ in_range c (Z.of_nat x)) ->
        disk (run w0 calls) !! x = disk w0 !! x)
  /\ disk (run w0 calls') = disk (run w0 calls).
Proof.
  intros Hopen Hlen Hmax Hs Hi Hd Hp.
  destruct (run_disk calls w0 Hopen Hlen Hmax Hs Hi) as (_ & Hl & _ & Hu).
  pose proof (run_disk_lands calls w0 Hopen Hlen Hmax Hs Hi Hd) as Hland.
  assert (Hs' : Forall served calls') by (rewrite <- Hp; exact Hs).
  assert (Hi' : Forall (inside (totalSize w0)) calls')
    by (rewrite <- Hp; exact Hi).
  pose proof (pairwise_disjoint_perm _ _ Hp Hd) as Hd'.
  destruct (run_disk calls' w0 Hopen Hlen Hmax Hs' Hi') as (_ & Hl' & _ & Hu').
  pose proof (run_disk_lands calls' w0 Hopen Hlen Hmax Hs' Hi' Hd') as Hland'.
  split.
  { intros k c Hk.
    destruct (run_disk (take k calls) w0 Hopen Hlen Hmax)
      as (Hok & Hlk & Htk & _).
    - apply Forall_take. exact Hs.
    - apply Forall_take. exact Hi.
    - apply do_call_disk; try assumption; rewrite ?Htk; try assumption.
      + exact (Forall_lookup_1 _ _ _ _ Hs Hk).
      + exact (Forall_lookup_1 _ _ _ _ Hi Hk). }
  split; [exact Hl|]. split; [exact Hland|]. split; [exact Hu|].
  apply list_eq. intros x.
  assert (Hdec : forall c, {in_range c (Z.of_nat x)} + {~ in_range c (Z.of_nat x)}).
  { intros c. unfold in_range.
    destruct (Z_le_dec (at_offset c) (Z.of_nat x));
      destruct (Z_lt_dec (Z.of_nat x) (at_offset c + len (data c)));
      (left; lia) || (right; lia). }
  destruct (@Exists_dec call (fun c => in_range c (Z.of_nat x)) Hdec calls)
    as [Hex|Hno].
  - apply Exists_exists in Hex as (c & Hc & Hr).
    assert (Hc' : c ∈ calls') by (rewrite <- Hp; exact Hc).
    pose proof (Forall_forall (inside (totalSize w0)) calls) as [Hall _].
    destruct (Hall Hi c Hc) as [Ho _].
    unfold in_range, len in Hr.
    replace x with (Z.to_nat (at_offset c) + (x - Z.to_nat (at_offset c)))%nat
      by lia.
    rewrite Hland' by (try assumption; lia).
    rewrite Hland by (try assumption; lia). reflexivity.
  - assert (Hnone : forall c, c ∈ calls -> ~ in_range c (Z.of_nat x)).
    { intros c Hc Hr. apply Hno, Exists_exists. exists c.
      split; [exact Hc|exact Hr]. }
    rewrite Hu by exact Hnone. apply Hu'.
    intros c Hc. apply Hnone. rewrite Hp. exact Hc.
Qed.

Lemma WriteAt_order_independent_witness :
  let w0 := {| file := Some {| bytes := replicate 8 0; position := 0 |};
               written := 0; totalSize := 8; path := "out" |} in
  let c1 := {| reply := os_ok 3; data := [1; 2; 3]; at_offset := 5 |} in
  let c2 := {| reply := os_ok 2; data := [9; 8]; at_offset := 0 |} in
  let calls := [c1; c2] in
  let calls' := [c2; c1] in
  (forall (k : nat) c, calls !! k = Some c ->
     (do_call (run w0 (take k calls)) c).2 = None)
  /\ len (disk (run w0 calls)) = totalSize w0
  /\ (forall c (i : nat), c ∈ calls -> (i < length (data c))%nat ->
        disk (run w0 calls) !! (Z.to_nat (at_offset c) + i)%nat = data c !! i)
  /\ (forall x : nat,
        (forall c, c ∈ calls -> ~ in_range c (Z.of_nat x)) ->
        disk (run w0 calls) !! x = disk w0 !! x)
  /\ disk (run w0 calls') = disk (run w0 calls).
Proof.
  apply (WriteAt_order_independent
           {| file := Some {| bytes := replicate 8 0; position := 0 |};
              written := 0; totalSize := 8; path := "out" |}
           [ {| reply := os_ok 3; data := [1; 2; 3]; at_offset := 5 |};
             {| reply := os_ok 2; data := [9; 8]; at_offset := 0 |} ]
           [ {| reply := os_ok 2; data := [9; 8]; at_offset := 0 |};
             {| reply := os_ok 3; data := [1; 2; 3]; at_offset := 5 |} ]).
  - eexists. reflexivity.
  - reflexivity.
  - vm_compute. discriminate.
  - constructor; [reflexivity|]. constructor; [reflexivity|]. constructor.
  - constructor; [unfold inside, len; simpl; lia|].
    constructor; [unfold inside, len; simpl; lia|]. constructor.
  - simpl. split; [|split; [constructor|exact I]].
    constructor; [|constructor].
    intros x [H1 H2]. unfold in_range, len in H1, H2. simpl in H1, H2. lia.
  - apply perm_swap.
Defined.

(** The two chunks of the example, in either order. *)
Example WriteAt_two_chunks :
  let w0 := {| file := Some {| bytes := replicate 8 0; position := 0 |};
               written := 0; totalSize := 8; path := "out" |} in
  let c1 := {| reply := os_ok 3; data := [1; 2; 3]; at_offset := 5 |} in
  let c2 := {| reply := os_ok 2; data := [9; 8]; at_offset := 0 |} in
  disk (run w0 [c1; c2]) = [9; 8; 0; 0; 0; 1; 2; 3]
  /\ disk (run w0 [c2; c1]) = [9; 8; 0; 0; 0; 1; 2; 3].
Proof. split; reflexivity. Qed.

(** X8.  [Close] is final and can be repeated: whatever [Sync] and the
    file's [Close] answer, the writer is closed afterwards and [Written]
    is unchanged; the first [Close] reports the failure of [Sync] or else
    what the file's [Close] answered, a further [Close] returns nil and
    changes nothing, and every [WriteAt] of at least one byte fails with
    [file writer is closed] without touching the writer. *)
Theorem Close_final (w : FileWriter) (sync_err close_err : option error)
    (sync_err' close_err' : option error) (os : os_reply) (data : list Z)
    (offset : Z) :
  let closed := (Close w sync_err close_err).1 in
  file closed = None
  /\ Written closed = Written w
  /\ TotalSize closed = TotalSize w
  /\ (Close w sync_err close_err).2
     = match file w, sync_err with
       | None, _ => None
       | Some _, Some e => Some ("failed to sync file: " +:+ e)%string
       | Some _, None => close_err
       end
  /\ Close closed sync_err' close_err' = (closed, None)
  /\ WriteAt closed os data offset
     = (closed, if len data =? 0 then None
                else Some "file writer is closed"%string).
Proof.
  intros closed. unfold closed, Close.
  assert (Hwrite : forall c : FileWriter, file c = None ->
    WriteAt c os data offset
    = (c, if len data =? 0 then None else Some "file writer is closed"%string)).
  { intros c Hc. unfold WriteAt. rewrite Hc.
    destruct (len data =? 0); reflexivity. }
  destruct (file w) eqn:Hf.
  - destruct sync_err; cbn [fst snd set_file file];
      repeat split; apply Hwrite; reflexivity.
  - cbn [fst snd]. rewrite Hf.
    repeat split; try exact Hf. apply Hwrite; exact Hf.
Qed.

(** X9.  [preAllocateFile] always takes the portable path.  When its
    three system calls succeed on a file shorter than [size], the file is
    exactly [size] bytes long afterwards: its old bytes are kept, the rest
    reads as zeros, and the position is back at the start; a freshly
    truncated file thus becomes [size] zero bytes.  It returns nil only
    when all three calls succeed. *)
Theorem preAllocateFile_extends (f : File) (size : Z) :
  0 < size <= max_int64 ->
  len (bytes f) < size ->
  let extended :=
    {| bytes := bytes f ++ replicate (Z.to_nat size - length (bytes f)) 0;
       position := 0 |} in
  preAllocateFile f size None None None = (extended, None)
  /\ len (bytes extended) = size
  /\ forall seek_end write_last seek_start : option error,
       (preAllocateFile f size seek_end write_last seek_start).2 = None
       <-> seek_end = None /\ write_last = None /\ seek_start = None.
Proof.
  intros Hsize Hshort extended.
  assert (Hbytes : bytes (File_Write (File_Seek f (size - 1)) [0] 1)
                   = bytes f ++ replicate (Z.to_nat size - length (bytes f)) 0).
  { unfold File_Write, File_Seek, len in *. cbn [position bytes].
    change (Z.to_nat 1) with 1%nat.
    replace (Z.to_nat (size - 1) + 1)%nat with (Z.to_nat size) by lia.
    remember (Z.to_nat size - length (bytes f))%nat as pad eqn:Hpad.
    assert (Hold : length (bytes f ++ replicate pad 0) = Z.to_nat size)
      by (rewrite length_app, length_replicate; lia).
    rewrite drop_ge by lia. cbn [take]. rewrite app_nil_r.
    destruct pad as [|n]; [lia|].
    rewrite replicate_S_end, app_assoc.
    rewrite take_app_length'; [reflexivity|].
    rewrite length_app, length_replicate. lia. }
  split; [|split].
  - unfold preAllocateFile, tryFallocate.
    rewrite sub64_id by (unfold in_int64, min_int64, max_int64 in *; lia).
    unfold extended. rewrite <- Hbytes. reflexivity.
  - unfold extended, len in *. cbn [bytes].
    rewrite length_app, length_replicate. lia.
  - intros seek_end write_last seek_start.
    unfold preAllocateFile, tryFallocate.
    destruct seek_end, write_last, seek_start; cbn [snd];
      split; try discriminate; try tauto;
      intros (? & ? & ?); discriminate.
Qed.

Lemma preAllocateFile_extends_witness :
  let f := {| bytes := [7]; position := 1 |} in
  let extended :=
    {| bytes := bytes f ++ replicate (Z.to_nat 5 - length (bytes f)) 0;
       position := 0 |} in
  preAllocateFile f 5 None None None = (extended, None)
  /\ len (bytes extended) = 5
  /\ forall seek_end write_last seek_start : option error,
       (preAllocateFile f 5 seek_end write_last seek_start).2 = None
       <-> seek_end = None /\ write_last = None /\ seek_start = None.
Proof.
  apply (preAllocateFile_extends {| bytes := [7]; position := 1 |} 5).
  - vm_compute. split; [reflexivity|discriminate].
  - vm_compute. reflexivity.
Defined.

(** A freshly truncated file, pre-allocated to five bytes. *)
Example preAllocateFile_fresh :
  preAllocateFile {| bytes := []; position := 0 |} 5 None None None
  = ({| bytes := [0; 0; 0; 0; 0]; position := 0 |}, None).
Proof. reflexivity. Qed.

End WriterSpec.

(* ===================================================================== *)
(** ** Shutdown handler *)
(* ===================================================================== *)

Module SignalSpec.
Import Signal.

Section Cleanup.

Context {E : Type} `{FloatFormat}.

Implicit Types (h : ShutdownHandler E) (fns : list (CleanupFunc E)).

Lemma cleanup_next_prefix : forall fns (e : E) (pre out : list string),
  fold_left cleanup_next fns (e, pre ++ out)
  = ((fold_left cleanup_next fns (e, out)).1,
     pre ++ (fold_left cleanup_next fns (e, out)).2).
Proof.
  induction fns as [|fn fns IH]; intros e pre out; cbn [fold_left].
  - reflexivity.
  - unfold cleanup_next at 2 4 6. cbn [fst snd].
    destruct (fn e) as [e' err]. rewrite <- app_assoc. apply IH.
Qed.

Lemma cleanup_in_order_cons fn fns (e : E) :
  cleanup_in_order (fn :: fns) e
  = ((cleanup_in_order fns (fn e).1).1,
     warning (fn e).2 ++ (cleanup_in_order fns (fn e).1).2).
Proof.
  unfold cleanup_in_order. cbn [fold_left].
  unfold cleanup_next at 2. cbn [fst snd].
  destruct (fn e) as [e' err]. cbn [fst snd app].
  rewrite <- (app_nil_r (warning err)) at 1.
  apply cleanup_next_prefix.
Qed.

Lemma print_fields h lines :
  cleanupFns (print h lines) = cleanupFns h
  /\ world (print h lines) = world h
  /\ invoked (print h lines) = invoked h
  /\ output (print h lines) = output h ++ lines.
Proof. repeat split. Qed.

Lemma stop_and_report_fields h :
  cleanupFns (stop_and_report h) = cleanupFns h
  /\ invoked (stop_and_report h) = invoked h.
Proof.
  unfold stop_and_report, reportPartialProgress.
  destruct (progress h); cbn [writer set_world]; destruct (writer h);
    repeat match goal with |- context [if ?b then _ else _] => destruct b end;
    split; reflexivity.
Qed.

(** The countdown loop calls the first [n] registered functions, last
    one first. *)
Lemma cleanup_loop_lifo : forall (n : nat) h,
  (n <= length (cleanupFns h))%nat ->
  cleanupFns (cleanup_loop n h) = cleanupFns h
  /\ invoked (cleanup_loop n h) = invoked h ++ rev (seq 0 n)
  /\ world (cleanup_loop n h)
     = (cleanup_in_order (rev (take n (cleanupFns h))) (world h)).1
  /\ output (cleanup_loop n h)
     = output h
       ++ (cleanup_in_order (rev (take n (cleanupFns h))) (world h)).2.
Proof.
  induction n as [|i IH]; intros h Hn.
  - cbn. rewrite !app_nil_r. auto.
  - destruct (lookup_lt_is_Some_2 (cleanupFns h) i ltac:(lia)) as [fn Hfn].
    cbn [cleanup_loop].
    assert (Hcall :
      cleanupFns (call_cleanup h i) = cleanupFns h
      /\ invoked (call_cleanup h i) = invoked h ++ [i]
      /\ world (call_cleanup h i) = (fn (world h)).1
      /\ output (call_cleanup h i) = output h ++ warning (fn (world h)).2).
    { unfold call_cleanup, CleanupFunc, error in *. rewrite Hfn.
      destruct (fn (world h)) as [e [msg|]]; cbn;
        rewrite ?app_nil_r; auto. }
    destruct Hcall as (Hf & Hi & Hw & Ho).
    destruct (IH (call_cleanup h i)) as (Hf' & Hi' & Hw' & Ho');
      [rewrite Hf; lia|].
    rewrite Hf', Hi', Hw', Ho', Hf, Hi, Hw, Ho.
    rewrite (take_S_r _ _ _ Hfn), rev_app_distr. cbn [rev app].
    rewrite cleanup_in_order_cons. cbn [fst snd].
    rewrite seq_S, rev_app_distr. cbn [rev app Nat.add].
    rewrite <- !app_assoc. auto.
Qed.

(** What [performCleanup] comes to: the functions called, the world they
    leave, and the lines printed. *)
Lemma performCleanup_calls (h : ShutdownHandler E) :
  invoked (performCleanup h)
  = invoked h ++ rev (seq 0 (length (cleanupFns h)))
  /\ world (performCleanup h)
     = (cleanup_in_order (rev (cleanupFns h)) (world (stop_and_report h))).1
  /\ output (performCleanup h)
     = output (stop_and_report h)
       ++ (if decide (cleanupFns h = []) then []
           else ["Cleaning up resources..." +:+ nl]
                ++ (cleanup_in_order (rev (cleanupFns h))
                      (world (stop_and_report h))).2
                ++ ["Cleanup completed." +:+ nl]).
Proof.
  unfold performCleanup.
  destruct (stop_and_report_fields h) as [Hf Hi].
  set (h1 := stop_and_report h) in *.
  destruct (cleanupFns h) as [|fn fns] eqn:Hfns.
  - rewrite Hf. cbn. rewrite !app_nil_r. auto.
  - rewrite <- Hfns in *.
    assert (Hlen : (0 <? len (cleanupFns h1)) = true).
    { rewrite Hf, Hfns. reflexivity. }
    rewrite Hlen.
    destruct (cleanup_loop_lifo (length (cleanupFns h))
                (print h1 ["Cleaning up resources..." +:+ nl]))
      as (_ & Hinv & Hw & Ho); [cbn; rewrite Hf; lia|].
    cbn [cleanupFns print] in *. rewrite Hf in *.
    rewrite firstn_all in *.
    destruct (decide (cleanupFns h = [])) as [Hnil|_];
      [rewrite Hnil in Hfns; discriminate|].
    cbn [invoked world output print]. rewrite Hinv, Hw, Ho. cbn.
    rewrite Hi, <- !app_assoc. auto.
Qed.

(** C7.  [performCleanup] calls every registered cleanup function, once
    each, in the reverse order of registration: the last one registered
    first.  A function that returns an error gets a warning line in the
    output and the ones registered before it are called all the same: the
    world and the warnings are those of calling the functions one after
    the other in reversed order. *)
Theorem performCleanup_lifo (h : ShutdownHandler E) :
  let h1 := stop_and_report h in
  let fns := cleanupFns h in
  let result := cleanup_in_order (rev fns) (world h1) in
  invoked (performCleanup h) = invoked h ++ rev (seq 0 (length fns))
  /\ length (invoked (performCleanup h))
     = (length (invoked h) + length fns)%nat
  /\ world (performCleanup h) = result.1
  /\ output (performCleanup h)
     = output h1
       ++ (if decide (fns = []) then []
           else ["Cleaning up resources..." +:+ nl] ++ result.2
                ++ ["Cleanup completed." +:+ nl]).
Proof.
  cbv zeta. destruct (performCleanup_calls h) as (Hinv & Hw & Ho).
  split; [exact Hinv|]. split; [|split; assumption].
  rewrite Hinv, length_app, length_rev, length_seq. reflexivity.
Qed.

End Cleanup.

(** [TestRegisterCleanupFunc] and [TestRegisterCleanupFuncWithError] in
    one: three functions, the second one fails. *)
Example performCleanup_three :
  let h := RegisterCleanupFunc
             (RegisterCleanupFunc
                (RegisterCleanupFunc (NewShutdownHandler [])
                   (record_call 1 None))
                (record_call 2 (Some "cleanup failed"%string)))
             (record_call 3 None) in
  world (performCleanup (H := WholeNumbers) h) = [3; 2; 1]%nat
  /\ invoked (performCleanup (H := WholeNumbers) h) = [2; 1; 0]%nat
  /\ output (performCleanup (H := WholeNumbers) h)
     = [ "Cleaning up resources..." +:+ nl;
         "Warning: cleanup error: cleanup failed" +:+ nl;
         "Cleanup completed." +:+ nl ].
Proof. repeat split. Qed.

Section Once.

Context {E : Type} `{FloatFormat}.

Implicit Types (h : ShutdownHandler E) (o : Once) (cs : list pc).

Lemma set_once_id h : set_once h (shutdownOnce h) = h.
Proof. destruct h. reflexivity. Qed.

Lemma call_cleanup_set_once h o i :
  call_cleanup (set_once h o) i = set_once (call_cleanup h i) o.
Proof.
  unfold call_cleanup. cbn [cleanupFns set_once world].
  destruct (cleanupFns h !! i) as [fn|]; [|reflexivity].
  destruct (fn (world h)) as [e [msg|]]; reflexivity.
Qed.

Lemma cleanup_loop_set_once : forall (n : nat) h o,
  cleanup_loop n (set_once h o) = set_once (cleanup_loop n h) o.
Proof.
  induction n as [|i IH]; intros h o; [reflexivity|].
  cbn [cleanup_loop]. rewrite call_cleanup_set_once. apply IH.
Qed.

Lemma stop_and_report_set_once h o :
  stop_and_report (set_once h o) = set_once (stop_and_report h) o.
Proof.
  unfold stop_and_report, reportPartialProgress.
  cbn [progress set_once world writer].
  destruct (progress h); cbn [writer set_world set_once world];
    destruct (writer h); try reflexivity;
    repeat match goal with |- context [if ?b then _ else _] => destruct b end;
    reflexivity.
Qed.

Lemma performCleanup_set_once h o :
  performCleanup (set_once h o) = set_once (performCleanup h) o.
Proof.
  unfold performCleanup. rewrite stop_and_report_set_once.
  cbn [cleanupFns set_once].
  destruct (0 <? len (cleanupFns (stop_and_report h))); [|reflexivity].
  change (print (set_once (stop_and_report h) o)
            ["Cleaning up resources..." +:+ nl])
    with (set_once (print (stop_and_report h)
                      ["Cleaning up resources..." +:+ nl]) o).
  rewrite cleanup_loop_set_once. reflexivity.
Qed.

Lemma shutdown_set_once h o :
  shutdown (set_once h o) = set_once (shutdown h) o.
Proof.
  unfold shutdown. rewrite <- performCleanup_set_once. reflexivity.
Qed.

Lemma call_cleanup_frame h i : frame (call_cleanup h i) = frame h.
Proof.
  unfold call_cleanup.
  destruct (cleanupFns h !! i) as [fn|]; [|reflexivity].
  destruct (fn (world h)) as [e [msg|]]; reflexivity.
Qed.

Lemma cleanup_loop_frame : forall (n : nat) h,
  frame (cleanup_loop n h) = frame h.
Proof.
  induction n as [|i IH]; intros h; [reflexivity|].
  cbn [cleanup_loop]. rewrite IH. apply call_cleanup_frame.
Qed.

Lemma stop_and_report_frame h : frame (stop_and_report h) = frame h.
Proof.
  unfold stop_and_report, reportPartialProgress.
  destruct (progress h); cbn [writer set_world world];
    destruct (writer h); try reflexivity;
    repeat match goal with |- context [if ?b then _ else _] => destruct b end;
    reflexivity.
Qed.

Lemma performCleanup_frame h : frame (performCleanup h) = frame h.
Proof.
  unfold performCleanup.
  destruct (0 <? len (cleanupFns (stop_and_report h)));
    [|apply stop_and_report_frame].
  change (frame (print ?x _)) with (frame x).
  rewrite cleanup_loop_frame. apply stop_and_report_frame.
Qed.

Lemma shutdown_frame h :
  frame (shutdown h) = (true, true, S (fired h), shutdownOnce h).
Proof. unfold shutdown. rewrite performCleanup_frame. reflexivity. Qed.

End Once.

Section Concurrent.

Context {E : Type} `{FloatFormat}.

Variable h0 : ShutdownHandler E.

Implicit Types (cs : list pc) (s : system E).

Lemma others_of_Forall (P : pc -> Prop) cs (t : nat) :
  Forall P cs -> forall t' p, t' <> t -> cs !! t' = Some p -> P p.
Proof. intros HF t' p _ Hl. exact (Forall_lookup_1 _ _ _ _ HF Hl). Qed.

(** The goroutine [t] itself moves: nothing changes for the others. *)
Lemma others_insert_same (P : pc -> Prop) cs (t : nat) next :
  (forall t' p, t' <> t -> cs !! t' = Some p -> P p) ->
  forall t' p, t' <> t -> <[t := next]> cs !! t' = Some p -> P p.
Proof.
  intros Ho t' p Hne. rewrite list_lookup_insert_ne by auto. eauto.
Qed.

(** Another goroutine moves to a place allowed for the others. *)
Lemma others_insert_other (P : pc -> Prop) cs (t0 t : nat) next :
  P next ->
  (forall t' p, t' <> t0 -> cs !! t' = Some p -> P p) ->
  forall t' p, t' <> t0 -> <[t := next]> cs !! t' = Some p -> P p.
Proof.
  intros Hnext Ho t' p Hne Hl. destruct (decide (t' = t)) as [->|Hne'].
  - destruct (decide (t < length cs)%nat) as [Hlt|Hge].
    + rewrite list_lookup_insert_eq in Hl by assumption. congruence.
    + rewrite list_insert_ge in Hl by lia. eauto.
  - rewrite list_lookup_insert_ne in Hl by auto. eauto.
Qed.

Lemma Forall_insert_holder (P : pc -> Prop) cs (t : nat) next :
  P next ->
  (forall t' p, t' <> t -> cs !! t' = Some p -> P p) ->
  Forall P (<[t := next]> cs).
Proof.
  intros Hnext Ho. apply Forall_lookup_2. intros i x Hi.
  destruct (decide (i = t)) as [->|Hne].
  - destruct (decide (t < length cs)%nat) as [Hlt|Hge].
    + rewrite list_lookup_insert_eq in Hi by assumption. congruence.
    + rewrite list_insert_ge in Hi by lia.
      apply lookup_lt_Some in Hi. lia.
  - rewrite list_lookup_insert_ne in Hi by auto. eauto.
Qed.

Lemma waiting_outside p : waiting p -> outside p.
Proof. left. assumption. Qed.

Ltac absurd_pc :=
  match goal with
  | Hw : waiting _ |- _ => destruct Hw; discriminate
  | Hw : outside _ |- _ => destruct Hw as [[|]|]; discriminate
  end.

(** Every step keeps the callers in one of the five modes. *)
Lemma step_mode s (t : nat) s' :
  mode h0 s -> step s t = Some s' -> mode h0 s'.
Proof.
  intros Hm Hstep.
  destruct Hm as [cs HF|t0 cs Ht0 Ho|t0 cs Ht0 Ho|t0 cs p0 Ht0 Hp0 Ho|cs HF];
    unfold step in Hstep;
    cbn [handler callers shutdownOnce set_once done locked] in Hstep;
    destruct (cs !! t) as [q|] eqn:Hq; try discriminate.
  - (* nobody holds the mutex, the function has not run *)
    pose proof (Forall_lookup_1 _ _ _ _ HF Hq) as Hw.
    destruct q; try absurd_pc; inversion Hstep; subst; clear Hstep.
    + apply Idle, Forall_insert; [assumption|right; reflexivity].
    + apply (Held h0 t).
      * apply list_lookup_insert_eq. eapply lookup_lt_Some; eassumption.
      * apply others_insert_same. eapply others_of_Forall; eassumption.
  - (* [t0] holds the mutex and is about to read [done] *)
    destruct (decide (t = t0)) as [->|Hne].
    + rewrite Ht0 in Hq. inversion Hq; subst q.
      inversion Hstep; subst; clear Hstep.
      rewrite shutdown_set_once. apply (Ran h0 t0).
      * apply list_lookup_insert_eq. eapply lookup_lt_Some; eassumption.
      * apply others_insert_same. assumption.
    + pose proof (Ho _ _ Hne Hq) as Hw.
      destruct q; try absurd_pc; inversion Hstep; subst; clear Hstep.
      apply (Held h0 t0).
      * rewrite list_lookup_insert_ne by auto. assumption.
      * apply others_insert_other; [right; reflexivity|assumption].
  - (* [t0] has run the function *)
    destruct (decide (t = t0)) as [->|Hne].
    + rewrite Ht0 in Hq. inversion Hq; subst q.
      inversion Hstep; subst; clear Hstep.
      apply (DoneHeld h0 t0 _ Unlocking).
      * apply list_lookup_insert_eq. eapply lookup_lt_Some; eassumption.
      * right; reflexivity.
      * apply others_insert_same. intros t' p Hne Hl.
        apply waiting_outside. eauto.
    + pose proof (Ho _ _ Hne Hq) as Hw.
      destruct q; try absurd_pc; inversion Hstep; subst; clear Hstep.
      apply (Ran h0 t0).
      * rewrite list_lookup_insert_ne by auto. assumption.
      * apply others_insert_other; [right; reflexivity|assumption].
  - (* [done] is set, [t0] still holds the mutex *)
    destruct (decide (t = t0)) as [->|Hne].
    + rewrite Ht0 in Hq. inversion Hq; subst q.
      destruct Hp0 as [->| ->]; inversion Hstep; subst; clear Hstep.
      * apply (DoneHeld h0 t0 _ Unlocking).
        -- apply list_lookup_insert_eq. eapply lookup_lt_Some; eassumption.
        -- right; reflexivity.
        -- apply others_insert_same. assumption.
      * apply DoneFree, Forall_insert_holder; [right; reflexivity|assumption].
    + pose proof (Ho _ _ Hne Hq) as Hw.
      destruct q; try absurd_pc; inversion Hstep; subst; clear Hstep.
      apply (DoneHeld h0 t0 _ p0).
      * rewrite list_lookup_insert_ne by auto. assumption.
      * assumption.
      * apply others_insert_other; [right; reflexivity|assumption].
  - (* [done] is set, nobody holds the mutex *)
    pose proof (Forall_lookup_1 _ _ _ _ HF Hq) as Hw.
    destruct q; try absurd_pc; inversion Hstep; subst; clear Hstep.
    + apply DoneFree, Forall_insert; [assumption|right; reflexivity].
    + apply (DoneHeld h0 t _ Checking).
      * apply list_lookup_insert_eq. eapply lookup_lt_Some; eassumption.
      * left; reflexivity.
      * apply others_insert_same. eapply others_of_Forall; eassumption.
Qed.

(** No deadlock: as long as a caller has not returned, one can move. *)
Lemma mode_progress s :
  mode h0 s ->
  (exists (t : nat) p, callers s !! t = Some p /\ p <> Returned) ->
  exists (t : nat) s', step s t = Some s'.
Proof.
  intros Hm (t & p & Ht & Hp).
  destruct Hm as [cs HF|t0 cs Ht0 Ho|t0 cs Ht0 Ho|t0 cs p0 Ht0 Hp0 Ho|cs HF];
    cbn [callers] in Ht.
  - exists t. unfold step. cbn. rewrite Ht.
    destruct (Forall_lookup_1 _ _ _ _ HF Ht) as [-> | ->]; eexists; reflexivity.
  - exists t0. unfold step. cbn. rewrite Ht0. eexists; reflexivity.
  - exists t0. unfold step. cbn. rewrite Ht0. eexists; reflexivity.
  - exists t0. unfold step. cbn. rewrite Ht0.
    destruct Hp0 as [-> | ->]; eexists; reflexivity.
  - exists t. unfold step. cbn. rewrite Ht.
    destruct (Forall_lookup_1 _ _ _ _ HF Ht) as [[-> | ->]| ->];
      [eexists; reflexivity|eexists; reflexivity|congruence].
Qed.

Lemma total_rank_insert : forall cs (t : nat) p q,
  cs !! t = Some p -> (rank p < rank q)%nat ->
  (total_rank cs < total_rank (<[t := q]> cs))%nat.
Proof.
  induction cs as [|p0 cs IH]; intros t p q Ht Hlt; [discriminate|].
  destruct t as [|t]; cbn in Ht.
  - inversion Ht; subst.
    change (<[0%nat := q]> (p :: cs)) with (q :: cs). cbn [total_rank]. lia.
  - change (<[S t := q]> (p0 :: cs)) with (p0 :: <[t := q]> cs).
    cbn [total_rank]. pose proof (IH _ _ _ Ht Hlt). lia.
Qed.

(** Every step takes its caller further: there are at most five steps per
    caller. *)
Lemma step_rank s (t : nat) s' :
  step s t = Some s' ->
  (total_rank (callers s) < total_rank (callers s'))%nat.
Proof.
  unfold step, move. intros Hstep.
  destruct (callers s !! t) as [p|] eqn:Ht; [|discriminate].
  destruct p; try discriminate;
    repeat match type of Hstep with
           | context [if ?b then _ else _] => destruct b
           end;
    inversion Hstep; cbn [callers];
    (eapply total_rank_insert; [eassumption|cbn; lia]).
Qed.

Lemma total_rank_bound : forall cs, (total_rank cs <= 5 * length cs)%nat.
Proof.
  induction cs as [|p cs IH]; cbn [total_rank length]; [lia|].
  destruct p; cbn; lia.
Qed.

Lemma exec_mode : forall schedule s, mode h0 s -> mode h0 (exec schedule s).
Proof.
  induction schedule as [|t rest IH]; intros s Hm; cbn [exec]; [assumption|].
  destruct (step s t) as [s'|] eqn:Hstep; apply IH; [|assumption].
  eapply step_mode; eassumption.
Qed.

Lemma step_callers s (t : nat) s' :
  step s t = Some s' -> length (callers s') = length (callers s).
Proof.
  unfold step, move. intros Hstep.
  destruct (callers s !! t) as [[]|]; try discriminate;
    repeat match type of Hstep with
           | context [if ?b then _ else _] => destruct b
           end;
    inversion Hstep; cbn; apply length_insert.
Qed.

Lemma exec_callers : forall schedule s,
  length (callers (exec schedule s)) = length (callers s).
Proof.
  induction schedule as [|t rest IH]; intros s; cbn [exec]; [reflexivity|].
  destruct (step s t) as [s'|] eqn:Hstep; rewrite IH; [|reflexivity].
  eapply step_callers; eassumption.
Qed.

End Concurrent.

Section StopOnce.

Context {E : Type} `{FloatFormat}.

Implicit Types (h : ShutdownHandler E).

Lemma Stop_fresh h :
  shutdownOnce h = {| done := false; locked := false |} ->
  Stop h = set_once (shutdown h) {| done := true; locked := false |}.
Proof.
  intros Hfresh. unfold Stop, initiateShutdown. rewrite Hfresh. cbn [done].
  pose proof (shutdown_frame h) as Hframe. unfold frame in Hframe.
  injection Hframe as Hc Hi Hf Ho. rewrite Ho, Hfresh. reflexivity.
Qed.

Lemma Stop_done h : done (shutdownOnce (Stop h)) = true.
Proof.
  unfold Stop, initiateShutdown.
  destruct (done (shutdownOnce h)) eqn:Hd; [assumption|reflexivity].
Qed.

Lemma Stop_Stop h : Stop (Stop h) = Stop h.
Proof.
  unfold Stop at 1. unfold initiateShutdown.
  rewrite Stop_done. reflexivity.
Qed.

Lemma Stop_iter h : forall k : nat, Nat.iter (S k) Stop h = Stop h.
Proof.
  induction k as [|k IH]; [reflexivity|].
  change (Nat.iter (S (S k)) Stop h) with (Stop (Nat.iter (S k) Stop h)).
  rewrite IH. apply Stop_Stop.
Qed.


End StopOnce.


(** [TestConcurrentShutdown] with three goroutines: under this schedule
    they all return, and the cleanup function has been called once. *)
Example Stop_three_callers :
  let h0 := RegisterCleanupFunc (NewShutdownHandler []) (record_call 1 None) in
  let s := exec (H := WholeNumbers)
             [0; 1; 2; 1; 0; 2; 1; 1; 1; 0; 2; 0; 0; 2; 2; 2]%nat
             (start h0 3) in
  callers s = [Returned; Returned; Returned]
  /\ world (handler s) = [1%nat]
  /\ fired (handler s) = 1%nat
  /\ output (handler s)
     = ["Cleaning up resources..." +:+ nl; "Cleanup completed." +:+ nl].
Proof. repeat split. Qed.

Section Late.

Context {E : Type} `{FloatFormat}.

(** X10.  Once a shutdown has run, it is over for good.  A cleanup
    function registered afterwards is kept in the list but never called:
    neither a further [Stop], nor the end of the context, nor a signal
    runs anything again; a late signal only prints its message. *)
Theorem late_cleanup_never_runs (h : ShutdownHandler E)
    (fn : CleanupFunc E) (sig : string) (k : nat) :
  let h1 := Stop h in
  let h2 := RegisterCleanupFunc h1 fn in
  cleanupFns h2 = cleanupFns h1 ++ [fn]
  /\ Nat.iter k Stop h2 = h2
  /\ signalLoop h2 ContextDone = h2
  /\ signalLoop h2 (Signalled sig)
     = print h2 [nl +:+ "Received signal " +:+ sig
                   +:+ ", shutting down gracefully..." +:+ nl]
  /\ invoked (signalLoop (Nat.iter k Stop h2) (Signalled sig)) = invoked h1
  /\ world (signalLoop (Nat.iter k Stop h2) (Signalled sig)) = world h1.
Proof.
  intros h1 h2.
  assert (Hdone : done (shutdownOnce h2) = true) by apply Stop_done.
  assert (HStop : Stop h2 = h2).
  { unfold Stop, initiateShutdown. rewrite Hdone. reflexivity. }
  assert (Hiter : Nat.iter k Stop h2 = h2).
  { induction k as [|k IH]; [reflexivity|].
    change (Nat.iter (S k) Stop h2) with (Stop (Nat.iter k Stop h2)).
    rewrite IH. exact HStop. }
  assert (Hsig : signalLoop h2 (Signalled sig)
                 = print h2 [nl +:+ "Received signal " +:+ sig
                               +:+ ", shutting down gracefully..." +:+ nl]).
  { unfold signalLoop, initiateShutdown. cbn [print shutdownOnce].
    rewrite Hdone. reflexivity. }
  split; [reflexivity|]. split; [exact Hiter|]. split; [exact HStop|].
  split; [exact Hsig|]. rewrite Hiter, Hsig. split; reflexivity.
Qed.

End Late.

End SignalSpec.

(* ===================================================================== *)
(** ** Checksum of the result sink *)
(* ===================================================================== *)

Module ChecksumSpec.
Import Checksum.

Lemma file_bytes_app xs ys : file_bytes (xs ++ ys) = file_bytes xs ++ file_bytes ys.
Proof. unfold file_bytes. rewrite fmap_app. apply concat_app. Qed.

Lemma file_bytes_snoc xs (c : Z * list Z) :
  len (file_bytes (xs ++ [c])) = len (file_bytes xs) + len c.2.
Proof.
  rewrite file_bytes_app, len_app. unfold file_bytes. cbn.
  rewrite app_nil_r. reflexivity.
Qed.

Lemma consecutive_app : forall xs ys o,
  consecutive o (xs ++ ys) ->
  consecutive o xs /\ consecutive (o + len (file_bytes xs)) ys.
Proof.
  induction xs as [|c xs IH]; intros ys o Hc; cbn [app consecutive] in *.
  - unfold file_bytes, len. cbn. rewrite Z.add_0_r. auto.
  - destruct Hc as (Ho & Hpos & Hrest).
    destruct (IH _ _ Hrest) as [Hxs Hys]. repeat split; auto.
    replace (o + len (file_bytes (c :: xs)))
      with (o + len c.2 + len (file_bytes xs)); [assumption|].
    unfold file_bytes. cbn. rewrite len_app. lia.
Qed.

(** No chunk starts before the first one. *)
Lemma consecutive_lower : forall chunks o (c : Z * list Z),
  consecutive o chunks -> c ∈ chunks -> o <= c.1.
Proof.
  induction chunks as [|c0 rest IH]; intros o c Hc Hin; [inversion Hin|].
  cbn [consecutive] in Hc. destruct Hc as (Ho & Hpos & Hrest).
  apply elem_of_cons in Hin as [->|Hin]; [lia|].
  specialize (IH _ _ Hrest Hin). lia.
Qed.

(** The chunk that starts at the first offset is the first chunk. *)
Lemma consecutive_head chunks o (b : list Z) :
  consecutive o chunks -> (o, b) ∈ chunks ->
  exists rest, chunks = (o, b) :: rest.
Proof.
  destruct chunks as [|c0 rest]; intros Hc Hin; [inversion Hin|].
  cbn [consecutive] in Hc. destruct Hc as (Ho & Hpos & Hrest).
  apply elem_of_cons in Hin as [<-|Hin]; [eauto|].
  pose proof (consecutive_lower _ _ _ Hrest Hin) as Hlow. cbn in Hlow. lia.
Qed.

Lemma consecutive_NoDup : forall chunks o,
  consecutive o chunks -> NoDup (chunks.*1).
Proof.
  induction chunks as [|c0 rest IH]; intros o Hc; [constructor|].
  cbn [consecutive] in Hc. destruct Hc as (Ho & Hpos & Hrest).
  cbn. constructor; [|eauto].
  intros Hin. apply list_elem_of_fmap in Hin as (c & Hc1 & Hin).
  pose proof (consecutive_lower _ _ _ Hrest Hin). lia.
Qed.

Section Folding.

Context {St : Type} `{StreamingHash St}.

Variable chunks : list (Z * list Z).
Hypothesis chunks_consecutive : consecutive 0 chunks.
Hypothesis chunks_fit : len (file_bytes chunks) <= max_int64.

Implicit Types (g : ChecksumGenerator St) (rest pre suf : list (Z * list Z)).

Local Abbreviation folded := (Checksum.folded chunks).

Lemma fold_ready_folded : forall (steps : nat) g rest pre suf,
  folded g rest pre suf ->
  (size (pending g) <= steps)%nat ->
  exists pre' suf',
    folded (fold_ready steps g) rest pre' suf'
    /\ pending (fold_ready steps g) !! nextOffset (fold_ready steps g) = None.
Proof using chunks_consecutive chunks_fit.
  induction steps as [|steps IH]; intros g rest pre suf Hf Hsize.
  - exists pre, suf. split; [exact Hf|]. cbn.
    assert (pending g = ∅) as -> by (apply map_size_empty_inv; lia).
    apply lookup_empty.
  - cbn [fold_ready].
    destruct (pending g !! nextOffset g) as [chunk|] eqn:Hlk;
      [|exists pre, suf; auto].
    destruct Hf as (Hsplit & Hnext & Hhash & Hperm).
    assert (Hcons : consecutive (len (file_bytes pre)) suf).
    { rewrite Hsplit in chunks_consecutive.
      apply consecutive_app in chunks_consecutive as [_ Hsuf]. exact Hsuf. }
    assert (Hin : (nextOffset g, chunk) ∈ suf).
    { rewrite <- Hperm. apply elem_of_app. right.
      apply elem_of_map_to_list. exact Hlk. }
    rewrite Hnext in Hin.
    destruct (consecutive_head _ _ _ Hcons Hin) as [tl ->].
    apply (IH _ rest (pre ++ [(nextOffset g, chunk)]) tl).
    + unfold Checksum.folded. cbn [nextOffset hasher pending].
      split; [rewrite Hsplit, Hnext, <- app_assoc; reflexivity|].
      split; [|split].
      * rewrite file_bytes_snoc. cbn [snd]. rewrite Hnext.
        apply add64_id.
        assert (Hle : len (file_bytes (pre ++ [(len (file_bytes pre), chunk)]))
                      <= len (file_bytes chunks)).
        { rewrite Hsplit.
          replace (pre ++ (len (file_bytes pre), chunk) :: tl)
            with ((pre ++ [(len (file_bytes pre), chunk)]) ++ tl)
            by (rewrite <- app_assoc; reflexivity).
          rewrite (file_bytes_app _ tl), len_app.
          pose proof (len_nonneg (file_bytes tl)). lia. }
        rewrite file_bytes_snoc in Hle. cbn [snd] in Hle.
        pose proof (len_nonneg (file_bytes pre)). pose proof (len_nonneg chunk).
        unfold in_int64, min_int64, max_int64 in *. lia.
      * unfold written_in_order in *. rewrite fold_left_app. cbn.
        rewrite Hhash. reflexivity.
      * pose proof (map_to_list_delete _ _ _ Hlk) as Hdel.
        rewrite <- Hdel in Hperm. rewrite Hnext in Hperm.
        rewrite <- Permutation_middle in Hperm.
        apply Permutation_cons_inv in Hperm. rewrite Hnext. exact Hperm.
    + cbn [pending]. rewrite map_size_delete, Hlk. cbn. lia.
Qed.

Lemma UpdateWithChunk_folded g (o : Z) (b : list Z) rest pre suf :
  folded g ((o, b) :: rest) pre suf ->
  exists pre' suf',
    folded (UpdateWithChunk g b o).1 rest pre' suf'
    /\ pending (UpdateWithChunk g b o).1
         !! nextOffset (UpdateWithChunk g b o).1 = None.
Proof using chunks_consecutive chunks_fit.
  intros (Hsplit & Hnext & Hhash & Hperm).
  assert (Hfree : pending g !! o = None).
  { destruct (pending g !! o) as [b'|] eqn:Hlk; [exfalso|reflexivity].
    assert (Hnd : NoDup (suf.*1)).
    { rewrite Hsplit in chunks_consecutive.
      apply consecutive_app in chunks_consecutive as [_ Hsuf].
      eapply consecutive_NoDup, Hsuf. }
    rewrite <- Hperm in Hnd. cbn in Hnd. apply NoDup_cons in Hnd as [Hnot _].
    apply Hnot. rewrite fmap_app. apply elem_of_app. right.
    apply list_elem_of_fmap. exists (o, b').
    split; [reflexivity|]. apply elem_of_map_to_list. exact Hlk. }
  unfold UpdateWithChunk. cbn [fst pending].
  apply (fold_ready_folded _ _ rest pre suf); [|reflexivity].
  unfold Checksum.folded. cbn [nextOffset hasher pending].
  repeat split; try assumption.
  rewrite (map_to_list_insert _ _ _ Hfree).
  rewrite <- Permutation_middle. exact Hperm.
Qed.

Lemma feed_folded : forall arrivals g pre suf,
  folded g arrivals pre suf ->
  pending g !! nextOffset g = None ->
  hasher (feed g arrivals) = written_in_order chunks
  /\ nextOffset (feed g arrivals) = len (file_bytes chunks)
  /\ pending (feed g arrivals) = ∅.
Proof using chunks_consecutive chunks_fit.
  induction arrivals as [|[o b] arrivals IH]; intros g pre suf Hf Hnone.
  - destruct Hf as (Hsplit & Hnext & Hhash & Hperm). cbn in *.
    assert (Hsuf : suf = []).
    { destruct suf as [|[o b] tl]; [reflexivity|exfalso].
      rewrite Hsplit in chunks_consecutive.
      apply consecutive_app in chunks_consecutive as [_ Hsuf].
      cbn in Hsuf. destruct Hsuf as (Ho & _ & _).
      assert (Hin : (o, b) ∈ map_to_list (pending g))
        by (rewrite Hperm; left).
      apply elem_of_map_to_list in Hin.
      assert (Heq : o = nextOffset g) by (rewrite Hnext; cbn in Ho; lia).
      congruence. }
    subst suf. rewrite app_nil_r in Hsplit. subst pre.
    repeat split; try assumption.
    apply map_to_list_empty_iff. apply Permutation_nil. symmetry. exact Hperm.
  - change (feed g ((o, b) :: arrivals))
      with (feed (UpdateWithChunk g b o).1 arrivals).
    destruct (UpdateWithChunk_folded _ _ _ _ _ _ Hf) as (pre' & suf' & Hf' & Hn').
    eapply IH; eassumption.
Qed.

(** Whatever the order of arrival, the chunks are folded in offset
    order. *)
Lemma feed_offset_order arrivals :
  arrivals ≡ₚ chunks ->
  Finalize (feed NewChecksumGenerator arrivals) = running_hash chunks
  /\ pending (feed NewChecksumGenerator arrivals) = ∅.
Proof using chunks_consecutive chunks_fit.
  intros Hperm.
  destruct (feed_folded arrivals NewChecksumGenerator [] chunks)
    as (Hh & _ & Hp).
  - unfold Checksum.folded. cbn. rewrite map_to_list_empty, app_nil_r. auto.
  - apply lookup_empty.
  - unfold Finalize, running_hash. rewrite Hh. auto.
Qed.

End Folding.

End ChecksumSpec.

(* ===================================================================== *)
(** ** Result sink *)
(* ===================================================================== *)

Module CmdSpec.
Import Generator Checksum Cmd.

Section Sink.

Context {St : Type} `{StreamingHash St}.

(** Whatever happens to a result, the sink hands the slice it received to
    [ReturnBuffer]. *)
Lemma sink_step_returns_buffer (s : sink St) os result :
  workerPool (sink_step s os result).1
  = Worker.ReturnBuffer (workerPool s) (Worker.buffer result).
Proof.
  unfold sink_step. cbn.
  destruct (Writer.WriteAt _ _ _ _) as [w [e|]]; reflexivity.
Qed.

(** [writtenBytes] moves only when the write returned nil. *)
Lemma sink_step_writtenBytes (s : sink St) os result :
  let data := Worker.contents (Worker.buffer result) in
  writtenBytes (sink_step s os result).1
  = match (sink_step s os result).2 with
    | None => add64 (writtenBytes s) (len data)
    | Some _ => writtenBytes s
    end.
Proof.
  unfold sink_step. cbn.
  destruct (Writer.WriteAt _ _ _ _) as [w [e|]]; reflexivity.
Qed.

(** A run without error has handed every chunk to the checksum, in arrival
    order. *)
Lemma sink_run_feeds : forall arrivals (s s' : sink St),
  sink_run s arrivals = (s', None) ->
  checksumGen s' = feed (checksumGen s) (chunk_of <$> arrivals).
Proof.
  induction arrivals as [|[os result] arrivals IH]; intros s s' Hrun.
  - inversion Hrun. reflexivity.
  - cbn [sink_run] in Hrun.
    destruct (sink_step s os result) as [s1 [e|]] eqn:Hstep; [discriminate|].
    rewrite (IH _ _ Hrun). cbn [fmap list_fmap feed fold_left].
    f_equal. unfold sink_step in Hstep. cbn in Hstep.
    destruct (Writer.WriteAt _ _ _ _) as [w [e|]]; inversion Hstep.
    reflexivity.
Qed.

Lemma written_in_order_concat :
  (forall s a b, hash_write (hash_write s a) b = hash_write s (a ++ b)) ->
  (forall s, hash_write s [] = s) ->
  forall chunks,
    written_in_order chunks = hash_write hash_init (file_bytes chunks).
Proof.
  intros Happ Hnil chunks. unfold written_in_order.
  rewrite <- (Hnil hash_init) at 1.
  change (@nil Z) with (file_bytes []).
  rewrite <- (app_nil_l chunks) at 2.
  generalize (@nil (Z * list Z)) as pre.
  induction chunks as [|c chunks IH]; intros pre.
  - rewrite app_nil_r. reflexivity.
  - cbn [fold_left]. rewrite Happ.
    replace (file_bytes pre ++ c.2) with (file_bytes (pre ++ [c])).
    + rewrite IH, <- app_assoc. reflexivity.
    + rewrite ChecksumSpec.file_bytes_app. unfold file_bytes. cbn.
      rewrite app_nil_r. reflexivity.
Qed.

(** When the results received are the chunks of the file in some order
    and the result loop ends without error, the finalized checksum is the
    digest of the chunks written to the hash in offset order; for a hash
    whose [Write] is insensitive to how the input is cut, that is the
    digest of their bytes put end to end. *)
Lemma sink_checksum_offset_order (s0 s' : sink St)
    (arrivals : list (Writer.os_reply * Worker.resultItem))
    (chunks : list (Z * list Z)) :
  checksumGen s0 = NewChecksumGenerator ->
  consecutive 0 chunks ->
  len (file_bytes chunks) <= max_int64 ->
  chunk_of <$> arrivals ≡ₚ chunks ->
  sink_run s0 arrivals = (s', None) ->
  Finalize (checksumGen s') = running_hash chunks
  /\ ((forall s a b, hash_write (hash_write s a) b = hash_write s (a ++ b)) ->
      (forall s, hash_write s [] = s) ->
      Finalize (checksumGen s')
      = hash_sum (hash_write hash_init (file_bytes chunks))).
Proof.
  intros Hnew Hcons Hfit Hperm Hrun.
  apply sink_run_feeds in Hrun. rewrite Hnew in Hrun.
  destruct (ChecksumSpec.feed_offset_order chunks Hcons Hfit _ Hperm)
    as [Hsum _].
  rewrite Hrun. split; [exact Hsum|].
  intros Happ Hnil. rewrite Hsum. unfold running_hash.
  rewrite (written_in_order_concat Happ Hnil). reflexivity.
Qed.

End Sink.

(** C1: what the code does.  On the schedule [short_chunk_schedule] every
    goroutine runs to its end and all results are consumed, yet the pool
    ends up holding a 5-byte slice (of capacity 8) where buffers are 8
    bytes long, the second item was generated and written with 5 bytes
    instead of 8, and the file has received 18 of its 21 bytes: bytes
    [[13, 16)] were never written. *)
Theorem truncated_buffer_reused :
  exists pl0 pl,
    short_chunk_start = Some pl0
    /\ Worker.workChan (workerPool (sinkState pl0))
       = [ {| Worker.offset := 0; Worker.size := 8 |};
           {| Worker.offset := 8; Worker.size := 8 |};
           {| Worker.offset := 16; Worker.size := 5 |} ]
    /\ pipeline_run (H0 := PolyHash) short_chunk_schedule pl0 = Some pl
    /\ workers pl = [Gone; Gone]
    /\ Worker.workChan (workerPool (sinkState pl)) = []
    /\ Worker.resultChan (workerPool (sinkState pl)) = []
    /\ Worker.chunkSize (workerPool (sinkState pl)) = 8
    /\ Worker.slen <$> Worker.bufferPool (workerPool (sinkState pl)) = [5]
    /\ Worker.cap <$> Worker.bufferPool (workerPool (sinkState pl)) = [8]
    /\ Writer.Written (fileWriter (sinkState pl)) = 18
    /\ Writer.TotalSize (fileWriter (sinkState pl)) = 21
    /\ Writer.bytes <$> Writer.file (fileWriter (sinkState pl))
       = Some [1; 2; 3; 4; 5; 6; 7; 8; 14; 15; 16; 17; 18; 0; 0; 0;
               9; 10; 11; 12; 13].
Proof.
  eexists. eexists. split; [vm_compute; reflexivity|].
  split; [reflexivity|]. split; [vm_compute; reflexivity|].
  repeat split.
Qed.

(** Handled in dispatch order, the same run writes the whole file. *)
Example in_order_run :
  exists pl0 pl,
    short_chunk_start = Some pl0
    /\ pipeline_run (H0 := PolyHash) in_order_schedule pl0 = Some pl
    /\ workers pl = [Gone; Gone]
    /\ Writer.Written (fileWriter (sinkState pl)) = 21
    /\ writtenBytes (sinkState pl) = 21
    /\ Writer.bytes <$> Writer.file (fileWriter (sinkState pl))
       = Some (seqZ 1 21)
    /\ Finalize (H := PolyHash) (checksumGen (sinkState pl))
       = [poly_write 7 (seqZ 1 21)].
Proof.
  eexists. eexists. split; [vm_compute; reflexivity|].
  split; [vm_compute; reflexivity|]. repeat split.
Qed.

(** Two workers fail, one error reaches the error channel. *)
Example two_failures_one_error :
  exists pl0 pl,
    failing_start = Some pl0
    /\ pipeline_run (H0 := PolyHash) failing_schedule pl0 = Some pl
    /\ workers pl = [Gone; Gone]
    /\ Worker.cancelled (workerPool (sinkState pl)) = true
    /\ Worker.errorChan (workerPool (sinkState pl)) = ["test error"%string]
    /\ Worker.resultChan (workerPool (sinkState pl)) = []
    /\ Worker.slen <$> Worker.bufferPool (workerPool (sinkState pl)) = [4].
Proof.
  eexists. eexists. split; [vm_compute; reflexivity|].
  split; [vm_compute; reflexivity|].
  repeat (split; [reflexivity|]). reflexivity.
Qed.

(** Two chunks that arrive in reverse order: the checksum the sink
    computes is not the one a running hash fed in arrival order gives. *)
Example arrival_order_differs :
  let arrivals := [ (4, [5; 6; 7; 8]); (0, [1; 2; 3; 4]) ] in
  let chunks := [ (0, [1; 2; 3; 4]); (4, [5; 6; 7; 8]) ] in
  Finalize (H := PolyHash)
    (feed (H := PolyHash) (NewChecksumGenerator (H := PolyHash)) arrivals)
    = running_hash (H := PolyHash) chunks
  /\ running_hash (H := PolyHash) arrivals
     <> running_hash (H := PolyHash) chunks.
Proof. split; [vm_compute; reflexivity|vm_compute; discriminate]. Qed.

(** What the run of [ten_kib_schedule] leaves behind, computed. *)
Lemma ten_kib_observed :
  match ten_kib_start with
  | Some pl0 =>
      match pipeline_run (H0 := PolyHash) ten_kib_schedule pl0 with
      | Some pl =>
          let s := sinkState pl in
          Some (Worker.workChan (workerPool (sinkState pl0)),
                workers pl,
                Worker.workChan (workerPool s),
                Worker.resultChan (workerPool s),
                Worker.cancelled (workerPool s),
                stopped s,
                Writer.TotalSize (fileWriter s),
                Writer.Written (fileWriter s),
                bool_decide (Writer.disk (fileWriter s)
                             = replicate (Z.to_nat 10240) 0),
                nextOffset (checksumGen s),
                bool_decide (map_to_list (pending (checksumGen s))
                             = [(8192, replicate (Z.to_nat 2048) 0)]),
                Finalize (H := PolyHash) (checksumGen s))
      | None => None
      end
  | None => None
  end
  = Some ([ {| Worker.offset := 0; Worker.size := 4096 |};
            {| Worker.offset := 4096; Worker.size := 4096 |};
            {| Worker.offset := 8192; Worker.size := 2048 |} ],
          [Gone; Gone], [], [], false, false, 10240, 8192, true, 6144, true,
          [3264937991]).
Proof. vm_compute. reflexivity. Qed.


Section Disk.

Context {St : Type} `{StreamingHash St}.

(** A run without error has made one [WriteAt] call per result, in arrival
    order, and the system has taken every byte of each call that had
    any. *)
Lemma sink_run_calls : forall arrivals (s s' : sink St),
  sink_run s arrivals = (s', None) ->
  fileWriter s' = Writer.run (fileWriter s) (call_of <$> arrivals)
  /\ Forall (fun a => len (Writer.data (call_of a)) = 0
                      \/ Writer.served (call_of a)) arrivals.
Proof.
  induction arrivals as [|[os result] arrivals IH]; intros s s' Hrun.
  - inversion Hrun. split; [reflexivity|constructor].
  - cbn [sink_run] in Hrun.
    destruct (sink_step s os result) as [s1 [e|]] eqn:Hstep; [discriminate|].
    destruct (IH _ _ Hrun) as [Hw Hserved].
    unfold sink_step in Hstep. cbn in Hstep.
    destruct (Writer.WriteAt (fileWriter s) os
                (Worker.contents (Worker.buffer result))
                (Worker.result_offset result)) as [w [e|]] eqn:Hwrite;
      inversion Hstep; subst s1. cbn [fileWriter] in Hw.
    split.
    + rewrite Hw. cbn [fmap list_fmap]. rewrite WriterSpec.run_cons.
      unfold Writer.do_call, call_of. cbn. rewrite Hwrite. reflexivity.
    + constructor; [|exact Hserved].
      apply WriterSpec.WriteAt_success in Hwrite as [_ Hcase].
      unfold call_of, Writer.served. cbn.
      destruct Hcase as [[Hz _]|(_ & _ & _ & _ & Hs & Hwe & Hn & _)];
        [left; exact Hz|right].
      destruct os as [se n we]. cbn in *. subst. reflexivity.
Qed.

(** No chunk of a run is empty. *)
Lemma consecutive_nonempty : forall chunks o (c : Z * list Z),
  consecutive o chunks -> c ∈ chunks -> 0 < len c.2.
Proof.
  induction chunks as [|c0 chunks IH]; intros o c Hcons Hc.
  - inversion Hc.
  - cbn in Hcons. destruct Hcons as (_ & Hpos & Hrest).
    apply elem_of_cons in Hc as [->|Hc]; [exact Hpos|].
    eapply IH; eassumption.
Qed.

(** Chunks that follow one another make calls that stay inside the file
    and do not overlap. *)
Lemma consecutive_calls : forall chunks o,
  0 <= o -> consecutive o chunks ->
  Forall (Writer.inside (o + len (file_bytes chunks))) (call_at <$> chunks)
  /\ Forall (fun c => o <= Writer.at_offset c) (call_at <$> chunks)
  /\ Writer.pairwise_disjoint (call_at <$> chunks).
Proof.
  induction chunks as [|[co cb] chunks IH]; intros o Ho Hcons.
  - repeat split; constructor.
  - cbn in Hcons. destruct Hcons as (-> & Hpos & Hrest).
    destruct (IH (o + len cb) ltac:(lia) Hrest) as (Hin & Hlow & Hdis).
    assert (Hlen : len (file_bytes ((o, cb) :: chunks))
                   = len cb + len (file_bytes chunks)).
    { unfold file_bytes. cbn. rewrite len_app. reflexivity. }
    rewrite Hlen. cbn [fmap list_fmap].
    split; [|split].
    + constructor.
      * unfold Writer.inside, call_at. cbn.
        pose proof (len_nonneg (file_bytes chunks)). lia.
      * eapply Forall_impl; [exact Hin|].
        intros c Hc. unfold Writer.inside in *. lia.
    + constructor; [cbn; lia|].
      eapply Forall_impl; [exact Hlow|]. intros c Hc. cbn in Hc. lia.
    + cbn. split; [|exact Hdis].
      eapply Forall_impl; [exact Hlow|].
      intros c Hc x [Hx1 Hx2]. unfold Writer.in_range in *. cbn in *. lia.
Qed.

(** Every byte of the file lies in one chunk. *)
Lemma consecutive_lookup : forall chunks o,
  consecutive o chunks ->
  forall x : nat, (x < length (file_bytes chunks))%nat ->
  exists (c : Z * list Z) (i : nat),
    c ∈ chunks /\ o + Z.of_nat x = c.1 + Z.of_nat i
    /\ (i < length c.2)%nat
    /\ file_bytes chunks !! x = c.2 !! i.
Proof.
  induction chunks as [|[co cb] chunks IH]; intros o Hcons x Hx.
  - cbn in Hx. lia.
  - cbn in Hcons. destruct Hcons as (-> & Hpos & Hrest).
    unfold file_bytes in *. cbn [fmap list_fmap concat snd] in *.
    destruct (decide (x < length cb)%nat) as [Hlt|Hge].
    + exists (o, cb), x. split; [left|]. split; [reflexivity|].
      split; [exact Hlt|]. apply lookup_app_l. exact Hlt.
    + rewrite length_app in Hx.
      destruct (IH _ Hrest (x - length cb)%nat ltac:(lia))
        as (c & i & Hc & Hoff & Hi & Hlook).
      exists c, i. split; [right; exact Hc|].
      split; [unfold len in Hoff; lia|]. split; [exact Hi|].
      rewrite lookup_app_r by lia. exact Hlook.
Qed.

(** X21.  When the results the loop receives are, in some order, the
    chunks of the file (each starts where the previous one stops, from 0
    to the size of the file) and the loop ends without error, the file
    holds these chunks at their offsets, and the finalized checksum is
    the digest of the chunks in offset order, whatever the order of
    arrival; for a hash whose [Write] is insensitive to how the input is
    cut, it is the digest of the bytes that are on disk. *)
Theorem sink_checksum_of_disk (s0 s' : sink St)
    (arrivals : list (Writer.os_reply * Worker.resultItem))
    (chunks : list (Z * list Z)) :
  checksumGen s0 = NewChecksumGenerator ->
  is_Some (Writer.file (fileWriter s0)) ->
  len (Writer.disk (fileWriter s0)) = Writer.totalSize (fileWriter s0) ->
  Writer.totalSize (fileWriter s0) <= max_int64 ->
  consecutive 0 chunks ->
  len (file_bytes chunks) = Writer.totalSize (fileWriter s0) ->
  chunk_of <$> arrivals ≡ₚ chunks ->
  sink_run s0 arrivals = (s', None) ->
  Writer.disk (fileWriter s') = file_bytes chunks
  /\ Finalize (checksumGen s') = running_hash chunks
  /\ ((forall s a b, hash_write (hash_write s a) b = hash_write s (a ++ b)) ->
      (forall s, hash_write s [] = s) ->
      Finalize (checksumGen s')
      = hash_sum (hash_write hash_init (Writer.disk (fileWriter s')))).
Proof.
  intros Hnew Hopen Hdisk Hmax Hcons Htotal Hperm Hrun.
  destruct (sink_checksum_offset_order s0 s' arrivals chunks Hnew
              Hcons ltac:(lia) Hperm Hrun) as [Hsum Hbytes].
  destruct (sink_run_calls _ _ _ Hrun) as [Hw Hserved].
  destruct (consecutive_calls chunks 0 ltac:(lia) Hcons)
    as (Hinside & _ & Hdisjoint).
  rewrite Z.add_0_l, Htotal in Hinside.
  (* the calls of the loop are the calls that write the chunks *)
  assert (Hcalls : call_of <$> arrivals = call_at <$> (chunk_of <$> arrivals)).
  { rewrite <- list_fmap_compose. apply list_fmap_ext.
    intros k a Ha.
    assert (Hin : chunk_of a ∈ chunks).
    { rewrite <- Hperm. apply list_elem_of_fmap_2.
      eapply list_elem_of_lookup_2. exact Ha. }
    pose proof (consecutive_nonempty _ _ _ Hcons Hin) as Hpos.
    rewrite Forall_forall in Hserved.
    destruct (Hserved a) as [Hz|Hs].
    - eapply list_elem_of_lookup_2. exact Ha.
    - unfold call_of, chunk_of in *. cbn in *. lia.
    - unfold Writer.served in Hs. unfold call_of, call_at, chunk_of in *.
      cbn in *. rewrite Hs. reflexivity. }
  assert (Hperm' : call_of <$> arrivals ≡ₚ call_at <$> chunks).
  { rewrite Hcalls. apply fmap_Permutation. exact Hperm. }
  rewrite <- Hperm' in Hinside.
  apply (WriterSpec.pairwise_disjoint_perm _ (call_of <$> arrivals))
    in Hdisjoint; [|symmetry; exact Hperm'].
  assert (Hall : Forall Writer.served (call_of <$> arrivals)).
  { rewrite Hcalls. apply Forall_fmap, Forall_fmap, Forall_forall.
    intros a _. reflexivity. }
  destruct (WriterSpec.run_disk _ _ Hopen Hdisk Hmax Hall Hinside)
    as (_ & Hlen & _ & _).
  pose proof (WriterSpec.run_disk_lands _ _ Hopen Hdisk Hmax Hall Hinside
                Hdisjoint) as Hlands.
  rewrite <- Hw in Hlen, Hlands.
  assert (Hsame : Writer.disk (fileWriter s') = file_bytes chunks).
  { apply list_eq. intros x.
    destruct (decide (x < length (file_bytes chunks))%nat) as [Hx|Hx].
    - destruct (consecutive_lookup _ _ Hcons x Hx)
        as (c & i & Hc & Hoff & Hi & Hlook).
      assert (Hcall : call_at c ∈ call_of <$> arrivals).
      { rewrite Hperm'. apply list_elem_of_fmap_2. exact Hc. }
      rewrite Forall_forall in Hinside.
      pose proof (Hinside _ Hcall) as [Hlow _]. cbn in Hlow.
      specialize (Hlands _ i Hcall Hi). cbn in Hlands.
      replace (Z.to_nat c.1 + i)%nat with x in Hlands by lia.
      rewrite Hlands, Hlook. reflexivity.
    - rewrite !lookup_ge_None_2; [reflexivity|lia|].
      unfold len in *. lia. }
  split; [exact Hsame|]. split; [exact Hsum|].
  intros Happ Hnil. rewrite Hsame. apply Hbytes; assumption.
Qed.

End Disk.
Lemma sink_checksum_of_disk_witness :
  let s0 :=
    {| fileWriter :=
         {| Writer.file := Some {| Writer.bytes := replicate 8 0;
                                   Writer.position := 0 |};
            Writer.written := 0; Writer.totalSize := 8;
            Writer.path := "out.dat" |};
       checksumGen := NewChecksumGenerator (H := PolyHash);
       writtenBytes := 0;
       workerPool := Worker.NewWorkerPool 8 2 4;
       stopped := false |} in
  let late :=
    {| Worker.buffer := {| Worker.backing := [5; 6; 7; 8]; Worker.slen := 4 |};
       Worker.result_offset := 4 |} in
  let early :=
    {| Worker.buffer := {| Worker.backing := [1; 2; 3; 4]; Worker.slen := 4 |};
       Worker.result_offset := 0 |} in
  let arrivals := [ (Writer.os_ok 4, late);
                    (Writer.os_ok 4, early) ] in
  let chunks := [ (0, [1; 2; 3; 4]); (4, [5; 6; 7; 8]) ] in
  let s' := (sink_run (H := PolyHash) s0 arrivals).1 in
  Writer.disk (fileWriter s') = file_bytes chunks
  /\ Finalize (H := PolyHash) (checksumGen s')
     = running_hash (H := PolyHash) chunks
  /\ ((forall s a b, poly_write (poly_write s a) b = poly_write s (a ++ b)) ->
      (forall s, poly_write s [] = s) ->
      Finalize (H := PolyHash) (checksumGen s')
      = [poly_write 7 (Writer.disk (fileWriter s'))]).
Proof.
  intros s0 late early arrivals chunks s'.
  apply (sink_checksum_of_disk (H := PolyHash) s0 s' arrivals chunks).
  - reflexivity.
  - eexists. reflexivity.
  - reflexivity.
  - vm_compute. discriminate.
  - cbn. unfold len. cbn. lia.
  - reflexivity.
  - apply perm_swap.
  - vm_compute. reflexivity.
Defined.

(** The run of the witness: the second chunk arrives first. *)
Example sink_two_chunks_reversed :
  let s0 :=
    {| fileWriter :=
         {| Writer.file := Some {| Writer.bytes := replicate 8 0;
                                   Writer.position := 0 |};
            Writer.written := 0; Writer.totalSize := 8;
            Writer.path := "out.dat" |};
       checksumGen := NewChecksumGenerator (H := PolyHash);
       writtenBytes := 0;
       workerPool := Worker.NewWorkerPool 8 2 4;
       stopped := false |} in
  let late :=
    {| Worker.buffer := {| Worker.backing := [5; 6; 7; 8]; Worker.slen := 4 |};
       Worker.result_offset := 4 |} in
  let early :=
    {| Worker.buffer := {| Worker.backing := [1; 2; 3; 4]; Worker.slen := 4 |};
       Worker.result_offset := 0 |} in
  let s' := (sink_run (H := PolyHash) s0
               [ (Writer.os_ok 4, late); (Writer.os_ok 4, early) ]).1 in
  Writer.disk (fileWriter s') = [1; 2; 3; 4; 5; 6; 7; 8]
  /\ Finalize (H := PolyHash) (checksumGen s')
     = [poly_write 7 [1; 2; 3; 4; 5; 6; 7; 8]]
  /\ Writer.Written (fileWriter s') = 8.
Proof. vm_compute. repeat split. Qed.

Section Counters.

Context {St : Type} `{StreamingHash St}.

(** One result: the two counters move together, and the buffer goes back
    to the pool whether the write succeeded or not. *)
Lemma sink_step_counters (s : sink St) os result :
  writtenBytes s = Writer.Written (fileWriter s) ->
  in_int64 (writtenBytes s) ->
  let s' := (sink_step s os result).1 in
  writtenBytes s' = Writer.Written (fileWriter s')
  /\ in_int64 (writtenBytes s')
  /\ Worker.bufferPool (workerPool s')
     = Worker.buffer result :: Worker.bufferPool (workerPool s)
  /\ ((sink_step s os result).2 <> None -> stopped s' = true)
  /\ ((sink_step s os result).2 = None -> stopped s' = stopped s).
Proof.
  intros Heq Hin. unfold sink_step. cbn.
  destruct (Writer.WriteAt (fileWriter s) os
              (Worker.contents (Worker.buffer result))
              (Worker.result_offset result)) as [w [e|]] eqn:Hw; cbn.
  - apply WriterSpec.WriteAt_error in Hw as [Hw _].
    unfold Writer.Written in *. rewrite Hw.
    repeat split; auto; try congruence; destruct Hin; assumption.
  - apply WriterSpec.WriteAt_success in Hw as [_ Hw].
    unfold Writer.Written in *.
    destruct Hw as [[Hz ->]|(_ & _ & _ & _ & _ & _ & _ & Hw)].
    + rewrite Hz. unfold add64. rewrite Z.add_0_r, wrap64_id by exact Hin.
      repeat split; auto; try congruence; destruct Hin; assumption.
    + rewrite Hw, Heq.
      repeat split; auto; try congruence; apply wrap64_range.
Qed.


End Counters.


(** The run of the witness: the second chunk would end beyond the file,
    its write fails, the loop stops; four bytes are counted and both
    buffers are back in the pool. *)
Example sink_run_failed_write :
  let s : sink Z :=
    {| fileWriter :=
         {| Writer.file := Some {| Writer.bytes := replicate 8 0;
                                   Writer.position := 0 |};
            Writer.written := 0; Writer.totalSize := 8;
            Writer.path := "out" |};
       checksumGen := NewChecksumGenerator (H := PolyHash);
       writtenBytes := 0;
       workerPool := Worker.NewWorkerPool 8 2 4;
       stopped := false |} in
  let arrivals :=
    [ (Writer.os_ok 4,
       {| Worker.buffer := {| Worker.backing := [1; 2; 3; 4];
                              Worker.slen := 4 |};
          Worker.result_offset := 4 |});
      (Writer.os_ok 4,
       {| Worker.buffer := {| Worker.backing := [5; 6; 7; 8];
                              Worker.slen := 4 |};
          Worker.result_offset := 6 |}) ] in
  let s' := (sink_run (H := PolyHash) s arrivals).1 in
  writtenBytes s' = 4
  /\ Writer.disk (fileWriter s') = [0; 0; 0; 0; 1; 2; 3; 4]
  /\ stopped s' = true
  /\ length (Worker.bufferPool (workerPool s')) = 2%nat.
Proof. repeat split. Qed.

Section Full.

Context {G St : Type} `{GeneratorI G} `{StreamingHash St}.

Lemma Forall_insert_worker (C : Z) ws (t : nat) (w : worker_at) :
  Forall (holds_full C) ws -> holds_full C w ->
  Forall (holds_full C) (<[t := w]> ws).
Proof. intros Hws Hw. apply Forall_insert; assumption. Qed.

Lemma pipeline_step_full (C : Z) (pl pl' : pipeline G St) (ev : event) :
  Worker.fills_in_place G ->
  pipeline_full C pl ->
  pipeline_step pl ev = Some pl' ->
  pipeline_full C pl'.
Proof.
  intros Hfill (HC & Hpos & Hfull & Hvalid & Hwork & Hres & Hws) Hstep.
  unfold pipeline_step in Hstep. destruct ev as [t c|t k c|os].
  - destruct (workers pl !! t) as [[|work0|]|] eqn:Ht; try discriminate.
    unfold Worker.worker_receive in Hstep.
    assert (Htake : forall work rest,
      Worker.workChan (workerPool (sinkState pl)) = work :: rest ->
      pipeline_full C
        {| sinkState := set_workerPool (sinkState pl)
                          (Worker.set_workChan (workerPool (sinkState pl)) rest);
           generator := generator pl;
           workers := <[t := Holding work]> (workers pl) |}).
    { intros work rest Hchan. rewrite Hchan in Hwork.
      inversion Hwork as [|? ? Hw Hrest]; subst.
      unfold pipeline_full. cbn.
      repeat split; auto. apply Forall_insert_worker; assumption. }
    assert (Hleave : pipeline_full C
      {| sinkState := sinkState pl; generator := generator pl;
         workers := <[t := Gone]> (workers pl) |}).
    { unfold pipeline_full. cbn.
      repeat split; auto. apply Forall_insert_worker; [assumption|exact I]. }
    destruct (Worker.cancelled (workerPool (sinkState pl)));
      destruct (negb (len (Worker.workChan (workerPool (sinkState pl))) =? 0)
                || Worker.workClosed (workerPool (sinkState pl)));
      destruct c;
      try destruct (Worker.workChan (workerPool (sinkState pl)))
        as [|work rest] eqn:Hchan;
      inversion Hstep; subst; try exact Hleave;
      apply Htake; reflexivity.
  - destruct (workers pl !! t) as [[|work|]|] eqn:Ht; try discriminate.
    assert (Hwork_full : Worker.size work
                         = Worker.chunkSize (workerPool (sinkState pl))).
    { rewrite HC. exact (Forall_lookup_1 _ _ _ _ Hws Ht). }
    pose proof (WorkerSpec.worker_process_full (workerPool (sinkState pl))
                  (generator pl) work k c Hfill Hfull Hvalid
                  ltac:(lia) Hwork_full) as Hproc.
    destruct (Worker.worker_process (workerPool (sinkState pl))
                (generator pl) work k c) as [p' g'|p' g'| |];
      inversion Hstep; subst; clear Hstep.
    + destruct Hproc as (Hf' & Hv' & Hc' & Hw' & Hr').
      unfold pipeline_full. cbn. rewrite Hc', Hw', Hr'.
      repeat split; auto. apply Forall_insert_worker; [assumption|exact I].
    + destruct Hproc as (Hf' & Hv' & Hc' & Hw' & r & Hr' & Hrl & Hrok).
      unfold pipeline_full. cbn. rewrite Hc', Hw', Hr'.
      repeat split; auto.
      * apply Forall_app. split; [assumption|].
        constructor; [|constructor]. split; [congruence|assumption].
      * apply Forall_insert_worker; [assumption|exact I].
  - destruct (Worker.resultChan (workerPool (sinkState pl)))
      as [|result rest] eqn:Hchan; [discriminate|].
    inversion Hstep; subst; clear Hstep.
    inversion Hres as [|? ? [Hrl Hrok] Hrest]; subst.
    unfold pipeline_full. cbn [sinkState workers].
    rewrite sink_step_returns_buffer. cbn.
    repeat split; auto; constructor; auto; congruence.
Qed.

(** X20.  When nothing in the pipeline is shorter than a chunk (no short
    last item: the chunk size divides the total size), it stays so under
    every schedule of the workers and of the result loop: every result
    published carries exactly one chunk, and the buffers the result loop
    releases with [ReturnBuffer] keep the pool at full length. *)
Theorem pipeline_stays_full (C : Z) :
  Worker.fills_in_place G ->
  forall (events : list event) (pl pl' : pipeline G St),
    pipeline_full C pl ->
    pipeline_run events pl = Some pl' ->
    pipeline_full C pl'
    /\ Worker.pool_full (workerPool (sinkState pl'))
    /\ Forall (fun r => len (Worker.contents (Worker.buffer r)) = C)
         (Worker.resultChan (workerPool (sinkState pl'))).
Proof.
  intros Hfill.
  assert (Hrun : forall events (pl pl' : pipeline G St),
    pipeline_full C pl -> pipeline_run events pl = Some pl' ->
    pipeline_full C pl').
  { induction events as [|ev events IH]; intros pl pl' Hpl Hr.
    - inversion Hr; subst. exact Hpl.
    - cbn [pipeline_run] in Hr.
      destruct (pipeline_step pl ev) as [pl1|] eqn:Hstep; [|discriminate].
      apply (IH pl1 pl'); [|exact Hr].
      exact (pipeline_step_full C pl pl1 ev Hfill Hpl Hstep). }
  intros events pl pl' Hpl Hr.
  pose proof (Hrun events pl pl' Hpl Hr) as Hfull'.
  split; [exact Hfull'|].
  destruct Hfull' as (_ & _ & Hfull & _ & _ & Hres & _).
  split; [exact Hfull|].
  eapply Forall_impl; [exact Hres|].
  intros r [Hl Hok]. rewrite (WorkerSpec.contents_length _ Hok). exact Hl.
Qed.

End Full.

Lemma pipeline_stays_full_witness :
  exists pl' : pipeline SequentialGenerator Z,
    pipeline_run (H0 := PolyHash) even_schedule even_start = Some pl'
    /\ pipeline_full 8 pl'
    /\ Worker.pool_full (workerPool (sinkState pl'))
    /\ Forall (fun r => len (Worker.contents (Worker.buffer r)) = 8)
         (Worker.resultChan (workerPool (sinkState pl'))).
Proof.
  eexists. split; [vm_compute; reflexivity|].
  apply (pipeline_stays_full (H0 := PolyHash) 8) with
    (events := even_schedule) (pl := even_start).
  - intros g b. apply GeneratorSpec.Sequential_fill_length.
  - unfold pipeline_full. simpl.
    split; [reflexivity|]. split; [lia|].
    split; [constructor|]. split; [constructor|].
    split; [repeat constructor|]. split; [constructor|].
    repeat constructor.
  - vm_compute. reflexivity.
Defined.

(** The run of the witness, which starts where the dispatcher leaves the
    pool: 16 bytes written, both workers gone, one buffer of full length
    in the pool. *)
Example even_run :
  Worker.distributed (Worker.NewWorkerPool 8 2 8) 16 = Some even_pool
  /\ exists pl' : pipeline SequentialGenerator Z,
       pipeline_run (H0 := PolyHash) even_schedule even_start = Some pl'
       /\ Worker.slen <$> Worker.bufferPool (workerPool (sinkState pl')) = [8]
       /\ writtenBytes (sinkState pl') = 16
       /\ workers pl' = [Gone; Gone].
Proof.
  split; [vm_compute; reflexivity|].
  eexists. split; [vm_compute; reflexivity|]. repeat split.
Qed.

End CmdSpec.


(* ===================================================================== *)
(** ** Progress display *)
(* ===================================================================== *)

Module ProgressSpec.
Import Progress.

Lemma append_length (s1 s2 : string) :
  String.length (s1 +:+ s2) = (String.length s1 + String.length s2)%nat.
Proof.
  induction s1 as [|c s1 IH]; [reflexivity|].
  change (S (String.length (s1 +:+ s2))
          = S (String.length s1 + String.length s2)).
  f_equal. exact IH.
Qed.

Lemma iter_append_length (c : string) (n : nat) :
  String.length (Nat.iter n (String.append c) EmptyString)
  = (n * String.length c)%nat.
Proof.
  induction n as [|n IH]; [reflexivity|].
  change (Nat.iter (S n) (String.append c) EmptyString)
    with (c +:+ Nat.iter n (String.append c) EmptyString).
  rewrite append_length, IH. lia.
Qed.

Lemma Repeat_length (c : string) (count : Z) :
  0 <= count ->
  exists s, Repeat c count = Some s
            /\ String.length s = (Z.to_nat count * String.length c)%nat.
Proof.
  intros Hc. unfold Repeat. destruct (Z.ltb_spec count 0); [lia|].
  eexists. split; [reflexivity|]. apply iter_append_length.
Qed.

Section Bar.

Context {F : Type} `{Float64 F}.

(** X11.  Whatever the percentage (below 0, above 100, not a number) and
    whatever the conversion to [int] makes of it, [formatProgressBar] does
    not panic, and the bar it draws is exactly [width] characters wide
    between its brackets; with a negative [width] it is the empty
    bar. *)
Theorem formatProgressBar_width (percent : F) (width : Z) :
  in_int64 width ->
  exists bar,
    formatProgressBar percent width = Some bar
    /\ String.length bar = (Z.to_nat width + 2)%nat.
Proof.
  intros Hw. unfold formatProgressBar.
  set (c0 := bar_cells width percent). clearbody c0.
  set (c1 := if width <? c0 then width else c0).
  assert (Hc1 : c1 <= width) by (unfold c1; destruct (Z.ltb_spec width c0); lia).
  clearbody c1.
  set (c2 := if c1 <? 0 then 0 else c1).
  assert (Hc2 : 0 <= c2 /\ (0 <= width -> c2 <= width) /\ (width < 0 -> c2 = 0))
    by (unfold c2; destruct (Z.ltb_spec c1 0); lia).
  clearbody c2. destruct Hc2 as (Hpos & Hle & Hneg).
  destruct (Repeat_length "=" c2 Hpos) as (bar & -> & Hbar).
  destruct (Z.ltb_spec c2 width) as [Hlt|Hge].
  - rewrite (sub64_id width c2)
      by (unfold in_int64, min_int64, max_int64 in *; lia).
    rewrite sub64_id
      by (unfold in_int64, min_int64, max_int64 in *; lia).
    destruct (Repeat_length " " (width - c2 - 1) ltac:(lia)) as (pad & -> & Hpad).
    eexists. split; [reflexivity|].
    cbn [String.length String.append].
    rewrite !append_length, Hbar, Hpad. cbn [String.length]. lia.
  - eexists. split; [reflexivity|].
    cbn [String.length String.append].
    rewrite !append_length, Hbar. cbn [String.length]. lia.
Qed.

End Bar.

Lemma formatProgressBar_width_witness :
  exists bar,
    formatProgressBar (H := WholePercent) 50 30 = Some bar
    /\ String.length bar = (Z.to_nat 30 + 2)%nat.
Proof.
  apply (formatProgressBar_width (H := WholePercent) 50 30).
  vm_compute. split; discriminate.
Defined.

(** Half of a bar of ten cells, and a percentage far out of range. *)
Example formatProgressBar_half :
  formatProgressBar (H := WholePercent) 50 10 = Some "[=====>    ]"%string
  /\ formatProgressBar (H := WholePercent) 250 10 = Some "[==========]"%string
  /\ formatProgressBar (H := WholePercent) (-3) 10 = Some "[>         ]"%string.
Proof. repeat split. Qed.

Section Duration.

Context {F : Type} `{Float64 F}.

(** X12.  From one minute on, [formatDuration] shows the two largest
    units and cuts the rest off: the output is the same as for the
    duration rounded down to a whole second (below one hour), to a whole
    minute (below one day) or to a whole hour; it never rounds up. *)
Theorem formatDuration_truncates (d : Z) :
  Minute <= d ->
  formatDuration d = formatDuration (d - Z.rem d (grain d)).
Proof.
  unfold formatDuration, grain, Hour, Minute, Second. intros Hd.
  destruct (Z.eqb_spec d 0); [lia|].
  destruct (Z.ltb_spec d 0); [lia|].
  destruct (Z.ltb_spec d (60 * 1000000000)); [lia|].
  destruct (Z.ltb_spec d (60 * (60 * 1000000000))) as [Hh|Hh].
  - set (d' := d - Z.rem d 1000000000).
    assert (Hd' : 60 * 1000000000 <= d' < 60 * (60 * 1000000000)
                  /\ Z.quot d' (60 * 1000000000) = Z.quot d (60 * 1000000000)
                  /\ Z.quot (Z.rem d' (60 * 1000000000)) 1000000000
                     = Z.quot (Z.rem d (60 * 1000000000)) 1000000000).
    { unfold d'. Z.quot_rem_to_equations. lia. }
    destruct Hd' as (Hr & -> & ->). clearbody d'.
    destruct (Z.eqb_spec d' 0); [lia|].
    destruct (Z.ltb_spec d' 0); [lia|].
    destruct (Z.ltb_spec d' (60 * 1000000000)); [lia|].
    destruct (Z.ltb_spec d' (60 * (60 * 1000000000))); [|lia].
    reflexivity.
  - destruct (Z.ltb_spec d (24 * (60 * (60 * 1000000000)))) as [Hday|Hday].
    + set (d' := d - Z.rem d (60 * 1000000000)).
      assert (Hd' : 60 * (60 * 1000000000) <= d'
                      < 24 * (60 * (60 * 1000000000))
                    /\ Z.quot d' (60 * (60 * 1000000000))
                       = Z.quot d (60 * (60 * 1000000000))
                    /\ Z.quot (Z.rem d' (60 * (60 * 1000000000)))
                         (60 * 1000000000)
                       = Z.quot (Z.rem d (60 * (60 * 1000000000)))
                           (60 * 1000000000)).
      { unfold d'. Z.quot_rem_to_equations. lia. }
      destruct Hd' as (Hr & -> & ->). clearbody d'.
      destruct (Z.eqb_spec d' 0); [lia|].
      destruct (Z.ltb_spec d' 0); [lia|].
      destruct (Z.ltb_spec d' (60 * 1000000000)); [lia|].
      destruct (Z.ltb_spec d' (60 * (60 * 1000000000))); [lia|].
      destruct (Z.ltb_spec d' (24 * (60 * (60 * 1000000000)))); [|lia].
      reflexivity.
    + set (d' := d - Z.rem d (60 * (60 * 1000000000))).
      assert (Hd' : 24 * (60 * (60 * 1000000000)) <= d'
                    /\ Z.quot d' (24 * (60 * (60 * 1000000000)))
                       = Z.quot d (24 * (60 * (60 * 1000000000)))
                    /\ Z.quot (Z.rem d' (24 * (60 * (60 * 1000000000))))
                         (60 * (60 * 1000000000))
                       = Z.quot (Z.rem d (24 * (60 * (60 * 1000000000))))
                           (60 * (60 * 1000000000))).
      { unfold d'. Z.quot_rem_to_equations. lia. }
      destruct Hd' as (Hr & -> & ->). clearbody d'.
      destruct (Z.eqb_spec d' 0); [lia|].
      destruct (Z.ltb_spec d' 0); [lia|].
      destruct (Z.ltb_spec d' (60 * 1000000000)); [lia|].
      destruct (Z.ltb_spec d' (60 * (60 * 1000000000))); [lia|].
      destruct (Z.ltb_spec d' (24 * (60 * (60 * 1000000000)))); [lia|].
      reflexivity.
Qed.

End Duration.

Lemma formatDuration_truncates_witness :
  formatDuration (H := WholePercent) 7199999999999
  = formatDuration (H := WholePercent)
      (7199999999999 - Z.rem 7199999999999 (grain 7199999999999)).
Proof.
  apply (formatDuration_truncates (H := WholePercent) 7199999999999).
  vm_compute. discriminate.
Defined.

(** One nanosecond short of two hours. *)
Example formatDuration_two_hours :
  formatDuration (H := WholePercent) 7199999999999 = "1h59m"%string
  /\ formatDuration (H := WholePercent) 7200000000000 = "2h"%string
  /\ formatDuration (H := WholePercent) 61000000000 = "1m1s"%string
  /\ formatDuration (H := WholePercent) 90000000000000 = "1d1h"%string.
Proof. repeat split. Qed.

End ProgressSpec.


(* ===================================================================== *)
(** ** Size parser *)
(* ===================================================================== *)

Module SizeparserSpec.
Import Sizeparser.

(** [Parse] returns a size only between one byte and ten pebibytes. *)
Lemma Parse_range cpu s n :
  Parse cpu s = (n, None) -> 1 <= n <= maxSize.
Proof.
  unfold Parse. destruct (String.eqb s ""); [discriminate|].
  destruct (FindStringSubmatch _) as [[[whole frac] unit]|]; [|discriminate].
  destruct (ParseFloat whole frac) as [value|]; [|discriminate].
  destruct (multiplier unit) as [mult|]; [|discriminate].
  destruct (Z.ltb_spec (int64_of cpu (fmul value (float64_of mult))) 1);
    [discriminate|].
  destruct (Z.ltb_spec maxSize
              (int64_of cpu (fmul value (float64_of mult))));
    [discriminate|].
  intros Heq. inversion Heq; subst. lia.
Qed.

(** *** Rounding a value that a [float64] holds *)

Lemma shifted_dyadic (a t k e : Z) :
  0 < a -> 0 <= t -> 0 <= k ->
  e = Z.log2 a + t - k - 52 -> Z.log2 a <= 52 ->
  exists d, 0 < d
            /\ shifted (a * 2 ^ t) (2 ^ k) e
               = (a * 2 ^ (52 - Z.log2 a) * d, d).
Proof.
  intros Ha Ht Hk -> HL. unfold shifted.
  pose proof (Z.log2_nonneg a) as HL0.
  destruct (Z.leb_spec 0 (Z.log2 a + t - k - 52)) as [He|He].
  - exists (2 ^ k * 2 ^ (Z.log2 a + t - k - 52)).
    split; [apply Z.mul_pos_pos; apply Z.pow_pos_nonneg; lia|].
    f_equal. rewrite <- Z.pow_add_r by lia.
    rewrite <- Z.mul_assoc, <- Z.pow_add_r by lia.
    f_equal. f_equal. lia.
  - exists (2 ^ k). split; [apply Z.pow_pos_nonneg; lia|].
    f_equal. rewrite <- !Z.mul_assoc, <- !Z.pow_add_r by lia.
    f_equal. f_equal. lia.
Qed.

Lemma mantissa_normal (a : Z) :
  0 < a -> Z.log2 a <= 52 ->
  2 ^ 52 <= a * 2 ^ (52 - Z.log2 a) < 2 ^ 53.
Proof.
  intros Ha HL. pose proof (Z.log2_nonneg a) as HL0.
  destruct (Z.log2_spec a Ha) as [Hlo Hhi].
  replace (Z.succ (Z.log2 a)) with (Z.log2 a + 1) in Hhi by lia.
  assert (Hp : 0 < 2 ^ (52 - Z.log2 a)) by (apply Z.pow_pos_nonneg; lia).
  assert (H52 : 2 ^ 52 = 2 ^ Z.log2 a * 2 ^ (52 - Z.log2 a))
    by (rewrite <- Z.pow_add_r by lia; f_equal; lia).
  assert (H53 : 2 ^ 53 = 2 ^ (Z.log2 a + 1) * 2 ^ (52 - Z.log2 a))
    by (rewrite <- Z.pow_add_r by lia; f_equal; lia).
  rewrite H52, H53. split.
  - apply Z.mul_le_mono_nonneg_r; lia.
  - apply Z.mul_lt_mono_pos_r; lia.
Qed.

(** A value [a * 2^t / 2^k] whose mantissa fits in 53 bits and whose
    exponent is in range is its own rounding. *)
Lemma round64_dyadic (a t k : Z) :
  0 < a -> 0 <= t -> 0 <= k -> Z.log2 a <= 52 ->
  - 1074 <= Z.log2 a + t - k - 52 <= 971 ->
  round64 (a * 2 ^ t) (2 ^ k)
  = Finite (a * 2 ^ (52 - Z.log2 a)) (Z.log2 a + t - k - 52).
Proof.
  intros Ha Ht Hk HL He. unfold round64.
  assert (Hnum : 0 < a * 2 ^ t)
    by (apply Z.mul_pos_pos; [lia|apply Z.pow_pos_nonneg; lia]).
  destruct (Z.eqb_spec (a * 2 ^ t) 0); [lia|].
  rewrite Z.log2_mul_pow2, Z.log2_pow2 by lia.
  replace (t + Z.log2 a - k - 52) with (Z.log2 a + t - k - 52) by lia.
  set (e := Z.log2 a + t - k - 52) in *.
  destruct (shifted_dyadic a t k e Ha Ht Hk eq_refl HL) as (d & Hd & Hsh).
  pose proof (mantissa_normal a Ha HL) as Hm.
  set (Q := a * 2 ^ (52 - Z.log2 a)) in *.
  rewrite Hsh. rewrite Z.div_mul by lia.
  destruct (Z.ltb_spec Q (2 ^ 52)); [lia|].
  rewrite Z.max_l by lia. rewrite Hsh.
  rewrite Z.div_mul, Z.mod_mul by lia.
  destruct (Z.ltb_spec d (2 * 0)); [lia|].
  destruct (Z.eqb_spec (2 * 0) d); [lia|]. cbn [orb andb].
  destruct (Z.ltb_spec 971 e); [lia|].
  destruct (Z.eqb_spec Q (2 ^ 53)); [lia|].
  rewrite andb_false_r. reflexivity.
Qed.

(** An integer below [2^53] times a power of two, through [ParseFloat],
    the multiplication and the conversion back: nothing is lost. *)
Lemma int64_of_scaled cpu (n u : Z) :
  0 <= n < 2 ^ 53 -> 0 <= u <= 64 ->
  int64_of cpu (fmul (round64 n 1) (float64_of (2 ^ u)))
  = if n * 2 ^ u <=? max_int64 then n * 2 ^ u else out_of_range cpu.
Proof.
  intros Hn Hu.
  assert (Hpu : 0 < 2 ^ u) by (apply Z.pow_pos_nonneg; lia).
  destruct (Z.eq_dec n 0) as [->|Hn0].
  { unfold round64 at 1. cbn [Z.eqb fmul float64_of Z.add Z.leb Z.compare].
    rewrite !Z.mul_0_l. cbn. destruct cpu; reflexivity. }
  assert (HL : Z.log2 n <= 52).
  { assert (Z.log2 n < 53) by (apply Z.log2_lt_pow2; lia). lia. }
  pose proof (Z.log2_nonneg n) as HL0.
  pose proof (mantissa_normal n ltac:(lia) HL) as HQ.
  replace (round64 n 1) with (round64 (n * 2 ^ 0) (2 ^ 0))
    by (f_equal; cbn; lia).
  rewrite round64_dyadic by lia.
  set (Q := n * 2 ^ (52 - Z.log2 n)) in *.
  assert (HLQ : Z.log2 Q = 52).
  { unfold Q. rewrite Z.log2_mul_pow2 by lia. lia. }
  replace (Z.log2 n + 0 - 0 - 52) with (Z.log2 n - 52) by lia.
  unfold fmul, float64_of. rewrite Z.add_0_r.
  assert (Hres : (if 0 <=? Z.log2 n - 52
                  then round64 (Q * 2 ^ u * 2 ^ (Z.log2 n - 52)) 1
                  else round64 (Q * 2 ^ u) (2 ^ (- (Z.log2 n - 52))))
                 = Finite Q (u + Z.log2 n - 52)).
  { destruct (Z.leb_spec 0 (Z.log2 n - 52)) as [He|He].
    - assert (Z.log2 n = 52) as HL52 by lia. rewrite HL52.
      replace (Q * 2 ^ u * 2 ^ (52 - 52)) with (Q * 2 ^ u) by (cbn; lia).
      change 1 with (2 ^ 0) at 1.
      rewrite round64_dyadic by lia.
      rewrite HLQ. f_equal; [cbn; lia|lia].
    - rewrite round64_dyadic by lia.
      rewrite HLQ. f_equal; [cbn; lia|lia]. }
  rewrite Hres. unfold int64_of.
  assert (Hval : (if 0 <=? u + Z.log2 n - 52
                  then Q * 2 ^ (u + Z.log2 n - 52)
                  else Q / 2 ^ (- (u + Z.log2 n - 52))) = n * 2 ^ u).
  { destruct (Z.leb_spec 0 (u + Z.log2 n - 52)) as [He|He].
    - unfold Q. rewrite <- Z.mul_assoc, <- Z.pow_add_r by lia.
      f_equal. f_equal. lia.
    - unfold Q.
      replace (52 - Z.log2 n) with (u + (- (u + Z.log2 n - 52))) by lia.
      rewrite Z.pow_add_r by lia. rewrite Z.mul_assoc.
      apply Z.div_mul.
      assert (0 < 2 ^ (- (u + Z.log2 n - 52)))
        by (apply Z.pow_pos_nonneg; lia).
      lia. }
  rewrite Hval. reflexivity.
Qed.

(** *** Numerals *)

Lemma digits_value_app : forall a b acc,
  digits_value acc (a +:+ b) = digits_value (digits_value acc a) b.
Proof.
  induction a as [|c a IH]; intros b acc; [reflexivity|].
  change (String c a +:+ b) with (String c (a +:+ b)).
  cbn [digits_value]. apply IH.
Qed.

Lemma all_digits_app : forall a b,
  all_digits (a +:+ b) = all_digits a && all_digits b.
Proof.
  induction a as [|c a IH]; intros b; [reflexivity|].
  change (String c a +:+ b) with (String c (a +:+ b)).
  cbn [all_digits]. rewrite IH, andb_assoc. reflexivity.
Qed.

Lemma append_assoc : forall a b c : string, (a +:+ b) +:+ c = a +:+ (b +:+ c).
Proof.
  induction a as [|x a IH]; intros b c; [reflexivity|].
  change ((String x a +:+ b) +:+ c) with (String x ((a +:+ b) +:+ c)).
  rewrite IH. reflexivity.
Qed.

Lemma string_length_app : forall a b : string,
  String.length (a +:+ b) = (String.length a + String.length b)%nat.
Proof.
  induction a as [|x a IH]; intros b; [reflexivity|].
  change (String x a +:+ b) with (String x (a +:+ b)).
  cbn [String.length]. rewrite IH. reflexivity.
Qed.

Lemma pretty_N_char_digit (d : N) :
  (d < 10)%N ->
  is_digit (pretty_N_char d) = true
  /\ code (pretty_N_char d) - 48 = Z.of_N d.
Proof.
  intros Hd.
  assert (d = 0 \/ d = 1 \/ d = 2 \/ d = 3 \/ d = 4 \/ d = 5 \/ d = 6
          \/ d = 7 \/ d = 8 \/ d = 9)%N as Hcases by lia.
  repeat (destruct Hcases as [->|Hcases]; [split; reflexivity|]).
  subst d. split; reflexivity.
Qed.

(** The digits [pretty] prints for a natural number: digits only, worth
    the number. *)
Lemma pretty_N_go_digits (x : N) : forall s,
  exists ds,
    pretty_N_go x s = ds +:+ s
    /\ all_digits ds = true
    /\ ((0 < x)%N -> ds <> EmptyString)
    /\ forall acc,
         digits_value acc ds
         = acc * 10 ^ Z.of_nat (String.length ds) + Z.of_N x.
Proof.
  induction (N.lt_wf_0 x) as [x _ IH]. intros s.
  destruct (N.eq_dec x 0%N) as [->|Hx].
  - exists EmptyString. rewrite pretty_N_go_0.
    split; [reflexivity|]. split; [reflexivity|]. split; [lia|].
    intros acc. cbn. lia.
  - assert (Hpos : (0 < x)%N) by lia.
    rewrite pretty_N_go_step by exact Hpos.
    destruct (IH (x `div` 10)%N (N.div_lt x 10 Hpos eq_refl)
                (String (pretty_N_char (x `mod` 10)) s))
      as (ds & Hgo & Hall & _ & Hval).
    destruct (pretty_N_char_digit (x `mod` 10)%N) as [Hdig Hcode].
    { apply N.mod_lt. lia. }
    exists (ds +:+ String (pretty_N_char (x `mod` 10)) EmptyString).
    split; [rewrite Hgo, append_assoc; reflexivity|].
    split.
    { rewrite all_digits_app, Hall. cbn [all_digits]. rewrite Hdig.
      reflexivity. }
    split.
    { intros _. destruct ds; discriminate. }
    intros acc. rewrite digits_value_app, Hval. cbn [digits_value].
    rewrite Hcode, string_length_app. cbn [String.length].
    rewrite Nat2Z.inj_add, Z.pow_add_r by lia.
    change (10 ^ Z.of_nat 1) with 10.
    pose proof (N.div_mod x 10 ltac:(lia)) as Hdm.
    apply (f_equal Z.of_N) in Hdm.
    rewrite N2Z.inj_add, N2Z.inj_mul in Hdm. cbn in Hdm. lia.
Qed.

Lemma pretty_Z_digits (n : Z) :
  0 <= n ->
  all_digits (pretty n) = true
  /\ pretty n <> EmptyString
  /\ digits_value 0 (pretty n) = n.
Proof.
  intros Hn. destruct n as [|p|p]; [repeat split; discriminate| |lia].
  unfold pretty, pretty_Z, pretty, pretty_positive, pretty, pretty_N.
  destruct (decide (N.pos p = 0%N)); [discriminate|].
  destruct (pretty_N_go_digits (N.pos p) EmptyString)
    as (ds & Hgo & Hall & Hne & Hval).
  assert (Hnil : forall a : string, a +:+ EmptyString = a).
  { induction a as [|c a IHa]; [reflexivity|].
    change (String c a +:+ EmptyString) with (String c (a +:+ EmptyString)).
    rewrite IHa. reflexivity. }
  rewrite Hgo, Hnil. split; [exact Hall|]. split; [apply Hne; lia|].
  rewrite Hval. cbn. reflexivity.
Qed.

(** *** Text that is already normal *)

Lemma digit_plain (c : Ascii.ascii) :
  is_digit c = true -> asciiSpace c = false /\ upper c = c.
Proof.
  unfold is_digit, asciiSpace, upper. intros Hd.
  apply andb_true_iff in Hd as [H1 H2].
  apply Z.leb_le in H1. apply Z.leb_le in H2.
  destruct (Z.leb_spec 9 (code c)); destruct (Z.leb_spec (code c) 13);
    destruct (Z.eqb_spec (code c) 32); destruct (Z.leb_spec 97 (code c));
    destruct (Z.leb_spec (code c) 122); cbn; try lia; auto.
Qed.

Lemma ToUpper_app : forall a b, ToUpper (a +:+ b) = ToUpper a +:+ ToUpper b.
Proof.
  induction a as [|c a IH]; intros b; [reflexivity|].
  change (String c a +:+ b) with (String c (a +:+ b)).
  cbn [ToUpper]. rewrite IH. reflexivity.
Qed.

Lemma ToUpper_digits : forall ds, all_digits ds = true -> ToUpper ds = ds.
Proof.
  induction ds as [|c ds IH]; [reflexivity|]. cbn [all_digits ToUpper].
  intros Hd. apply andb_true_iff in Hd as [Hc Hds].
  destruct (digit_plain c Hc) as [_ ->]. rewrite IH by exact Hds. reflexivity.
Qed.

(** A text that ends with a byte that is no space loses nothing on the
    right. *)
Lemma trim_right_ends : forall s (c : Ascii.ascii),
  asciiSpace c = false ->
  trim_right (s +:+ String c EmptyString) = s +:+ String c EmptyString.
Proof.
  induction s as [|a s IH]; intros c Hc.
  - change (EmptyString +:+ String c EmptyString) with (String c EmptyString).
    cbn [trim_right]. rewrite Hc. reflexivity.
  - change (String a s +:+ String c EmptyString)
      with (String a (s +:+ String c EmptyString)).
    cbn [trim_right]. rewrite IH by exact Hc.
    destruct s; reflexivity.
Qed.

Lemma span_digits_app : forall ds rest,
  all_digits ds = true ->
  match rest with
  | EmptyString => True
  | String c _ => is_digit c = false
  end ->
  span_digits (ds +:+ rest) = (ds, rest).
Proof.
  induction ds as [|c ds IH]; intros rest Hd Hrest.
  - change (EmptyString +:+ rest) with rest.
    destruct rest as [|c rest]; [reflexivity|].
    cbn [span_digits]. rewrite Hrest. reflexivity.
  - change (String c ds +:+ rest) with (String c (ds +:+ rest)).
    cbn [all_digits] in Hd. apply andb_true_iff in Hd as [Hc Hds].
    cbn [span_digits]. rewrite Hc, IH by assumption. reflexivity.
Qed.

(** The six units, and what a unit looks like to the rest of [Parse]. *)
Lemma multiplier_units unit M :
  multiplier unit = Some M ->
  exists (u : Z) (letters : string),
    0 <= u <= 50 /\ M = 2 ^ u
    /\ is_unit unit = true
    /\ ToUpper unit = unit
    /\ unit = letters +:+ "B"
    /\ match unit with
       | EmptyString => False
       | String c _ => is_digit c = false /\ (code c =? 46) = false
                       /\ asciiSpace c = false
       end.
Proof.
  unfold multiplier, is_unit.
  destruct (String.eqb_spec unit "B") as [->|_];
    [intros [= <-]; exists 0, ""%string; repeat split; cbn; lia|].
  destruct (String.eqb_spec unit "KB") as [->|_];
    [intros [= <-]; exists 10, "K"%string; repeat split; cbn; lia|].
  destruct (String.eqb_spec unit "MB") as [->|_];
    [intros [= <-]; exists 20, "M"%string; repeat split; cbn; lia|].
  destruct (String.eqb_spec unit "GB") as [->|_];
    [intros [= <-]; exists 30, "G"%string; repeat split; cbn; lia|].
  destruct (String.eqb_spec unit "TB") as [->|_];
    [intros [= <-]; exists 40, "T"%string; repeat split; cbn; lia|].
  destruct (String.eqb_spec unit "PB") as [->|_];
    [intros [= <-]; exists 50, "P"%string; repeat split; cbn; lia|].
  discriminate.
Qed.

(** A numeral followed by a unit is read as it stands. *)
Lemma numeral_unit_normal (ds unit : string) (M : Z) :
  all_digits ds = true -> ds <> EmptyString ->
  multiplier unit = Some M ->
  String.eqb (ds +:+ unit) "" = false
  /\ ToUpper (TrimSpace (ds +:+ unit)) = ds +:+ unit
  /\ FindStringSubmatch (ds +:+ unit) = Some (ds, EmptyString, unit).
Proof.
  intros Hd Hne HM.
  destruct (multiplier_units unit M HM)
    as (u & letters & _ & _ & Hunit & Hup & Hend & Hfirst).
  destruct ds as [|c ds]; [congruence|].
  cbn [all_digits] in Hd. apply andb_true_iff in Hd as [Hc Hds].
  destruct (digit_plain c Hc) as [Hsp Hupc].
  split; [reflexivity|]. split.
  - unfold TrimSpace.
    change (String c ds +:+ unit) with (String c (ds +:+ unit)).
    cbn [trim_left]. rewrite Hsp.
    change (String c (ds +:+ unit)) with (String c ds +:+ unit).
    rewrite Hend at 1 2.
    rewrite <- append_assoc, trim_right_ends by reflexivity.
    rewrite append_assoc, <- Hend, ToUpper_app, Hup.
    cbn [ToUpper]. rewrite Hupc, ToUpper_digits by exact Hds. reflexivity.
  - unfold FindStringSubmatch.
    rewrite span_digits_app.
    + destruct unit as [|c' unit']; [contradiction|].
      destruct Hfirst as (_ & Hpoint & _). rewrite Hpoint, Hunit.
      reflexivity.
    + cbn [all_digits]. rewrite Hc, Hds. reflexivity.
    + destruct unit as [|c' unit']; [exact I|]. apply Hfirst.
Qed.

Lemma round64_whole_finite (n : Z) :
  0 <= n < 2 ^ 53 -> exists m e, round64 n 1 = Finite m e.
Proof.
  intros Hn. destruct (Z.eq_dec n 0) as [->|Hn0]; [do 2 eexists; reflexivity|].
  assert (HL : Z.log2 n <= 52).
  { assert (Z.log2 n < 53) by (apply Z.log2_lt_pow2; lia). lia. }
  pose proof (Z.log2_nonneg n).
  replace (round64 n 1) with (round64 (n * 2 ^ 0) (2 ^ 0))
    by (f_equal; cbn; lia).
  rewrite round64_dyadic by lia. do 2 eexists. reflexivity.
Qed.

(** X15.  A whole number of bytes, kilobytes, ... written in decimal is
    parsed exactly as long as the number is below [2^53]: [Parse] returns
    the number times the unit when that lies between one byte and ten
    pebibytes, and an error (with the size 0) otherwise.  The rounding to
    [float64], the multiplication and the conversion back lose nothing in
    that range. *)
Theorem Parse_whole (cpu : processor) (n : Z) (unit : string) (M : Z) :
  0 <= n < 2 ^ 53 ->
  multiplier unit = Some M ->
  match Parse cpu (pretty n +:+ unit) with
  | (bytes, None) => bytes = n * M /\ 1 <= n * M <= maxSize
  | (bytes, Some _) => bytes = 0 /\ (n * M < 1 \/ maxSize < n * M)
  end.
Proof.
  intros Hn HM.
  destruct (pretty_Z_digits n ltac:(lia)) as (Hall & Hne & Hval).
  destruct (numeral_unit_normal (pretty n) unit M Hall Hne HM)
    as (Hempty & Hnorm & Hfind).
  destruct (multiplier_units unit M HM) as (u & _ & Hu & -> & _).
  unfold Parse. rewrite Hempty, Hnorm, Hfind.
  unfold ParseFloat. cbn [digits_value String.length].
  rewrite Hval. change (10 ^ Z.of_nat 0) with 1.
  destruct (round64_whole_finite n Hn) as (m & e & Hround).
  rewrite Hround, <- Hround, HM.
  assert (Hpu : 0 < 2 ^ u) by (apply Z.pow_pos_nonneg; lia).
  assert (Hmax : maxSize = 11258999068426240) by reflexivity.
  rewrite int64_of_scaled by lia.
  destruct (Z.leb_spec (n * 2 ^ u) max_int64) as [Hfit|Hover].
  - destruct (Z.ltb_spec (n * 2 ^ u) 1); [split; [reflexivity|lia]|].
    destruct (Z.ltb_spec maxSize (n * 2 ^ u)); [split; [reflexivity|lia]|].
    split; [reflexivity|lia].
  - assert (maxSize < n * 2 ^ u) by (unfold max_int64 in Hover; lia).
    destruct cpu; cbn [out_of_range].
    + destruct (Z.ltb_spec min_int64 1) as [_|Hc];
        [split; [reflexivity|lia]|exfalso; unfold min_int64 in Hc; lia].
    + destruct (Z.ltb_spec max_int64 1) as [Hc|_];
        [exfalso; unfold max_int64 in Hc; lia|].
      destruct (Z.ltb_spec maxSize max_int64) as [_|Hc];
        [split; [reflexivity|lia]|exfalso; unfold max_int64 in Hc; lia].
Qed.

Lemma Parse_whole_witness :
  match Parse Amd64 (pretty 3 +:+ "GB") with
  | (bytes, None) =>
      bytes = 3 * (1024 * 1024 * 1024)
      /\ 1 <= 3 * (1024 * 1024 * 1024) <= maxSize
  | (bytes, Some _) =>
      bytes = 0
      /\ (3 * (1024 * 1024 * 1024) < 1 \/ maxSize < 3 * (1024 * 1024 * 1024))
  end.
Proof.
  apply (Parse_whole Amd64 3 "GB" (1024 * 1024 * 1024)).
  - vm_compute. split; [discriminate|reflexivity].
  - reflexivity.
Defined.

(** [TestParse] and [TestParseWhitespace], and what the arithmetic in
    [float64] does at the edges: above [2^53] a whole number of bytes is
    rounded to the nearest even one, and a fraction just below one byte
    is read as one byte. *)
Example Parse_examples :
  map (Parse Amd64)
    ["100B"; "1KB"; "1.5GB"; "2.25MB"; "0.5KB"; "1.5Gb"; "10PB"; "  1GB  "]%string
  = [ (100, None); (1024, None); (1610612736, None); (2359296, None);
      (512, None); (1610612736, None); (11258999068426240, None);
      (1073741824, None) ]
  /\ map (fun s => (Parse Amd64 s).1)
       [""; "invalid"; "GB"; "100"; "100XB"; "-1GB"; "0B"; "11PB";
        "1.2.3GB"; "1 GB"]%string
     = [0; 0; 0; 0; 0; 0; 0; 0; 0; 0]
  /\ Parse Amd64 "9007199254740993B" = (9007199254740992, None)
  /\ Parse Amd64 "0.99999999999999999B" = (1, None)
  /\ Parse Amd64 "0B" = (0, Some "size must be at least 1 byte"%string)
  /\ Parse Amd64 "11PB" = (0, Some "size must be at most 10PB"%string)
  /\ Parse Amd64 "99999999999999999999999999PB"
     = (0, Some "size must be at least 1 byte"%string)
  /\ Parse Arm64 "99999999999999999999999999PB"
     = (0, Some "size must be at most 10PB"%string).
Proof. repeat split; vm_compute; reflexivity. Qed.

(** *** Letter case and white space *)

Lemma upper_facts (c : Ascii.ascii) :
  upper (upper c) = upper c /\ asciiSpace (upper c) = asciiSpace c.
Proof.
  destruct c as [[] [] [] [] [] [] [] []]; split; reflexivity.
Qed.

Lemma ToUpper_idem : forall s, ToUpper (ToUpper s) = ToUpper s.
Proof.
  induction s as [|c s IH]; [reflexivity|]. cbn [ToUpper].
  rewrite IH. destruct (upper_facts c) as [-> _]. reflexivity.
Qed.

Lemma trim_left_ToUpper : forall s,
  trim_left (ToUpper s) = ToUpper (trim_left s).
Proof.
  induction s as [|c s IH]; [reflexivity|]. cbn [ToUpper trim_left].
  destruct (upper_facts c) as [_ ->].
  destruct (asciiSpace c); [exact IH|reflexivity].
Qed.

Lemma trim_right_ToUpper : forall s,
  trim_right (ToUpper s) = ToUpper (trim_right s).
Proof.
  induction s as [|c s IH]; [reflexivity|]. cbn [ToUpper trim_right].
  rewrite IH. destruct (upper_facts c) as [_ ->].
  destruct (trim_right s); cbn [ToUpper];
    [destruct (asciiSpace c)|]; reflexivity.
Qed.

Lemma trim_left_no_lead : forall s, no_lead (trim_left s).
Proof.
  induction s as [|c s IH]; [exact I|]. cbn [trim_left].
  destruct (asciiSpace c) eqn:Hc; [exact IH|exact Hc].
Qed.

Lemma trim_left_id s : no_lead s -> trim_left s = s.
Proof. destruct s as [|c s]; [reflexivity|]. cbn. intros ->. reflexivity. Qed.

Lemma trim_right_no_lead s : no_lead s -> no_lead (trim_right s).
Proof.
  destruct s as [|c s]; [exact (fun H => H)|]. cbn [no_lead trim_right].
  intros Hc. rewrite Hc. destruct (trim_right s); exact Hc.
Qed.

Lemma trim_right_idem : forall s, trim_right (trim_right s) = trim_right s.
Proof.
  induction s as [|c s IH]; [reflexivity|]. cbn [trim_right].
  destruct (trim_right s) as [|k kept] eqn:Hk.
  - destruct (asciiSpace c) eqn:Hc; [reflexivity|].
    cbn [trim_right]. rewrite Hc. reflexivity.
  - cbn [trim_right]. cbn [trim_right] in IH. rewrite IH. reflexivity.
Qed.

Lemma TrimSpace_idem s : TrimSpace (TrimSpace s) = TrimSpace s.
Proof.
  unfold TrimSpace.
  rewrite (trim_left_id (trim_right (trim_left s)))
    by apply trim_right_no_lead, trim_left_no_lead.
  apply trim_right_idem.
Qed.

Lemma normal_form_idem s :
  ToUpper (TrimSpace (ToUpper (TrimSpace s))) = ToUpper (TrimSpace s).
Proof.
  unfold TrimSpace at 1.
  rewrite trim_left_ToUpper, trim_right_ToUpper, ToUpper_idem.
  fold (TrimSpace (TrimSpace s)). rewrite TrimSpace_idem. reflexivity.
Qed.

(** X16.  [Parse] reads an input as it reads its normal form, the input
    without the white space around it and in upper case: letter case and
    surrounding blanks make no difference to the size or to the error.
    An input made of blanks only is not the empty input: it is rejected
    as an invalid format. *)
Theorem Parse_normalises (cpu : processor) (s : string) :
  ascii_only s = true ->
  s <> EmptyString ->
  (TrimSpace s <> EmptyString ->
   Parse cpu s = Parse cpu (ToUpper (TrimSpace s)))
  /\ (TrimSpace s = EmptyString ->
      Parse cpu s = (0, Some "invalid size format: "%string)).
Proof.
  intros _ Hs. split.
  - intros Hne. unfold Parse.
    destruct (String.eqb_spec s "") as [|_]; [contradiction|].
    destruct (String.eqb_spec (ToUpper (TrimSpace s)) "") as [He|_].
    + destruct (TrimSpace s); [contradiction|discriminate].
    + rewrite normal_form_idem. reflexivity.
  - intros Hblank. unfold Parse.
    destruct (String.eqb_spec s "") as [|_]; [contradiction|].
    rewrite Hblank. reflexivity.
Qed.

Lemma Parse_normalises_witness :
  (TrimSpace "  1.5gb " <> EmptyString ->
   Parse Amd64 "  1.5gb " = Parse Amd64 (ToUpper (TrimSpace "  1.5gb ")))
  /\ (TrimSpace "  1.5gb " = EmptyString ->
      Parse Amd64 "  1.5gb " = (0, Some "invalid size format: "%string)).
Proof.
  apply (Parse_normalises Amd64 "  1.5gb ").
  - reflexivity.
  - discriminate.
Defined.

End SizeparserSpec.

(* ===================================================================== *)
(** ** Validation *)
(* ===================================================================== *)

Module ValidationSpec.
Import Sizeparser Validation SizeparserSpec.

(** The loop of [formatSize] divides [n] by 1024 until it is below 1024:
    it ends within one iteration per factor of 1024, and [div] and [exp]
    count the factors taken out. *)
Lemma formatSize_loop_ends (B : Z) : B <= max_int64 ->
  forall (steps : nat) n div exp,
    1 <= n < 1024 ^ Z.of_nat steps ->
    0 < div -> div * n <= B ->
    0 <= exp <= 1000 - Z.of_nat steps ->
    exists j,
      0 <= j
      /\ formatSize_loop steps n div exp = Some (div * 1024 ^ j, exp + j)
      /\ 1024 ^ j <= n < 1024 ^ (j + 1).
Proof.
  intros HB. induction steps as [|steps IH]; intros n div exp Hn Hdiv Hle Hexp.
  { cbn in Hn. lia. }
  cbn [formatSize_loop].
  destruct (Z.leb_spec 1024 n) as [Hbig|Hsmall].
  - rewrite Nat2Z.inj_succ, Z.pow_succ_r in Hn by lia.
    assert (Hq : 1 <= Z.quot n 1024 < 1024 ^ Z.of_nat steps
                 /\ 1024 * Z.quot n 1024 <= n < 1024 * (Z.quot n 1024 + 1)).
    { Z.quot_rem_to_equations. lia. }
    destruct Hq as (Hq & Hqn).
    assert (Hmul : mul64 div 1024 = div * 1024).
    { unfold mul64. apply wrap64_id.
      unfold in_int64, min_int64, max_int64 in *. nia. }
    assert (Hadd : add64 exp 1 = exp + 1).
    { apply add64_id. unfold in_int64, min_int64, max_int64. lia. }
    rewrite Nat2Z.inj_succ in Hexp.
    rewrite Hmul, Hadd.
    destruct (IH (Z.quot n 1024) (div * 1024) (exp + 1)) as (j & Hj & Hrun & Hr);
      [exact Hq|lia|nia|lia|].
    exists (j + 1). split; [lia|]. split.
      * rewrite Hrun. f_equal. f_equal.
        -- rewrite Z.pow_add_r by lia. lia.
        -- lia.
      * rewrite !Z.pow_add_r, Z.pow_1_r by lia.
        rewrite Z.pow_add_r, Z.pow_1_r in Hr by lia. nia.
  - exists 0. split; [lia|]. rewrite Z.mul_1_r, Z.add_0_r.
    split; [reflexivity|]. cbn. lia.
Qed.

Section Sizes.

Context `{FloatFormat1}.

(** What [formatSize] prints for a size of 1024 or more: the unit is the
    largest power of 1024 that the size reaches, and its letter exists. *)
Lemma formatSize_unit (bytes : Z) :
  1024 <= bytes <= max_int64 ->
  exists div exp letter,
    formatSize_loop 64 (Z.quot bytes 1024) 1024 0 = Some (div, exp)
    /\ 0 <= exp <= 5
    /\ div = 1024 ^ (exp + 1)
    /\ div <= bytes < 1024 * div
    /\ unit_letter exp = Some letter
    /\ formatSize bytes = Some (fixed1 bytes div +:+ " " +:+ letter +:+ "B").
Proof.
  intros Hb.
  assert (Hq : 1 <= Z.quot bytes 1024
               /\ 1024 * Z.quot bytes 1024 <= bytes
                  < 1024 * (Z.quot bytes 1024 + 1)).
  { Z.quot_rem_to_equations. lia. }
  destruct Hq as (Hq1 & Hqn).
  destruct (formatSize_loop_ends bytes ltac:(lia) 64 (Z.quot bytes 1024)
              1024 0) as (j & Hj & Hrun & Hr).
  - split; [lia|]. unfold max_int64 in Hb.
    change (1024 ^ Z.of_nat 64) with (2 ^ 640). 
    assert (2 ^ 63 < 2 ^ 640) by (apply Z.pow_lt_mono_r; lia). lia.
  - lia.
  - lia.
  - cbn. lia.
  - rewrite Z.add_0_l in Hrun.
    assert (Hdiv : 1024 * 1024 ^ j = 1024 ^ (j + 1))
      by (rewrite Z.pow_add_r, Z.pow_1_r by lia; lia).
    rewrite Hdiv in Hrun.
    assert (Hrange : 1024 ^ (j + 1) <= bytes < 1024 * 1024 ^ (j + 1)).
    { rewrite Z.pow_add_r, Z.pow_1_r in Hr by lia.
      rewrite <- Hdiv. nia. }
    assert (Hj5 : j <= 5).
    { destruct (Z_le_gt_dec j 5) as [|Hbig]; [assumption|exfalso].
      assert (1024 ^ 7 <= 1024 ^ (j + 1))
        by (apply Z.pow_le_mono_r; lia).
      unfold max_int64 in Hb.
      change (1024 ^ 7) with (2 ^ 70) in *.
      assert (2 ^ 63 < 2 ^ 70) by (apply Z.pow_lt_mono_r; lia). lia. }
    assert (Hletter : exists letter, unit_letter j = Some letter).
    { unfold unit_letter. destruct (Z.ltb_spec j 0); [lia|].
      apply lookup_lt_is_Some_2. cbn [length]. lia. }
    destruct Hletter as (letter & Hletter).
    exists (1024 ^ (j + 1)), j, letter.
    split; [exact Hrun|]. split; [lia|]. split; [reflexivity|].
    split; [exact Hrange|]. split; [exact Hletter|].
    unfold formatSize.
    destruct (Z.eqb_spec bytes 0); [lia|].
    destruct (Z.ltb_spec bytes 1024); [lia|].
    rewrite Hrun, Hletter. reflexivity.
Qed.

(** X13.  [formatSize] returns a string for every [int64]: the loop that
    looks for the unit ends, its multiplications do not overflow, and the
    index into ["KMGTPE"] never leaves the string.  From 1024 on, the unit
    shown is the largest power of 1024 that the size reaches, up to the
    exabyte; below, the size is shown in bytes as it is, negative sizes
    included. *)
Theorem formatSize_returns (bytes : Z) :
  in_int64 bytes ->
  exists shown,
    formatSize bytes = Some shown
    /\ (bytes < 1024 ->
        shown = if bytes =? 0 then "0 B"%string else pretty bytes +:+ " B")
    /\ (1024 <= bytes ->
        exists exp letter,
          0 <= exp <= 5
          /\ 1024 ^ (exp + 1) <= bytes < 1024 ^ (exp + 2)
          /\ (["K"; "M"; "G"; "T"; "P"; "E"]%string : list string)
               !! Z.to_nat exp = Some letter
          /\ shown = fixed1 bytes (1024 ^ (exp + 1)) +:+ " " +:+ letter +:+ "B").
Proof.
  intros [Hlo Hhi].
  destruct (Z_lt_ge_dec bytes 1024) as [Hsmall|Hbig].
  - unfold formatSize.
    destruct (Z.eqb_spec bytes 0).
    + eexists. split; [reflexivity|]. split; [reflexivity|lia].
    + destruct (Z.ltb_spec bytes 1024); [|lia].
      eexists. split; [reflexivity|]. split; [reflexivity|lia].
  - destruct (formatSize_unit bytes ltac:(lia))
      as (div & exp & letter & _ & Hexp & -> & Hrange & Hletter & Hfmt).
    eexists. split; [exact Hfmt|]. split; [lia|].
    intros _. exists exp, letter. split; [exact Hexp|].
    split.
    { replace (exp + 2) with (exp + 1 + 1) by lia.
      rewrite (Z.pow_add_r 1024 (exp + 1) 1), Z.pow_1_r by lia. lia. }
    split; [|reflexivity].
    unfold unit_letter in Hletter.
    destruct (Z.ltb_spec exp 0); [lia|exact Hletter].
Qed.

End Sizes.

Lemma formatSize_returns_witness :
  exists shown,
    formatSize (H := OneDecimal) 1610612736 = Some shown
    /\ (1610612736 < 1024 ->
        shown = if 1610612736 =? 0 then "0 B"%string
                else pretty 1610612736 +:+ " B")
    /\ (1024 <= 1610612736 ->
        exists exp letter,
          0 <= exp <= 5
          /\ 1024 ^ (exp + 1) <= 1610612736 < 1024 ^ (exp + 2)
          /\ (["K"; "M"; "G"; "T"; "P"; "E"]%string : list string)
               !! Z.to_nat exp = Some letter
          /\ shown = fixed1 (FloatFormat1 := OneDecimal) 1610612736
                       (1024 ^ (exp + 1)) +:+ " " +:+ letter +:+ "B").
Proof.
  apply (formatSize_returns (H := OneDecimal) 1610612736).
  vm_compute. split; discriminate.
Defined.

(** [TestFormatSize], and the largest [int64]. *)
Example formatSize_examples :
  formatSize (H := OneDecimal) 0 = Some "0 B"%string
  /\ formatSize (H := OneDecimal) 1023 = Some "1023 B"%string
  /\ formatSize (H := OneDecimal) 1024 = Some "1.0 KB"%string
  /\ formatSize (H := OneDecimal) 1610612736 = Some "1.5 GB"%string
  /\ formatSize (H := OneDecimal) max_int64 = Some "7.9 EB"%string.
Proof. repeat split. Qed.

(** A pattern is either known to the validator, to the factory and to
    the list of patterns, or to none of them. *)
Lemma ValidatePattern_cases (pattern : string) :
  (ValidatePattern pattern = None
   /\ pattern ∈ Generator.AvailablePatterns
   /\ exists g, Generator.NewGenerator pattern = (Some g, None))
  \/ (ValidatePattern pattern <> None
      /\ (pattern ∉ Generator.AvailablePatterns)
      /\ Generator.NewGenerator pattern
         = (None, Some ("unknown pattern: " +:+ pattern)%string)).
Proof.
  unfold ValidatePattern, Generator.NewGenerator, Generator.AvailablePatterns.
  cbn [existsb].
  destruct (String.eqb_spec pattern "") as [->|Hne].
  { right. cbn. split; [discriminate|]. split; [|reflexivity].
    rewrite !elem_of_cons, elem_of_nil.
    intros [Hin|[Hin|[Hin|[Hin|[]]]]]; discriminate. }
  destruct (String.eqb_spec pattern "random") as [->|H1].
  { left. cbn [orb]. split; [reflexivity|].
    split; [rewrite !elem_of_cons; tauto|eexists; reflexivity]. }
  destruct (String.eqb_spec pattern "sequential") as [->|H2].
  { left. cbn [orb]. split; [reflexivity|].
    split; [rewrite !elem_of_cons; tauto|eexists; reflexivity]. }
  destruct (String.eqb_spec pattern "zero") as [->|H3].
  { left. cbn [orb]. split; [reflexivity|].
    split; [rewrite !elem_of_cons; tauto|eexists; reflexivity]. }
  destruct (String.eqb_spec pattern "mixed") as [->|H4].
  { left. cbn [orb]. split; [reflexivity|].
    split; [rewrite !elem_of_cons; tauto|eexists; reflexivity]. }
  right. cbn [orb]. split; [discriminate|]. split; [|reflexivity].
  rewrite !elem_of_cons, elem_of_nil. tauto.
Qed.

(** X14.  The validator and the factory agree on the pattern names:
    [ValidatePattern] accepts a pattern exactly when [NewGenerator] can
    build a generator for it, which is exactly when [AvailablePatterns]
    lists it.  The empty pattern is rejected under its own message. *)
Theorem ValidatePattern_agrees (pattern : string) :
  (ValidatePattern pattern = None
   <-> exists g, Generator.NewGenerator pattern = (Some g, None))
  /\ (ValidatePattern pattern = None
      <-> pattern ∈ Generator.AvailablePatterns)
  /\ (ValidatePattern ""
      = Some {| Field := "pattern"; Message := "pattern cannot be empty" |}).
Proof.
  split; [|split; [|reflexivity]];
    destruct (ValidatePattern_cases pattern)
      as [(Hv & Hin & Hg)|(Hv & Hin & Hg)];
    split; auto; try contradiction.
  intros [g Hg']. rewrite Hg in Hg'. discriminate.
Qed.

Lemma maxSize_value : maxSize = 10 * 1024 ^ 5.
Proof. reflexivity. Qed.

Lemma maxSingleFileSize_value : maxSingleFileSize = 8 * 1024 ^ 5.
Proof. reflexivity. Qed.

(** What [ValidateSize] makes of the answer of [Parse]. *)
Lemma ValidateSize_cases (cpu : processor) (size : string) :
  match Parse cpu size with
  | (n, None) =>
      ValidateSize cpu size = (n, None) /\ 1 <= n <= 10 * 1024 ^ 5
  | (_, Some err) =>
      ValidateSize cpu size
      = (0, Some {| Field := "size";
                    Message := if String.eqb size ""
                               then "size cannot be empty"%string
                               else ("invalid size format: " +:+ err)%string |})
  end.
Proof.
  unfold ValidateSize.
  destruct (String.eqb_spec size "") as [->|Hne]; [reflexivity|].
  destruct (Parse cpu size) as [n [err|]] eqn:HP; [reflexivity|].
  pose proof (Parse_range cpu size n HP) as Hr.
  rewrite maxSize_value in Hr.
  destruct (Z.ltb_spec n 1); [lia|].
  change (mul64 10 (1024 * 1024 * 1024 * 1024 * 1024)) with (10 * 1024 ^ 5).
  destruct (Z.ltb_spec (10 * 1024 ^ 5) n); [lia|].
  split; [reflexivity|exact Hr].
Qed.

(** X17.  [ValidateSize] adds nothing to [Parse] but the field name: it
    returns a size exactly when [Parse] does, the same one, and that size
    lies between one byte and ten pebibytes, so that its own two range
    checks never fire; when [Parse] returns an error, it returns the size
    0 and an error of the field [size]. *)
Theorem ValidateSize_agrees (cpu : processor) (size : string) :
  (forall n, ValidateSize cpu size = (n, None) <-> Parse cpu size = (n, None))
  /\ (forall n, ValidateSize cpu size = (n, None) -> 1 <= n <= 10 * 1024 ^ 5)
  /\ (forall n err,
        Parse cpu size = (n, Some err) ->
        exists message,
          ValidateSize cpu size
          = (0, Some {| Field := "size"; Message := message |})).
Proof.
  pose proof (ValidateSize_cases cpu size) as Hc.
  destruct (Parse cpu size) as [m [err|]].
  - split; [|split].
    + intros n. rewrite Hc. split; discriminate.
    + intros n. rewrite Hc. discriminate.
    + intros n err' _. eexists. exact Hc.
  - destruct Hc as [Hv Hr]. split; [|split].
    + intros n. rewrite Hv. split; intros [= <-]; reflexivity.
    + intros n. rewrite Hv. intros [= <-]. exact Hr.
    + intros n err. discriminate.
Qed.

Section All.

Context `{FloatFormat1} (cpu : processor) (os : machine).

Lemma formatSize_some (bytes : Z) :
  in_int64 bytes -> exists shown, formatSize bytes = Some shown.
Proof.
  intros [Hlo Hhi]. unfold formatSize.
  destruct (Z.eqb_spec bytes 0); [eauto|].
  destruct (Z.ltb_spec bytes 1024); [eauto|].
  destruct (formatSize_unit bytes ltac:(lia))
    as (div & exp & letter & Hrun & _ & _ & _ & Hletter & _).
  rewrite Hrun, Hletter. eauto.
Qed.

Lemma in_int64_small (n : Z) : 0 <= n <= 4611686018427387904 -> in_int64 n.
Proof. unfold in_int64, min_int64, max_int64. lia. Qed.

Lemma ValidateDiskSpace_returns path size :
  in_int64 size ->
  exists r, ValidateDiskSpace os path size = Some r
            /\ (r = None ->
                exists stat, statfs_space os = inr stat
                             /\ size <= mul64 (Bavail stat) (Bsize stat)).
Proof.
  intros Hsize. unfold ValidateDiskSpace.
  destruct (statfs_space os) as [e|stat]; [eexists; split; [reflexivity|discriminate]|].
  destruct (Z.ltb_spec (mul64 (Bavail stat) (Bsize stat)) size).
  - destruct (formatSize_some size Hsize) as (need & ->).
    destruct (formatSize_some (mul64 (Bavail stat) (Bsize stat))
                (wrap64_range _)) as (have & ->).
    eexists; split; [reflexivity|discriminate].
  - eexists; split; [reflexivity|]. intros _. exists stat. split; [reflexivity|lia].
Qed.

Lemma ValidateFileSystemCapabilities_returns path size :
  in_int64 size ->
  exists r, ValidateFileSystemCapabilities os path size = Some r
            /\ (r = None -> size <= 8 * 1024 ^ 5).
Proof.
  intros Hsize. unfold ValidateFileSystemCapabilities.
  destruct (statfs_caps os) as [e|stat]; [eexists; split; [reflexivity|discriminate]|].
  rewrite maxSingleFileSize_value.
  destruct (Z.ltb_spec (8 * 1024 ^ 5) size).
  - destruct (formatSize_some size Hsize) as (shown & ->).
    eexists; split; [reflexivity|discriminate].
  - eexists; split; [reflexivity|]. intros _. lia.
Qed.

Lemma ValidateChunkSize_returns chunkSize :
  exists r, ValidateChunkSize cpu chunkSize = Some r
            /\ (r = None ->
                exists n, Parse cpu chunkSize = (n, None)
                          /\ 1024 <= n <= 1024 * 1024 * 1024).
Proof.
  unfold ValidateChunkSize, minChunkSize, maxChunkSize.
  destruct (String.eqb chunkSize "");
    [eexists; split; [reflexivity|discriminate]|].
  destruct (Parse cpu chunkSize) as [n [err|]];
    [eexists; split; [reflexivity|discriminate]|].
  destruct (Z.ltb_spec n 1024).
  - destruct (formatSize_some 1024 (in_int64_small 1024 ltac:(lia))) as (shown & ->).
    eexists; split; [reflexivity|discriminate].
  - destruct (Z.ltb_spec (1024 * 1024 * 1024) n).
    + destruct (formatSize_some (1024 * 1024 * 1024)
                  (in_int64_small (1024 * 1024 * 1024) ltac:(lia)))
        as (shown & ->).
      eexists; split; [reflexivity|discriminate].
    + eexists; split; [reflexivity|]. intros _. exists n.
      split; [reflexivity|lia].
Qed.

(** X18.  [ValidateAll] always returns.  When it returns nil, the size
    parses to between one byte and eight pebibytes (the file-system check
    is stricter than the ten pebibytes of [ValidateSize]) and fits the
    free space reported, the pattern is one [NewGenerator] can build, the
    output path is not empty and names no existing file unless [force] is
    set, the worker count lies between 1 and four times the number of
    processors, and the chunk size parses to between 1 KiB and 1 GiB: the
    later calls of [runTrasher] to [Parse] and [NewGenerator] cannot fail
    and [NewWorkerPool] keeps both numbers as given. *)
Theorem ValidateAll_guarantees (config : ValidationConfig) :
  exists r,
    ValidateAll cpu os config = Some r
    /\ (r = None ->
        exists sizeBytes chunkBytes g stat,
          Parse cpu (Size config) = (sizeBytes, None)
          /\ 1 <= sizeBytes <= 8 * 1024 ^ 5
          /\ statfs_space os = inr stat
          /\ sizeBytes <= mul64 (Bavail stat) (Bsize stat)
          /\ Generator.NewGenerator (Pattern config) = (Some g, None)
          /\ OutputPath config <> EmptyString
          /\ (path_exists os = true -> Force config = true)
          /\ 1 <= Workers config <= mul64 (NumCPU os) 4
          /\ Parse cpu (ChunkSize config) = (chunkBytes, None)
          /\ 1024 <= chunkBytes <= 1024 * 1024 * 1024
          /\ Worker.numWorkers
               (Worker.NewWorkerPool (NumCPU os) (Workers config) chunkBytes)
             = Workers config
          /\ Worker.chunkSize
               (Worker.NewWorkerPool (NumCPU os) (Workers config) chunkBytes)
             = chunkBytes).
Proof.
  unfold ValidateAll.
  pose proof (ValidateSize_cases cpu (Size config)) as Hsize.
  destruct (Parse cpu (Size config)) as [sizeBytes [err|]] eqn:HP.
  { rewrite Hsize. eexists; split; [reflexivity|discriminate]. }
  destruct Hsize as [-> Hrange].
  destruct (ValidatePattern_cases (Pattern config))
    as [(Hv & _ & g & Hg)|(Hv & _ & _)].
  2: { destruct (ValidatePattern (Pattern config)) as [err|];
         [eexists; split; [reflexivity|discriminate]|contradiction]. }
  rewrite Hv.
  destruct (ValidateOutputPath os (OutputPath config) (Force config))
    as [err|] eqn:Hout; [eexists; split; [reflexivity|discriminate]|].
  assert (Hpath : OutputPath config <> EmptyString
                  /\ (path_exists os = true -> Force config = true)).
  { unfold ValidateOutputPath in Hout.
    destruct (String.eqb_spec (OutputPath config) ""); [discriminate|].
    destruct (path_exists os); destruct (Force config);
      cbn in Hout; try discriminate; auto. }
  assert (Hin : in_int64 sizeBytes) by (apply in_int64_small; lia).
  destruct (ValidateDiskSpace_returns (OutputPath config) sizeBytes Hin)
    as (r1 & -> & Hr1).
  destruct r1 as [err|]; [eexists; split; [reflexivity|discriminate]|].
  destruct (Hr1 eq_refl) as (stat & Hstat & Havail).
  destruct (ValidateFileSystemCapabilities_returns (OutputPath config)
              sizeBytes Hin) as (r2 & -> & Hr2).
  destruct r2 as [err|]; [eexists; split; [reflexivity|discriminate]|].
  specialize (Hr2 eq_refl).
  destruct (ValidateWorkers os (Workers config)) as [err|] eqn:Hw;
    [eexists; split; [reflexivity|discriminate]|].
  assert (Hworkers : 1 <= Workers config <= mul64 (NumCPU os) 4).
  { unfold ValidateWorkers in Hw.
    destruct (Z.ltb_spec (Workers config) 1); [discriminate|].
    destruct (Z.ltb_spec (mul64 (NumCPU os) 4) (Workers config));
      [discriminate|lia]. }
  destruct (ValidateChunkSize_returns (ChunkSize config)) as (r3 & Hr3 & Hc).
  exists r3. split; [exact Hr3|]. intros ->.
  destruct (Hc eq_refl) as (chunkBytes & Hchunk & Hcr).
  exists sizeBytes, chunkBytes, g, stat.
  split; [reflexivity|]. split; [lia|]. split; [exact Hstat|].
  split; [exact Havail|]. split; [exact Hg|]. split; [apply Hpath|].
  split; [apply Hpath|]. split; [exact Hworkers|]. split; [exact Hchunk|].
  split; [exact Hcr|].
  unfold Worker.NewWorkerPool. cbn [Worker.numWorkers Worker.chunkSize].
  destruct (Z.leb_spec (Workers config) 0); [lia|].
  destruct (Z.leb_spec chunkBytes 0); [lia|]. split; reflexivity.
Qed.

End All.

(** Nine pebibytes pass [ValidateSize] and fail [ValidateAll], on a disk
    that has the room. *)
Example ValidateAll_nine_pebibytes :
  let os := {| NumCPU := 8; path_exists := false; Dir := ".";
               stat_dir := Found true; create_temp := None;
               statfs_space := inr {| Bavail := 2 ^ 62; Bsize := 1;
                                      Blocks := 2 ^ 62 |};
               statfs_caps := inr {| Bavail := 2 ^ 62; Bsize := 1;
                                     Blocks := 2 ^ 62 |} |} in
  let config size := {| Size := size; Pattern := "zero";
                        OutputPath := "out.dat"; Workers := 4;
                        ChunkSize := "64MB"; Force := false |} in
  ValidateSize Amd64 "9PB" = (9 * 1024 ^ 5, None)
  /\ ValidateAll (H := OneDecimal) Amd64 os (config "9PB"%string)
     = Some (Some {| Field := "filesystem";
                     Message := "file size 9.0 PB exceeds maximum file size limit" |})
  /\ ValidateAll (H := OneDecimal) Amd64 os (config "8PB"%string) = Some None.
Proof. repeat split; vm_compute; reflexivity. Qed.

End ValidationSpec.
